(** * Commit-graph index and path-history engine of go-git (commit-graph branch)

    A shallow embedding of
    - [commitgraph.MemoryIndex] (GetIndexByHash, GetNodeByIndex, Add),
    - the graph-backed walker [graphCommitNodeIndex] of package [object],
    - the history query [getLastCommitForPaths] with its helpers
      [getCommitTree], [getFileHashes] and [canSkipCommit],
    followed by the properties stated about them.

    Conventions.  A Go [int] is a [Z]; a [plumbing.Hash] (twenty bytes) is the
    natural number those bytes spell, so that [plumbing.ZeroHash] is [0]; a
    [time.Time] is a [Z] (an instant on the time line) and [Before] is [<].
    A Go [map] is a [gmap], a [map[Hash]bool] that only ever receives [true]
    is a [gset].  A call that returns [(T, error)] returns a [result T];
    a run-time panic (index out of range) is the third outcome [Panic]. *)

From Stdlib Require Import ZArith NArith String List Lia Sorting.Sorted.
From stdpp Require Import base option list gmap strings fin_maps.

#[local] Open Scope string_scope.
#[local] Open Scope list_scope.
#[local] Open Scope Z_scope.

(** ** Hashes, errors and results *)

Abbreviation Hash := N.

Definition ZeroHash : Hash := 0%N.

(** The error values the modelled code can tell apart.  [ErrDecode] stands for
    any failure to read or decode a stored object. *)
Inductive error : Type :=
  | ErrObjectNotFound
  | ErrParentNotFound
  | ErrDirectoryNotFound
  | ErrEntryNotFound
  | ErrDecode.

#[global] Instance error_eq_dec : EqDecision error.
Proof. solve_decision. Defined.

Inductive result (A : Type) : Type :=
  | Ok (a : A)
  | Err (e : error)
  | Panic.
Arguments Ok {A} a.
Arguments Err {A} e.
Arguments Panic {A}.

Definition bind {A B : Type} (r : result A) (k : A -> result B) : result B :=
  match r with
  | Ok a => k a
  | Err e => Err e
  | Panic => Panic
  end.

Notation "x <- r ;; k" := (bind r (fun x => k))
  (at level 100, r at next level, right associativity).

(** [m[k]] on a Go map of hashes: the zero value when the key is missing
    (also on a nil map, which is modelled by the empty map). *)
Definition lookup0 (m : gmap string Hash) (k : string) : Hash :=
  default ZeroHash (m !! k).

(** [s[i]] on a Go slice: panics outside [0 <= i < len(s)]. *)
Definition index_slice {A : Type} (s : list A) (i : Z) : result A :=
  if i <? 0 then Panic
  else match s !! Z.to_nat i with
       | Some a => Ok a
       | None => Panic
       end.

Definition len {A : Type} (s : list A) : Z := Z.of_nat (length s).

(** ** Package commitgraph: the in-memory index *)

Module commitgraph.

(** Modelled from the spec: the declaration of [commitgraph.Node] is not part
    of the sources at hand; these are the fields the code reads and writes
    (tree hash, parent hashes, parent positions, commit time). *)
Record Node : Type := mkNode {
  TreeHash : Hash;
  ParentHashes : list Hash;
  ParentIndexes : list Z;
  When : Z
}.

Record MemoryIndex : Type := mkMemoryIndex {
  commitData : list Node;
  indexMap : gmap Hash Z
}.

Definition NewMemoryIndex : MemoryIndex :=
  {| commitData := []; indexMap := ∅ |}.

Definition GetIndexByHash (mi : MemoryIndex) (h : Hash) : result Z :=
  match indexMap mi !! h with
  | Some i => Ok i
  | None => Err ErrObjectNotFound
  end.

(** The only guard is [i >= len(commitData)]; below it the slice is indexed. *)
Definition GetNodeByIndex (mi : MemoryIndex) (i : Z) : result Node :=
  if i >=? len (commitData mi) then Err ErrObjectNotFound
  else index_slice (commitData mi) i.

(** [Hashes] ranges over the map; Go leaves the order unspecified, the
    model lists the keys in the order of [map_to_list]. *)
Definition Hashes (mi : MemoryIndex) : list Hash :=
  (map_to_list (indexMap mi)).*1.

(** The loop of [Add] that fills [parentIndexes]: the first parent hash the
    index does not know ends the call with the lookup's error. *)
Fixpoint resolveParents (mi : MemoryIndex) (parentHashes : list Hash)
  : result (list Z) :=
  match parentHashes with
  | [] => Ok []
  | parentHash :: rest =>
      i <- GetIndexByHash mi parentHash;;
      parentIndexes <- resolveParents mi rest;;
      Ok (i :: parentIndexes)
  end.

Definition withParentIndexes (node : Node) (parentIndexes : list Z) : Node :=
  {| TreeHash := TreeHash node;
     ParentHashes := ParentHashes node;
     ParentIndexes := parentIndexes;
     When := When node |}.

(** [Add] writes through the node pointer and mutates the index; the model
    returns the index after the call together with the node as stored.
    On an error nothing has been written yet. *)
Definition Add (mi : MemoryIndex) (hash : Hash) (node : Node)
  : result (MemoryIndex * Node) :=
  parentIndexes <- resolveParents mi (ParentHashes node);;
  let node' := withParentIndexes node parentIndexes in
  Ok ({| commitData := commitData mi ++ [node'];
         indexMap := <[hash := len (commitData mi)]> (indexMap mi) |},
      node').

(** A sequence of [Add] calls, all of which have to succeed. *)
Fixpoint AddAll (mi : MemoryIndex) (adds : list (Hash * Node))
  : result MemoryIndex :=
  match adds with
  | [] => Ok mi
  | (hash, node) :: rest =>
      r <- Add mi hash node;;
      AddAll r.1 rest
  end.

(** Every position the hash map hands out addresses a stored node. *)
Definition positions_valid (mi : MemoryIndex) : Prop :=
  forall h i, indexMap mi !! h = Some i -> 0 <= i < len (commitData mi).

End commitgraph.

(** ** Package object: commits, trees and the graph-backed walker *)

Module object.

(** Modelled from the spec: the declaration of [Commit] is not part of the
    sources at hand; a decoded commit carries its own hash, its tree hash,
    its parent hashes in declared order and the committer time. *)
Record Commit : Type := mkCommit {
  commit_Hash : Hash;
  commit_TreeHash : Hash;
  commit_ParentHashes : list Hash;
  commit_When : Z
}.

(** Modelled from the spec: a tree offers its own hash and a path-qualified
    lookup of entries; nested sub-trees are flattened into the path keys. *)
Record TreeEntry : Type := mkTreeEntry {
  entry_Name : string;
  entry_Hash : Hash
}.

Record Tree : Type := mkTree {
  tree_Hash : Hash;
  tree_Entries : gmap string TreeEntry
}.

(** Modelled from the spec: the object store is consumed through "get commit
    by hash" and "get tree by hash"; an object can be missing, of the other
    kind, or unreadable. *)
Inductive Object : Type :=
  | CommitObject (c : Commit)
  | TreeObject (t : Tree)
  | Unreadable.

Abbreviation EncodedObjectStorer := (gmap Hash Object).

Definition GetCommit (s : EncodedObjectStorer) (h : Hash) : result Commit :=
  match s !! h with
  | Some (CommitObject c) => Ok c
  | Some (TreeObject _) => Err ErrObjectNotFound
  | Some Unreadable => Err ErrDecode
  | None => Err ErrObjectNotFound
  end.

Definition GetTree (s : EncodedObjectStorer) (h : Hash) : result Tree :=
  match s !! h with
  | Some (TreeObject t) => Ok t
  | Some (CommitObject _) => Err ErrObjectNotFound
  | Some Unreadable => Err ErrDecode
  | None => Err ErrObjectNotFound
  end.

(** [tree.FindEntry(path)] *)
Definition FindEntry (t : Tree) (path : string) : result TreeEntry :=
  match tree_Entries t !! path with
  | Some e => Ok e
  | None => Err ErrEntryNotFound
  end.

(** [tree.Tree(path)]: the sub-tree below [path]; a path that names no
    directory is [ErrDirectoryNotFound]. *)
Definition SubTree (s : EncodedObjectStorer) (t : Tree) (path : string)
  : result Tree :=
  match FindEntry t path with
  | Ok e =>
      match GetTree s (entry_Hash e) with
      | Err ErrObjectNotFound => Err ErrDirectoryNotFound
      | r => r
      end
  | Err _ => Err ErrDirectoryNotFound
  | Panic => Panic
  end.

(** [graphCommitNode]; the back pointer [gci] only serves to reach the
    object store, which the model passes along explicitly. *)
Record graphCommitNode : Type := mkGraphCommitNode {
  hash : Hash;
  index : Z;
  node : commitgraph.Node
}.

(** The two concrete types behind the interface [CommitNode]. *)
Inductive CommitNode : Type :=
  | GraphNode (cgn : graphCommitNode)
  | FullCommit (co : Commit).

Definition ID (c : CommitNode) : Hash :=
  match c with
  | GraphNode cgn => hash cgn
  | FullCommit co => commit_Hash co
  end.

Definition CommitTime (c : CommitNode) : Z :=
  match c with
  | GraphNode cgn => commitgraph.When (node cgn)
  | FullCommit co => commit_When co
  end.

Definition CommitNode_Tree (s : EncodedObjectStorer) (c : CommitNode)
  : result Tree :=
  match c with
  | GraphNode cgn => GetTree s (commitgraph.TreeHash (node cgn))
  | FullCommit co => GetTree s (commit_TreeHash co)
  end.

(** Modelled from the spec: the path filter of a commit answers membership
    tests for path strings. *)
Record BloomPathFilter : Type := mkBloomPathFilter {
  Test : string -> bool
}.

(** The interface [CommitNodeIndex], by the methods the history query calls.
    [BloomFilter] is called by [canSkipCommit] although the interface
    declaration at hand does not list it; [None] is a non-nil error. *)
Record CommitNodeIndex : Type := mkCommitNodeIndex {
  NumParents : CommitNode -> Z;
  ParentNode : CommitNode -> Z -> result CommitNode;
  ParentHashes : CommitNode -> list Hash;
  Commit_of : CommitNode -> result Commit;
  BloomFilter : CommitNode -> option BloomPathFilter
}.

Record graphCommitNodeIndex : Type := mkGraphCommitNodeIndex {
  commitGraph : commitgraph.MemoryIndex;
  s : EncodedObjectStorer
}.

Definition graph_NumParents (gci : graphCommitNodeIndex) (node : CommitNode) : Z :=
  match node with
  | GraphNode cgn => len (commitgraph.ParentIndexes (object.node cgn))
  | FullCommit co => len (commit_ParentHashes co)
  end.

Definition graph_ParentNode (gci : graphCommitNodeIndex) (node : CommitNode)
  (i : Z) : result CommitNode :=
  match node with
  | GraphNode cgn =>
      let parentIndexes := commitgraph.ParentIndexes (object.node cgn) in
      if (len parentIndexes =? 0) || (i >=? len parentIndexes)
      then Err ErrParentNotFound
      else
        parentIndex <- index_slice parentIndexes i;;
        parent <- commitgraph.GetNodeByIndex (commitGraph gci) parentIndex;;
        parentHash <- index_slice (commitgraph.ParentHashes (object.node cgn)) i;;
        Ok (GraphNode {| hash := parentHash; index := parentIndex; node := parent |})
  | FullCommit co =>
      if (len (commit_ParentHashes co) =? 0) || (i >=? len (commit_ParentHashes co))
      then Err ErrParentNotFound
      else
        parentHash <- index_slice (commit_ParentHashes co) i;;
        (* Check the commit graph first *)
        match commitgraph.GetIndexByHash (commitGraph gci) parentHash with
        | Ok parentIndex =>
            parent <- commitgraph.GetNodeByIndex (commitGraph gci) parentIndex;;
            Ok (GraphNode {| hash := parentHash; index := parentIndex; node := parent |})
        | Err _ =>
            (* Fallback to loading full commit object *)
            co' <- GetCommit (s gci) parentHash;;
            Ok (FullCommit co')
        | Panic => Panic
        end
  end.

Definition graph_ParentHashes (gci : graphCommitNodeIndex) (node : CommitNode)
  : list Hash :=
  match node with
  | GraphNode cgn => commitgraph.ParentHashes (object.node cgn)
  | FullCommit co => commit_ParentHashes co
  end.

Definition graph_Commit (gci : graphCommitNodeIndex) (node : CommitNode)
  : result Commit :=
  match node with
  | GraphNode cgn => GetCommit (s gci) (ID node)
  | FullCommit co => Ok co
  end.

(** [NewGraphCommitNodeIndex], with the filter lookup passed in. *)
Definition NewGraphCommitNodeIndex (commitGraph : commitgraph.MemoryIndex)
  (s : EncodedObjectStorer) (bloom : CommitNode -> option BloomPathFilter)
  : CommitNodeIndex :=
  let gci := {| commitGraph := commitGraph; s := s |} in
  {| NumParents := graph_NumParents gci;
     ParentNode := graph_ParentNode gci;
     ParentHashes := graph_ParentHashes gci;
     Commit_of := graph_Commit gci;
     BloomFilter := bloom |}.

End object.

(** ** The priority queue of the search

    The search keeps its frontier in a binary heap of an outside library
    (package [binaryheap]), created with a comparator.  The model asks of a
    heap only what the library documents: [Push] adds a value, [Pop] removes
    and returns a value that the comparator places after no other one.  Which
    of several such values comes first is left to the implementation. *)

Class HeapOps (A : Type) : Type := {
  Heap : Type;
  NewWith : Heap;
  Push : A -> Heap -> Heap;
  Pop : Heap -> option (A * Heap);
  Values : Heap -> list A
}.

Class HeapLaws {A : Type} (cmp : A -> A -> Z) (H : HeapOps A) : Prop := {
  Values_NewWith : Values NewWith = [];
  Values_Push : forall x h, Values (Push x h) ≡ₚ x :: Values h;
  Pop_empty : forall h, Pop h = None <-> Values h = [];
  Pop_first : forall h x h', Pop h = Some (x, h') ->
    Values h ≡ₚ x :: Values h' /\ Forall (fun y => cmp x y <= 0) (Values h')
}.

(** A heap kept as a plain list: [Push] appends, [Pop] takes out the first
    value that the comparator places after no other one. *)
Fixpoint popList {A : Type} (cmp : A -> A -> Z) (l : list A) : option (A * list A) :=
  match l with
  | [] => None
  | x :: l' =>
      match popList cmp l' with
      | None => Some (x, [])
      | Some (m, r) => if cmp x m <=? 0 then Some (x, l') else Some (m, x :: r)
      end
  end.

Definition listHeap {A : Type} (cmp : A -> A -> Z) : HeapOps A :=
  {| Heap := list A;
     NewWith := [];
     Push := fun x h => h ++ [x];
     Pop := popList cmp;
     Values := fun h => h |}.

(** ** The history query *)

Module lastcommit.
Import object.

Record commitAndPaths : Type := mkCommitAndPaths {
  commit : CommitNode;
  (* Paths that are still on the branch represented by commit *)
  paths : list string;
  (* Set of hashes for the paths *)
  hashes : gmap string Hash
}.

(** The comparator handed to [binaryheap.NewWith]. *)
Definition byCommitTime (a b : commitAndPaths) : Z :=
  if CommitTime (commit a) <? CommitTime (commit b) then 1 else -1.

Definition getCommitTree (s : EncodedObjectStorer) (c : CommitNode)
  (treePath : string) : result Tree :=
  tree <- CommitNode_Tree s c;;
  (* Optimize deep traversals by focusing only on the specific tree *)
  if decide (treePath ≠ "") then SubTree s tree treePath else Ok tree.

(** The body of the loop over [paths] in [getFileHashes]. *)
Definition addFileHash (tree : Tree) (hashes : gmap string Hash)
  (path : string) : gmap string Hash :=
  if decide (path ≠ "") then
    match FindEntry tree path with
    | Ok entry => <[path := entry_Hash entry]> hashes
    | _ => hashes
    end
  else <[path := tree_Hash tree]> hashes.

Definition getFileHashes (s : EncodedObjectStorer) (c : CommitNode)
  (treePath : string) (paths : list string) : result (gmap string Hash) :=
  match getCommitTree s c treePath with
  | Err ErrDirectoryNotFound =>
      (* The whole tree didn't exist, so return empty map *)
      Ok ∅
  | Err e => Err e
  | Panic => Panic
  | Ok tree => Ok (foldl (addFileHash tree) ∅ paths)
  end.

Definition fullPath (treePath path : string) : string :=
  if decide (treePath ≠ "") then
    if decide (path ≠ "") then (treePath ++ "/" ++ path)%string else treePath
  else path.

Definition canSkipCommit (index : CommitNodeIndex) (commit : CommitNode)
  (treePath : string) (paths : list string) : bool :=
  match BloomFilter index commit with
  | Some bloom => forallb (fun path => negb (Test bloom (fullPath treePath path))) paths
  | None => false
  end.

(** [for i := 0; i < numParents; i++]: the first parent that fails to load
    ends the loop; the parents found so far are kept. *)
Fixpoint loadParents (index : CommitNodeIndex) (c : CommitNode) (i : Z)
  (todo : nat) : result (list CommitNode) :=
  match todo with
  | O => Ok []
  | S todo' =>
      match ParentNode index c i with
      | Ok parent =>
          rest <- loadParents index c (i + 1) todo';;
          Ok (parent :: rest)
      | Err _ => Ok []
      | Panic => Panic
      end
  end.

(** [m[path] != plumbing.ZeroHash] *)
Definition present (m : gmap string Hash) (path : string) : bool :=
  negb (lookup0 m path =? ZeroHash)%N.

(** The loop over [current.paths] for one parent: [numOfParentsWithPath[i]]
    and [pathChanged[i]] are updated in place, slot by slot. *)
Definition tallyParent (parentHashes_j currentHashes : gmap string Hash)
  (paths : list string) (numOfParentsWithPath : list Z)
  (pathChanged : list bool) : list Z * list bool :=
  (zip_with (fun path n => if present parentHashes_j path then n + 1 else n)
     paths numOfParentsWithPath,
   zip_with (fun path changed =>
               if present parentHashes_j path
               then if (lookup0 parentHashes_j path =? lookup0 currentHashes path)%N
                    then changed else true
               else changed)
     paths pathChanged).

Record Scan : Type := mkScan {
  parentHashes : list (gmap string Hash);
  numOfParentsWithPath : list Z;
  pathChanged : list bool;
  scanErr : option error
}.

(** [for j, parent := range parents]: a failing [getFileHashes] leaves a nil
    map in slot [j], stores the error in [err] and breaks; the slots after
    it keep the nil maps [make] put there. *)
Fixpoint scanParents (s : EncodedObjectStorer) (treePath : string)
  (current : commitAndPaths) (parents : list CommitNode)
  (nums : list Z) (changed : list bool) (err : option error) : result Scan :=
  match parents with
  | [] => Ok {| parentHashes := []; numOfParentsWithPath := nums;
                pathChanged := changed; scanErr := err |}
  | parent :: rest =>
      match getFileHashes s parent treePath (paths current) with
      | Ok parentHashes_j =>
          let '(nums', changed') :=
            tallyParent parentHashes_j (hashes current) (paths current) nums changed in
          sc <- scanParents s treePath current rest nums' changed' None;;
          Ok {| parentHashes := parentHashes_j :: parentHashes sc;
                numOfParentsWithPath := numOfParentsWithPath sc;
                pathChanged := pathChanged sc;
                scanErr := scanErr sc |}
      | Err e =>
          Ok {| parentHashes := replicate (length parents) ∅;
                numOfParentsWithPath := nums;
                pathChanged := changed;
                scanErr := Some e |}
      | Panic => Panic
      end
  end.

(** [if resultNodes[path] == nil { resultNodes[path] = current.commit }] *)
Definition recordResult (resultNodes : gmap string CommitNode) (path : string)
  (c : CommitNode) : gmap string CommitNode :=
  match resultNodes !! path with
  | None => <[path := c]> resultNodes
  | Some _ => resultNodes
  end.

(** The [switch numOfParentsWithPath[i]] for one path. *)
Definition classifyPath (c : CommitNode)
  (acc : gmap string CommitNode * list string)
  (slot : string * (Z * bool)) : gmap string CommitNode * list string :=
  let '(resultNodes, remainingPaths) := acc in
  let '(path, (n, changed)) := slot in
  if n =? 0 then (recordResult resultNodes path c, remainingPaths)
  else if n =? 1 then
    if changed then (recordResult resultNodes path c, remainingPaths)
    else (resultNodes, remainingPaths ++ [path])
  else (resultNodes, remainingPaths ++ [path]).

Definition classify (c : CommitNode) (resultNodes : gmap string CommitNode)
  (paths : list string) (nums : list Z) (changed : list bool)
  : gmap string CommitNode * list string :=
  foldl (classifyPath c) (resultNodes, []) (zip paths (zip nums changed)).

(** The frontier entry for one parent, unless the parent was seen. *)
Definition entryForParent (seen : gset Hash) (remainingPaths : list string)
  (slot : CommitNode * gmap string Hash) : list commitAndPaths :=
  let '(parent, parentHashes_j) := slot in
  if decide (ID parent ∈ seen) then []
  else [ {| commit := parent;
            paths := List.filter (present parentHashes_j) remainingPaths;
            hashes := parentHashes_j |} ].

Definition entriesForParents (seen : gset Hash) (remainingPaths : list string)
  (parents : list CommitNode) (parentHashes : list (gmap string Hash))
  : list commitAndPaths :=
  zip parents parentHashes ≫= entryForParent seen remainingPaths.

(** What one iteration does with the entry it popped, once the commit is
    marked as seen: the result map, the entries it pushes (in order) and
    the value left in [err]; or a panic. *)
Inductive Processed : Type :=
  | Crashed
  | Emitted (resultNodes : gmap string CommitNode)
      (pushes : list commitAndPaths) (err : option error).

Definition generalCase (s : EncodedObjectStorer) (treePath : string)
  (seen : gset Hash) (resultNodes : gmap string CommitNode)
  (err : option error) (current : commitAndPaths)
  (parents : list CommitNode) : Processed :=
  let width := length (paths current) in
  match scanParents s treePath current parents
          (replicate width 0) (replicate width false) err with
  | Ok sc =>
      let '(resultNodes', remainingPaths) :=
        classify (commit current) resultNodes (paths current)
          (numOfParentsWithPath sc) (pathChanged sc) in
      Emitted resultNodes'
        (if len remainingPaths >? 0
         then entriesForParents seen remainingPaths parents (parentHashes sc)
         else [])
        (scanErr sc)
  | _ => Crashed
  end.

Definition processEntry (index : CommitNodeIndex) (s : EncodedObjectStorer)
  (treePath : string) (seen : gset Hash)
  (resultNodes : gmap string CommitNode) (err : option error)
  (current : commitAndPaths) : Processed :=
  (* Load the parent commits for the one we are currently examining *)
  let numParents := NumParents index (commit current) in
  match loadParents index (commit current) 0 (Z.to_nat numParents) with
  | Ok parents =>
      (* Optimization: If there is only one parent and a bloom filter can
         tell us that none of our paths has changed then skip all the
         change checking *)
      if (numParents =? 1)
         && canSkipCommit index (commit current) treePath (paths current)
      then
        match index_slice parents 0 with
        | Ok parent =>
            Emitted resultNodes
              [ {| commit := parent; paths := paths current;
                   hashes := hashes current |} ] err
        | _ => Crashed
        end
      else generalCase s treePath seen resultNodes err current parents
  | _ => Crashed
  end.

Section Search.
Context {H : HeapOps commitAndPaths}.
Variable index : CommitNodeIndex.
Variable s : EncodedObjectStorer.
Variable treePath : string.

(** The variables of [getLastCommitForPaths] that live across iterations. *)
Record State : Type := mkState {
  seen : gset Hash;
  heap : Heap;
  resultNodes : gmap string CommitNode;
  err : option error
}.

Inductive Event : Type :=
  | Visited (c : CommitNode)
  | AlreadySeen (c : CommitNode).

Inductive Step : Type :=
  | Halt
  | Crash
  | Next (ev : Event) (st : State).

Definition pushAll (h : Heap) (entries : list commitAndPaths) : Heap :=
  foldl (fun h e => Push e h) h entries.

(** One iteration of the [for] loop. *)
Definition step (st : State) : Step :=
  match Pop (heap st) with
  | None => Halt
  | Some (current, h) =>
      let currentID := ID (commit current) in
      if decide (currentID ∈ seen st)
      then Next (AlreadySeen (commit current))
             {| seen := seen st; heap := h;
                resultNodes := resultNodes st; err := err st |}
      else
        let seen' := {[currentID]} ∪ seen st in
        match processEntry index s treePath seen' (resultNodes st) (err st) current with
        | Crashed => Crash
        | Emitted resultNodes' pushes err' =>
            Next (Visited (commit current))
              {| seen := seen'; heap := pushAll h pushes;
                 resultNodes := resultNodes'; err := err' |}
        end
  end.

Inductive LoopEnd : Type :=
  | OutOfFuel
  | Panicked
  | Broke (st : State).

(** The loop, cut off after [fuel] iterations, with the events of the
    iterations it made. *)
Fixpoint run (fuel : nat) (st : State) : list Event * LoopEnd :=
  match fuel with
  | O => ([], OutOfFuel)
  | S fuel' =>
      match step st with
      | Halt => ([], Broke st)
      | Crash => ([], Panicked)
      | Next ev st' =>
          let '(evs, e) := run fuel' st' in (ev :: evs, e)
      end
  end.

(** Post-processing: Go ranges over [resultNodes] in an unspecified order
    and returns at the first failing [index.Commit]; the model takes the
    order of [map_to_list]. *)
Fixpoint materialize (l : list (string * CommitNode))
  (acc : gmap string Commit) : result (gmap string Commit) :=
  match l with
  | [] => Ok acc
  | (path, commitNode) :: rest =>
      c <- Commit_of index commitNode;;
      materialize rest (<[path := c]> acc)
  end.

Definition initialState (c : CommitNode) (paths : list string)
  (initialHashes : gmap string Hash) : State :=
  {| seen := ∅;
     heap := Push {| commit := c; paths := paths; hashes := initialHashes |} NewWith;
     resultNodes := ∅;
     err := None |}.

(** [None]: the loop did not end within [fuel] iterations. *)
Definition getLastCommitForPaths (c : CommitNode) (paths : list string)
  (fuel : nat) : option (result (gmap string Commit)) :=
  match getFileHashes s c treePath paths with
  | Ok initialHashes =>
      match (run fuel (initialState c paths initialHashes)).2 with
      | OutOfFuel => None
      | Panicked => Some Panic
      | Broke st => Some (materialize (map_to_list (resultNodes st)) ∅)
      end
  | Err e => Some (Err e)
  | Panic => Some Panic
  end.

(** The commits the loop processed, in order. *)
Definition visited (evs : list Event) : list CommitNode :=
  omap (fun ev => match ev with Visited c => Some c | AlreadySeen _ => None end) evs.

(** The states the loop passes through, starting from a given one. *)
Inductive reaches : State -> State -> Prop :=
  | reaches_here (st : State) : reaches st st
  | reaches_next (st st' st'' : State) (ev : Event) :
      step st = Next ev st' -> reaches st' st'' -> reaches st st''.

(** How the loop ended and with which result map, when it did end within
    [fuel] iterations. *)
Definition outcome (fuel : nat) (st : State)
  : option (option (gmap string CommitNode)) :=
  match (run fuel st).2 with
  | OutOfFuel => None
  | Panicked => Some None
  | Broke st' => Some (Some (resultNodes st'))
  end.

End Search.

(** The same index with no path filter on any commit: [canSkipCommit] is
    false throughout and only the general case runs. *)
Definition withoutBloom (index : CommitNodeIndex) : CommitNodeIndex :=
  {| NumParents := NumParents index;
     ParentNode := ParentNode index;
     ParentHashes := ParentHashes index;
     Commit_of := Commit_of index;
     BloomFilter := fun _ => None |}.

(** The search with the fast path left out. *)
Definition getLastCommitForPaths_generalCaseOnly {H : HeapOps commitAndPaths}
  (index : CommitNodeIndex) (s : EncodedObjectStorer) (treePath : string)
  (c : CommitNode) (paths : list string) (fuel : nat)
  : option (result (gmap string Commit)) :=
  getLastCommitForPaths (withoutBloom index) s treePath c paths fuel.

(** The commits the walker can get to from [c0] by parent positions. *)
Inductive ancestor (index : CommitNodeIndex) (c0 : CommitNode) : CommitNode -> Prop :=
  | ancestor_self : ancestor index c0 c0
  | ancestor_parent (c p : CommitNode) (i : Z) :
      ancestor index c0 c -> ParentNode index c i = Ok p -> ancestor index c0 p.

(** The content hash the search sees for [path] in commit [c]: the map
    lookup on what [getFileHashes] returns, the zero hash when the path is
    missing, and also when the tree cannot be read (the search then goes on
    with a nil map). *)
Definition contentAt (s : EncodedObjectStorer) (treePath : string)
  (c : CommitNode) (path : string) : Hash :=
  match getFileHashes s c treePath [path] with
  | Ok m => lookup0 m path
  | _ => ZeroHash
  end.

(** A path filter on [c] is sound when [c] has one parent, that parent
    loads, and the filter answers true for every path whose content differs
    between [c] and that parent. *)
Definition filter_sound (index : CommitNodeIndex) (s : EncodedObjectStorer)
  (treePath : string) (c : CommitNode) : Prop :=
  forall bloom, BloomFilter index c = Some bloom ->
    NumParents index c = 1 ->
    exists p, ParentNode index c 0 = Ok p /\
      forall path, contentAt s treePath c path <> contentAt s treePath p path ->
        Test bloom (fullPath treePath path) = true.

(** A frontier entry whose recorded hashes are those of its own commit, and
    all of whose paths exist in that commit. *)
Definition entry_tracks (s : EncodedObjectStorer) (treePath : string)
  (e : commitAndPaths) : Prop :=
  forall path, path ∈ paths e ->
    lookup0 (hashes e) path = contentAt s treePath (commit e) path /\
    lookup0 (hashes e) path <> ZeroHash.

(** How the entry of the search with the fast path ([e]) relates to the
    entry of the search without it ([e']) while the two run side by side. *)
Definition entries_match (index : CommitNodeIndex) (s : EncodedObjectStorer)
  (treePath : string) (c0 : CommitNode) (e e' : commitAndPaths) : Prop :=
  commit e = commit e' /\ paths e = paths e' /\ paths e' <> [] /\
  ancestor index c0 (commit e') /\
  (forall path, path ∈ paths e' -> lookup0 (hashes e) path = lookup0 (hashes e') path) /\
  entry_tracks s treePath e'.

(** The states of the two searches on a history without merges: the same
    seen set and result map, and frontiers that are both empty, or hold one
    matching entry each, or the search with the fast path holds one entry
    for a commit that was seen while the other search has none. *)
Definition states_match {H : HeapOps commitAndPaths} (index : CommitNodeIndex)
  (s : EncodedObjectStorer) (treePath : string) (c0 : CommitNode)
  (st st' : State) : Prop :=
  seen st = seen st' /\ resultNodes st = resultNodes st' /\
  ((Values (heap st) = [] /\ Values (heap st') = []) \/
   (exists e e', Values (heap st) = [e] /\ Values (heap st') = [e'] /\
      entries_match index s treePath c0 e e' /\
      err st = None /\ err st' = None) \/
   (exists e, Values (heap st) = [e] /\ Values (heap st') = [] /\
      ID (commit e) ∈ seen st)).

(** Two hash maps the search cannot tell apart: every lookup agrees. *)
Definition hashes_agree (m m' : gmap string Hash) : Prop :=
  forall path, lookup0 m path = lookup0 m' path.

(** The hash of the entry at [path], the zero hash when there is none. *)
Definition entryHash0 (t : Tree) (path : string) : Hash :=
  default ZeroHash (entry_Hash <$> tree_Entries t !! path).

(** Two trees that differ at most in entries whose hash is the zero hash:
    where one has such an entry the other may have none. *)
Definition tree_agree (t t' : Tree) : Prop :=
  tree_Hash t = tree_Hash t' /\
  forall path, entryHash0 t path = entryHash0 t' path.

Definition commitTree_agree (r r' : result Tree) : Prop :=
  match r, r' with
  | Ok t, Ok t' => tree_agree t t'
  | Err e, Err e' => e = e'
  | Panic, Panic => True
  | _, _ => False
  end.

(** In how many of the parents' hash maps [path] is present, and whether
    one of those maps holds a hash for it other than the current one: the
    values the two tally slices hold for [path] after the scan. *)
Definition countPresent (parentHashes : list (gmap string Hash)) (path : string) : Z :=
  len (List.filter (fun m => present m path) parentHashes).

Definition changedIn (parentHashes : list (gmap string Hash))
  (currentHashes : gmap string Hash) (path : string) : bool :=
  existsb (fun m => present m path
                    && negb (lookup0 m path =? lookup0 currentHashes path)%N)
    parentHashes.

(** The slot of a path after the scan: its count and its changed flag. *)
Definition slotsOf (phs : list (gmap string Hash)) (cur : gmap string Hash)
  (paths : list string) : list (string * (Z * bool)) :=
  (fun path => (path, (countPresent phs path, changedIn phs cur path))) <$> paths.

(** The slots the [switch] sends to [remainingPaths]. *)
Definition deferred (slot : string * (Z * bool)) : bool :=
  let '(_, (n, changed)) := slot in
  negb (n =? 0) && (negb (n =? 1) || negb changed).

(** What [getFileHashes] stores for [path] once the tree is resolved: the
    tree's own hash for the empty path, the entry's hash when the tree has
    the entry, nothing otherwise. *)
Definition fileHash (t : Tree) (path : string) : option Hash :=
  if decide (path = "") then Some (tree_Hash t)
  else entry_Hash <$> tree_Entries t !! path.

Definition fileHashes_agree (r r' : result (gmap string Hash)) : Prop :=
  match r, r' with
  | Ok m, Ok m' => hashes_agree m m'
  | Err e, Err e' => e = e'
  | Panic, Panic => True
  | _, _ => False
  end.

Definition scan_agree (r r' : result Scan) : Prop :=
  match r, r' with
  | Ok sc, Ok sc' =>
      Forall2 hashes_agree (parentHashes sc) (parentHashes sc') /\
      numOfParentsWithPath sc = numOfParentsWithPath sc' /\
      pathChanged sc = pathChanged sc' /\
      scanErr sc = scanErr sc'
  | Panic, Panic => True
  | _, _ => False
  end.

Definition entry_agree (e e' : commitAndPaths) : Prop :=
  commit e = commit e' /\ paths e = paths e' /\ hashes_agree (hashes e) (hashes e').

Definition processed_agree (r r' : Processed) : Prop :=
  match r, r' with
  | Crashed, Crashed => True
  | Emitted resultNodes pushes err, Emitted resultNodes' pushes' err' =>
      resultNodes = resultNodes' /\ Forall2 entry_agree pushes pushes' /\ err = err'
  | _, _ => False
  end.

End lastcommit.

(** ** Small repositories to run the model on *)

Module examples.
Import object lastcommit.

Definition file (name : string) (h : Hash) : string * TreeEntry :=
  (name, mkTreeEntry name h).

(** The frontier of the runs below is the list heap; in all of them it holds
    at most one entry whenever two entries could tie. *)
Definition frontier : HeapOps commitAndPaths := listHeap byCommitTime.

(** A linear history: [C1] (time 10, root) creates [a.txt], [C2] (time 20)
    leaves it alone, [C3] (time 30) changes it. *)
Definition T1 : Tree := mkTree 101%N (list_to_map [file "a.txt" 11%N]).
Definition T3 : Tree := mkTree 103%N (list_to_map [file "a.txt" 12%N]).
Definition C1 : Commit := mkCommit 1%N 101%N [] 10.
Definition C2 : Commit := mkCommit 2%N 101%N [1%N] 20.
Definition C3 : Commit := mkCommit 3%N 103%N [2%N] 30.

Definition linear_store : gmap Hash Object :=
  list_to_map [(1%N, CommitObject C1); (2%N, CommitObject C2);
               (3%N, CommitObject C3);
               (101%N, TreeObject T1); (103%N, TreeObject T3)].

(** No commit-graph file: every parent is decoded from the store. *)
Definition linear_index : CommitNodeIndex :=
  NewGraphCommitNodeIndex commitgraph.NewMemoryIndex linear_store (fun _ => None).

(** The filters a commit-graph writer would attach: nothing differs between
    [C2] and [C1]; [a.txt] (and the root tree) differ between [C3] and [C2]. *)
Definition linear_bloom (c : CommitNode) : option BloomPathFilter :=
  if (ID c =? 2)%N then Some (mkBloomPathFilter (fun _ => false))
  else if (ID c =? 3)%N
       then Some (mkBloomPathFilter
                    (fun path => bool_decide (path = "a.txt") || bool_decide (path = "")))
       else None.

Definition linear_index_bloom : CommitNodeIndex :=
  NewGraphCommitNodeIndex commitgraph.NewMemoryIndex linear_store linear_bloom.

(** A child [B2] of the root whose own tree reads fine, while the tree of
    the root cannot be decoded. *)
Definition B2 : Commit := mkCommit 2%N 102%N [1%N] 20.

Definition broken_parent_store : gmap Hash Object :=
  list_to_map [(1%N, CommitObject C1); (2%N, CommitObject B2);
               (101%N, Unreadable); (102%N, TreeObject T1)].

Definition broken_parent_index : CommitNodeIndex :=
  NewGraphCommitNodeIndex commitgraph.NewMemoryIndex broken_parent_store (fun _ => None).

(** A child whose committer clock ran behind its parent's. *)
Definition Late : Commit := mkCommit 1%N 101%N [] 20.
Definition Early : Commit := mkCommit 2%N 101%N [1%N] 10.

Definition skewed_store : gmap Hash Object :=
  list_to_map [(1%N, CommitObject Late); (2%N, CommitObject Early);
               (101%N, TreeObject T1)].

Definition skewed_index : CommitNodeIndex :=
  NewGraphCommitNodeIndex commitgraph.NewMemoryIndex skewed_store (fun _ => None).

(** A merge: [M] (time 40) merges [P1] (time 20) and [P2] (time 30), both
    children of the root [R] (time 10); [f] differs between [M] and [P1] and
    is the same in [M] and [P2]. *)
Definition TR : Tree := mkTree 201%N (list_to_map [file "f" 21%N]).
Definition TP1 : Tree := mkTree 202%N (list_to_map [file "f" 22%N]).
Definition TP2 : Tree := mkTree 203%N (list_to_map [file "f" 23%N]).
Definition R : Commit := mkCommit 1%N 201%N [] 10.
Definition P1 : Commit := mkCommit 2%N 202%N [1%N] 20.
Definition P2 : Commit := mkCommit 3%N 203%N [1%N] 30.
Definition M : Commit := mkCommit 4%N 203%N [2%N; 3%N] 40.

Definition merge_store : gmap Hash Object :=
  list_to_map [(1%N, CommitObject R); (2%N, CommitObject P1);
               (3%N, CommitObject P2); (4%N, CommitObject M);
               (201%N, TreeObject TR); (202%N, TreeObject TP1);
               (203%N, TreeObject TP2)].

Definition merge_index : CommitNodeIndex :=
  NewGraphCommitNodeIndex commitgraph.NewMemoryIndex merge_store (fun _ => None).

(** A commit-graph index that knows [C1] only, over the linear history. *)
Definition partial_graph : commitgraph.MemoryIndex :=
  commitgraph.mkMemoryIndex [commitgraph.mkNode 101%N [] [] 10] {[ 1%N := 0 ]}.

Definition partial_gci : graphCommitNodeIndex :=
  mkGraphCommitNodeIndex partial_graph linear_store.

(** A merge of the known [C1] and of a commit only the store has. *)
Definition Mixed : Commit := mkCommit 9%N 103%N [1%N; 3%N] 50.

(** [T1] with one more entry, whose hash is the zero hash. *)
Definition T1z : Tree :=
  mkTree 101%N (list_to_map [file "a.txt" 11%N; file "ghost" 0%N]).

Definition ghost_store : gmap Hash Object :=
  list_to_map [(1%N, CommitObject C1); (2%N, CommitObject C2);
               (3%N, CommitObject C3);
               (101%N, TreeObject T1z); (103%N, TreeObject T3)].

End examples.

(** ** Shapes of an index *)

Module memindex.
Import commitgraph.

(** The positions a node keeps for its parents are as many as its parent
    hashes and all lie before the node's own position. *)
Definition topological (mi : MemoryIndex) : Prop :=
  forall k n, commitData mi !! k = Some n ->
    length (ParentIndexes n) = length (ParentHashes n) /\
    Forall (fun p => 0 <= p < Z.of_nat k) (ParentIndexes n).

(** Every stored node keeps, for each parent hash, the position the index
    gives for that hash. *)
Definition mirrored (mi : MemoryIndex) : Prop :=
  forall k n i h, commitData mi !! k = Some n -> ParentHashes n !! i = Some h ->
    exists p, ParentIndexes n !! i = Some p /\ GetIndexByHash mi h = Ok p.

(** Every hash of the index leads to a stored node that came from one of the
    listed [Add] calls for that hash. *)
Definition resolves (mi : MemoryIndex) (adds : list (Hash * Node)) : Prop :=
  forall h p, indexMap mi !! h = Some p ->
    0 <= p /\
    exists node parentIndexes,
      (h, node) ∈ adds /\
      commitData mi !! Z.to_nat p = Some (withParentIndexes node parentIndexes).

End memindex.

(** ** The iterator over the parents of a node *)

Module parentiter.
Import object.

(** The errors an iteration deals in: [io.EOF], [storer.ErrStop], and the
    errors of the walker. *)
Inductive iterError : Type :=
  | EOF
  | ErrStop
  | Failure (e : error).

(** [parentCommitNodeIter] *)
Record parentCommitNodeIter : Type := mkParentCommitNodeIter {
  gci : CommitNodeIndex;
  node : CommitNode;
  i : Z
}.

Definition newParentgraphCommitNodeIter (gci : CommitNodeIndex) (node : CommitNode)
  : parentCommitNodeIter :=
  {| gci := gci; node := node; i := 0 |}.

(** What [Next] returns, next to the iterator it leaves behind. *)
Inductive Yielded : Type :=
  | Obj (obj : CommitNode)
  | NextErr (e : iterError)
  | NextPanic.

Definition Next (iter : parentCommitNodeIter) : Yielded * parentCommitNodeIter :=
  match ParentNode (gci iter) (node iter) (i iter) with
  | Err ErrParentNotFound => (NextErr EOF, iter)
  | Ok obj => (Obj obj, {| gci := gci iter; node := node iter; i := i iter + 1 |})
  | Err e => (NextErr (Failure e), iter)
  | Panic => (NextPanic, iter)
  end.

(** How [ForEach] ends: it returns an error value ([None] for nil) or it
    panics inside the walker. *)
Inductive Ended : Type :=
  | Returned (err : option iterError)
  | Panicked.

(** [ForEach], cut off after [fuel] rounds ([None]).  The callback is a
    closure: it is given as a function on the state it closes over. *)
Fixpoint ForEach {S : Type} (fuel : nat) (cb : S -> CommitNode -> S * option iterError)
  (st : S) (iter : parentCommitNodeIter)
  : option (S * parentCommitNodeIter * Ended) :=
  match fuel with
  | O => None
  | Datatypes.S fuel' =>
      match Next iter with
      | (NextErr EOF, iter') => Some (st, iter', Returned None)
      | (NextErr e, iter') => Some (st, iter', Returned (Some e))
      | (NextPanic, iter') => Some (st, iter', Panicked)
      | (Obj obj, iter') =>
          match cb st obj with
          | (st', Some ErrStop) => Some (st', iter', Returned None)
          | (st', Some e) => Some (st', iter', Returned (Some e))
          | (st', None) => ForEach fuel' cb st' iter'
          end
      end
  end.

(** The callback run over a list of nodes, up to its first error: the state
    it ends in, how many nodes it was given, and its error if it gave one. *)
Fixpoint feed {S : Type} (cb : S -> CommitNode -> S * option iterError) (st : S)
  (objs : list CommitNode) : S * nat * option iterError :=
  match objs with
  | [] => (st, O, None)
  | obj :: rest =>
      match cb st obj with
      | (st', Some e) => (st', 1%nat, Some e)
      | (st', None) =>
          let '(st'', n, e) := feed cb st' rest in (st'', Datatypes.S n, e)
      end
  end.

(** The value [ForEach] returns for a callback error. *)
Definition afterCallback (e : iterError) : option iterError :=
  match e with
  | ErrStop => None
  | _ => Some e
  end.

(** How [ForEach] ends when the walker answers [r] and [r] is no parent. *)
Definition atEnd (r : result CommitNode) : Ended :=
  match r with
  | Err ErrParentNotFound => Returned None
  | Err e => Returned (Some (Failure e))
  | Panic => Panicked
  | Ok _ => Returned None
  end.

End parentiter.

(** ** Invariants of the search *)

Module searchinv.
Import object lastcommit.

(** Every frontier entry is for a commit reachable from the start and holds
    requested paths only; so does every answer. *)
Definition well_scoped {H : HeapOps commitAndPaths} (index : CommitNodeIndex)
  (c0 : CommitNode) (paths0 : list string) (st : State) : Prop :=
  Forall (fun e => ancestor index c0 (commit e) /\
                   forall path, path ∈ paths e -> path ∈ paths0) (Values (heap st)) /\
  forall path c, resultNodes st !! path = Some c ->
    path ∈ paths0 /\ ancestor index c0 c.

End searchinv.

(** ** What an answer of the search says about the history *)

Module answers.
Import object lastcommit.

(** A frontier entry whose recorded hashes are those of its own commit. *)
Definition tracked (s : EncodedObjectStorer) (treePath : string)
  (e : commitAndPaths) : Prop :=
  forall path, path ∈ paths e ->
    lookup0 (hashes e) path = contentAt s treePath (commit e) path.

(** Those of the given commits in which [path] exists. *)
Definition having (s : EncodedObjectStorer) (treePath path : string)
  (parents : list CommitNode) : list CommitNode :=
  List.filter (fun p => negb (contentAt s treePath p path =? ZeroHash)%N) parents.

(** Commit [a] introduced or changed [path]: among the parents the search
    loads for [a], either none has the path, or exactly one has it and its
    content there is not the content in [a]. *)
Definition touches (index : CommitNodeIndex) (s : EncodedObjectStorer)
  (treePath : string) (a : CommitNode) (path : string) : Prop :=
  exists parents,
    loadParents index a 0 (Z.to_nat (NumParents index a)) = Ok parents /\
    (having s treePath path parents = [] \/
     exists p, having s treePath path parents = [p] /\
       contentAt s treePath p path <> contentAt s treePath a path).

(** Every frontier entry is for a reachable commit and tracks it; every
    answer so far is a reachable commit that touches its path. *)
Definition justified {H : HeapOps commitAndPaths} (index : CommitNodeIndex)
  (s : EncodedObjectStorer) (treePath : string) (c0 : CommitNode)
  (st : State) : Prop :=
  Forall (fun e => ancestor index c0 (commit e) /\ tracked s treePath e)
    (Values (heap st)) /\
  forall path c, resultNodes st !! path = Some c ->
    ancestor index c0 c /\ touches index s treePath c path.

(** A node as the walker over the commit graph [mi] hands it out: a decoded
    commit, or an index-backed node whose position holds its node. *)
Definition backed (mi : commitgraph.MemoryIndex) (c : CommitNode) : Prop :=
  match c with
  | FullCommit _ => True
  | GraphNode cgn =>
      0 <= index cgn /\
      commitgraph.commitData mi !! Z.to_nat (index cgn) = Some (node cgn)
  end.

End answers.

(** ** A shallow repository *)

Module shallow.
Import object lastcommit.

(** The only commit at hand names a parent the store does not have, and
    carries a filter that answers "unchanged" for every path. *)
Definition Tip : Commit := mkCommit 5%N 101%N [6%N] 10.

Definition store : gmap Hash Object :=
  list_to_map [(5%N, CommitObject Tip); (101%N, TreeObject examples.T1)].

Definition index : CommitNodeIndex :=
  NewGraphCommitNodeIndex commitgraph.NewMemoryIndex store
    (fun _ => Some (mkBloomPathFilter (fun _ => false))).

End shallow.

(** ** Histories without merges *)

Module coverage.
Import object lastcommit.

(** The state of a search on a history without merges, where [gen] numbers
    the commit hashes so that parents come before children: the frontier
    holds at most one entry, its commit is reachable and is older than
    every commit seen, and every requested path is either answered or
    still carried by the frontier entry. *)
Definition covered {H : HeapOps commitAndPaths} (index : CommitNodeIndex)
  (c0 : CommitNode) (gen : Hash -> nat) (paths0 : list string)
  (st : State) : Prop :=
  (length (Values (heap st)) <= 1)%nat /\
  (forall e, e ∈ Values (heap st) ->
     ancestor index c0 (commit e) /\
     forall h, h ∈ seen st -> (gen (ID (commit e)) < gen h)%nat) /\
  forall path, path ∈ paths0 ->
    is_Some (resultNodes st !! path) \/
    exists e, e ∈ Values (heap st) /\ path ∈ paths e.

End coverage.

(** ** The commit-graph writer: which names go into a path filter *)

Module graphwriter.
Import object.

(** The first loop of [createBloomFilter]: [aHashes[name] = entry.Hash] for
    every pair the walker over tree [a] yields before its first error. *)
Definition collectHashes (walk : list (string * TreeEntry)) : gmap string Hash :=
  foldl (fun aHashes item => <[item.1 := entry_Hash item.2]> aHashes) ∅ walk.

(** The body of the second loop, on the pair of [aHashes] and the names
    passed to [bloomFilter.Add] so far. *)
Definition compareEntry (st : gmap string Hash * list string)
  (item : string * TreeEntry) : gmap string Hash * list string :=
  let '(aHashes, added) := st in
  (delete item.1 aHashes,
   if (lookup0 aHashes item.1 =? entry_Hash item.2)%N
   then added
   else
     (* File from 'b' didn't exist in 'a', or it has different hash than in 'a' *)
     added ++ [item.1]).

(** [createBloomFilter], over what the two tree walkers yield before their
    first error; the result is the sequence of names passed to
    [bloomFilter.Add].  The last loop ranges over a Go map, here in the
    order of [map_to_list]. *)
Definition createBloomFilter (aWalk bWalk : list (string * TreeEntry))
  : list string :=
  let '(aHashes, added) := foldl compareEntry (collectHashes aWalk, []) bWalk in
  (* File from 'a' is removed in 'b' *)
  added ++ (map_to_list aHashes).*1.

End graphwriter.

(** * Properties *)

(** ** The in-memory index *)

Section MemoryIndexFacts.
Import commitgraph.

Lemma index_slice_Ok {A : Type} (l : list A) (i : Z) (a : A) :
  index_slice l i = Ok a <-> 0 <= i /\ l !! Z.to_nat i = Some a.
Proof.
  unfold index_slice. destruct (Z.ltb_spec i 0).
  - split; [discriminate | lia].
  - destruct (l !! Z.to_nat i) eqn:E; split.
    + intros [= ->]. auto.
    + intros [_ [= ->]]. reflexivity.
    + discriminate.
    + intros [_ [=]].
Qed.

Lemma index_slice_in_range {A : Type} (l : list A) (i : Z) :
  0 <= i < len l -> exists a, index_slice l i = Ok a /\ l !! Z.to_nat i = Some a.
Proof.
  intros Hi. unfold len in Hi.
  destruct (lookup_lt_is_Some_2 l (Z.to_nat i)) as [a Ha]; [lia |].
  exists a. split; [| exact Ha]. apply index_slice_Ok. split; [lia | exact Ha].
Qed.

Lemma GetIndexByHash_Ok (mi : MemoryIndex) (h : Hash) (p : Z) :
  GetIndexByHash mi h = Ok p <-> indexMap mi !! h = Some p.
Proof.
  unfold GetIndexByHash. destruct (indexMap mi !! h); split; congruence.
Qed.

Lemma GetIndexByHash_miss (mi : MemoryIndex) (h : Hash) :
  indexMap mi !! h = None -> GetIndexByHash mi h = Err ErrObjectNotFound.
Proof. unfold GetIndexByHash. intros ->. reflexivity. Qed.

(** In range the stored node comes back, at or beyond the end the answer
    is NotFound, and below zero the slice access panics. *)
Lemma GetNodeByIndex_cases (mi : MemoryIndex) (i : Z) :
  (0 <= i < len (commitData mi) ->
     exists n, commitData mi !! Z.to_nat i = Some n /\ GetNodeByIndex mi i = Ok n) /\
  (len (commitData mi) <= i -> GetNodeByIndex mi i = Err ErrObjectNotFound) /\
  (i < 0 -> GetNodeByIndex mi i = Panic).
Proof.
  unfold GetNodeByIndex. repeat split.
  - intros Hi. destruct (Z.geb_spec i (len (commitData mi))); [lia |].
    destruct (index_slice_in_range (commitData mi) i Hi) as (n & Hn & Hl). eauto.
  - intros Hi. destruct (Z.geb_spec i (len (commitData mi))); [reflexivity | lia].
  - intros Hi. assert (0 <= len (commitData mi)) by (unfold len; lia).
    destruct (Z.geb_spec i (len (commitData mi))); [lia |].
    unfold index_slice. destruct (Z.ltb_spec i 0); [reflexivity | lia].
Qed.

Lemma resolveParents_Ok (mi : MemoryIndex) (hs : list Hash) (ps : list Z) :
  resolveParents mi hs = Ok ps <->
  Forall2 (fun h p => indexMap mi !! h = Some p) hs ps.
Proof.
  revert ps. induction hs as [| h hs IH]; intros ps; simpl.
  - split.
    + intros [= <-]. constructor.
    + intros Hf. inversion Hf. reflexivity.
  - unfold GetIndexByHash. destruct (indexMap mi !! h) as [p |] eqn:Eh; simpl.
    + destruct (resolveParents mi hs) as [ps' | e |] eqn:Er; simpl.
      * split.
        -- intros [= <-]. constructor; [exact Eh | by apply IH].
        -- intros Hf. inversion Hf as [| ? p0 ? ps0 Hh Hrest]; subst.
           apply IH in Hrest. congruence.
      * split; [discriminate |].
        intros Hf. inversion Hf as [| ? p0 ? ps0 Hh Hrest]; subst.
        apply IH in Hrest. discriminate.
      * split; [discriminate |].
        intros Hf. inversion Hf as [| ? p0 ? ps0 Hh Hrest]; subst.
        apply IH in Hrest. discriminate.
    + split; [discriminate |].
      intros Hf. inversion Hf; subst. congruence.
Qed.

Lemma resolveParents_total (mi : MemoryIndex) (hs : list Hash) :
  (exists ps, resolveParents mi hs = Ok ps) \/
  resolveParents mi hs = Err ErrObjectNotFound.
Proof.
  induction hs as [| h hs IH]; simpl; [eauto |].
  unfold GetIndexByHash. destruct (indexMap mi !! h); simpl; [| by right].
  destruct IH as [[ps ->] | ->]; simpl; eauto.
Qed.

Lemma resolveParents_missing (mi : MemoryIndex) (hs : list Hash) (h : Hash) :
  h ∈ hs -> indexMap mi !! h = None ->
  resolveParents mi hs = Err ErrObjectNotFound.
Proof.
  intros Hin Hnone.
  destruct (resolveParents_total mi hs) as [[ps Hps] | Herr]; [| exact Herr].
  apply resolveParents_Ok in Hps.
  apply list_elem_of_lookup in Hin as [i Hi].
  destruct (Forall2_lookup_l _ _ _ _ _ Hps Hi) as (p & _ & Hp). congruence.
Qed.

Lemma resolveParents_present (mi : MemoryIndex) (hs : list Hash) :
  (forall h, h ∈ hs -> is_Some (indexMap mi !! h)) ->
  exists ps, resolveParents mi hs = Ok ps.
Proof.
  induction hs as [| h hs IH]; intros Hall; simpl; [eauto |].
  destruct (Hall h) as [p Hp]; [left |].
  unfold GetIndexByHash. rewrite Hp. simpl.
  destruct IH as [ps ->]; [| simpl; eauto].
  intros h' Hh'. apply Hall. by right.
Qed.

Lemma Add_Ok (mi mi' : MemoryIndex) (hash : Hash) (node node' : Node) :
  Add mi hash node = Ok (mi', node') ->
  exists ps,
    resolveParents mi (ParentHashes node) = Ok ps /\
    node' = withParentIndexes node ps /\
    commitData mi' = commitData mi ++ [node'] /\
    indexMap mi' = <[hash := len (commitData mi)]> (indexMap mi).
Proof.
  unfold Add. destruct (resolveParents mi (ParentHashes node)) as [ps | |];
    simpl; [| discriminate | discriminate].
  intros [= <- <-]. exists ps. auto.
Qed.

Lemma Add_other_hash (mi mi' : MemoryIndex) (hash h : Hash) (node node' : Node) :
  Add mi hash node = Ok (mi', node') -> h <> hash ->
  GetIndexByHash mi' h = GetIndexByHash mi h.
Proof.
  intros HA Hne. apply Add_Ok in HA as (ps & _ & _ & _ & Hmap).
  unfold GetIndexByHash. rewrite Hmap, lookup_insert_ne; [reflexivity | congruence].
Qed.

Lemma positions_valid_New : positions_valid NewMemoryIndex.
Proof. intros h i. simpl. rewrite lookup_empty. discriminate. Qed.

Lemma positions_valid_Add (mi mi' : MemoryIndex) (hash : Hash) (node node' : Node) :
  positions_valid mi -> Add mi hash node = Ok (mi', node') -> positions_valid mi'.
Proof.
  intros Hv HA. apply Add_Ok in HA as (ps & _ & _ & Hdata & Hmap).
  intros h i. rewrite Hmap, Hdata. unfold len. rewrite length_app. simpl.
  destruct (decide (hash = h)) as [-> | Hne].
  - rewrite lookup_insert_eq. intros [= <-]. unfold len. lia.
  - rewrite lookup_insert_ne by exact Hne. intros Hi.
    apply Hv in Hi. unfold len in Hi. lia.
Qed.

Lemma positions_valid_AddAll (mi mi' : MemoryIndex) (adds : list (Hash * Node)) :
  positions_valid mi -> AddAll mi adds = Ok mi' -> positions_valid mi'.
Proof.
  revert mi. induction adds as [| [hash node] adds IH]; intros mi Hv; simpl.
  - intros [= <-]. exact Hv.
  - destruct (Add mi hash node) as [[mi1 node1] | |] eqn:E; simpl;
      [| discriminate | discriminate].
    apply IH. eapply positions_valid_Add; eauto.
Qed.

End MemoryIndexFacts.

(** When the added hash is not one of the node's own parent hashes, the
    stored positions are also the ones [GetIndexByHash] finds afterwards. *)
Lemma Add_parent_positions_after (mi mi' : commitgraph.MemoryIndex) (hash : Hash)
  (node node' : commitgraph.Node) :
  commitgraph.Add mi hash node = Ok (mi', node') ->
  hash ∉ commitgraph.ParentHashes node ->
  forall i h, commitgraph.ParentHashes node !! i = Some h ->
    exists p, commitgraph.ParentIndexes node' !! i = Some p /\
              commitgraph.GetIndexByHash mi' h = Ok p.
Proof.
  intros HA Hnot i h Hi.
  pose proof (Add_Ok _ _ _ _ _ HA) as (ps & Hps & -> & _ & _).
  apply resolveParents_Ok in Hps.
  destruct (Forall2_lookup_l _ _ _ _ _ Hps Hi) as (p & Hp & Hmap).
  exists p. split; [exact Hp |].
  rewrite (Add_other_hash _ _ _ h _ _ HA).
  - by apply GetIndexByHash_Ok.
  - intros ->. apply Hnot. eapply list_elem_of_lookup_2, Hi.
Qed.

(** C6.  [Add] fails with NotFound as soon as one parent hash of the node is
    not in the index; when every parent hash is in the index [Add] succeeds,
    appends the node, and the parent positions it stores have the length of
    the parent hashes and give, slot by slot, the position [GetIndexByHash]
    finds for that parent hash in the index the node is added to, which is
    also the position it finds after the call unless the node names the added
    hash itself as a parent. *)
Theorem Add_topological_build (mi : commitgraph.MemoryIndex) (hash : Hash)
  (node : commitgraph.Node) :
  ((exists h, h ∈ commitgraph.ParentHashes node /\
              commitgraph.GetIndexByHash mi h = Err ErrObjectNotFound) ->
   commitgraph.Add mi hash node = Err ErrObjectNotFound) /\
  ((forall h, h ∈ commitgraph.ParentHashes node ->
              exists p, commitgraph.GetIndexByHash mi h = Ok p) ->
   exists mi' node',
     commitgraph.Add mi hash node = Ok (mi', node') /\
     commitgraph.commitData mi' = commitgraph.commitData mi ++ [node'] /\
     commitgraph.GetIndexByHash mi' hash = Ok (len (commitgraph.commitData mi)) /\
     commitgraph.ParentHashes node' = commitgraph.ParentHashes node /\
     length (commitgraph.ParentIndexes node') = length (commitgraph.ParentHashes node) /\
     (forall i h, commitgraph.ParentHashes node !! i = Some h ->
        exists p, commitgraph.ParentIndexes node' !! i = Some p /\
                  commitgraph.GetIndexByHash mi h = Ok p) /\
     (hash ∉ commitgraph.ParentHashes node ->
      forall i h, commitgraph.ParentHashes node !! i = Some h ->
        exists p, commitgraph.ParentIndexes node' !! i = Some p /\
                  commitgraph.GetIndexByHash mi' h = Ok p)).
Proof.
  split.
  - intros (h & Hin & Hmiss). unfold commitgraph.Add.
    rewrite (resolveParents_missing mi _ h Hin); [reflexivity |].
    unfold commitgraph.GetIndexByHash in Hmiss.
    destruct (commitgraph.indexMap mi !! h); [discriminate | reflexivity].
  - intros Hall.
    destruct (resolveParents_present mi (commitgraph.ParentHashes node)) as [ps Hps].
    { intros h Hh. destruct (Hall h Hh) as [p Hp].
      apply GetIndexByHash_Ok in Hp. eauto. }
    assert (HA : commitgraph.Add mi hash node =
                 Ok ({| commitgraph.commitData :=
                          commitgraph.commitData mi
                            ++ [commitgraph.withParentIndexes node ps];
                        commitgraph.indexMap :=
                          <[hash := len (commitgraph.commitData mi)]>
                            (commitgraph.indexMap mi) |},
                     commitgraph.withParentIndexes node ps)).
    { unfold commitgraph.Add. rewrite Hps. reflexivity. }
    eexists _, _. split; [exact HA |]. simpl.
    pose proof Hps as Hall2. apply resolveParents_Ok in Hall2.
    split; [reflexivity |]. split.
    { unfold commitgraph.GetIndexByHash. simpl. by rewrite lookup_insert_eq. }
    split; [reflexivity |]. split.
    { symmetry. eapply Forall2_length, Hall2. }
    split.
    + intros i h Hi.
      destruct (Forall2_lookup_l _ _ _ _ _ Hall2 Hi) as (p & Hp & Hmap).
      exists p. split; [exact Hp | by apply GetIndexByHash_Ok].
    + intros Hnot. apply (Add_parent_positions_after _ _ _ _ _ HA Hnot).
Qed.

Lemma Add_topological_build_witness :
  let leaf := commitgraph.mkNode 100%N [] [] 10 in
  let child := commitgraph.mkNode 101%N [1%N] [] 20 in
  let mi1 := commitgraph.mkMemoryIndex [leaf] {[ 1%N := 0 ]} in
  commitgraph.Add commitgraph.NewMemoryIndex 2%N child = Err ErrObjectNotFound /\
  exists mi2 child',
    commitgraph.Add mi1 2%N child = Ok (mi2, child') /\
    commitgraph.ParentIndexes child' !! 0%nat = Some 0.
Proof.
  intros leaf child mi1. split.
  - apply (proj1 (Add_topological_build commitgraph.NewMemoryIndex 2%N child)).
    exists 1%N. split; [apply list_elem_of_In; simpl; auto | reflexivity].
  - destruct (proj2 (Add_topological_build mi1 2%N child))
      as (mi2 & child' & HA & _ & _ & _ & _ & Hpos & _).
    + intros h Hh. apply list_elem_of_In in Hh. simpl in Hh.
      destruct Hh as [<- | []]. exists 0. reflexivity.
    + exists mi2, child'. split; [exact HA |].
      destruct (Hpos 0%nat 1%N eq_refl) as (p & Hp & Hq).
      rewrite Hp. f_equal. vm_compute in Hq. congruence.
Defined.

(** The claim of C7 as it is worded fails: [Add] does not look whether the
    hash is in the index already, so adding a hash a second time succeeds and
    moves the hash to the new position. *)
Lemma Add_twice_moves_position :
  let leaf := commitgraph.mkNode 100%N [] [] 10 in
  exists mi1 mi2,
    commitgraph.AddAll commitgraph.NewMemoryIndex [(7%N, leaf)] = Ok mi1 /\
    commitgraph.GetIndexByHash mi1 7%N = Ok 0 /\
    commitgraph.AddAll mi1 [(7%N, leaf)] = Ok mi2 /\
    commitgraph.GetIndexByHash mi2 7%N = Ok 1 /\
    commitgraph.GetIndexByHash mi2 7%N <> commitgraph.GetIndexByHash mi1 7%N.
Proof.
  intros leaf. eexists _, _.
  split; [reflexivity |]. split; [reflexivity |]. split; [reflexivity |].
  split; [reflexivity |]. vm_compute. discriminate.
Qed.

(** C7, amended.  Over any sequence of successful [Add] calls that does not
    add the hash [h] again, the position [GetIndexByHash] gives for [h] stays
    the one it had. *)
Theorem position_stable_without_readd (mi mi' : commitgraph.MemoryIndex)
  (adds : list (Hash * commitgraph.Node)) (h : Hash) (p : Z) :
  commitgraph.AddAll mi adds = Ok mi' ->
  commitgraph.GetIndexByHash mi h = Ok p ->
  h ∉ adds.*1 ->
  commitgraph.GetIndexByHash mi' h = Ok p.
Proof.
  revert mi. induction adds as [| [hash node] adds IH]; intros mi HA Hp Hnot;
    simpl in HA.
  - congruence.
  - destruct (commitgraph.Add mi hash node) as [[mi1 node1] | |] eqn:E;
      simpl in HA; [| discriminate | discriminate].
    apply (IH mi1 HA).
    + rewrite (Add_other_hash _ _ _ h _ _ E); [exact Hp |].
      intros ->. apply Hnot. simpl. left.
    + intros Hin. apply Hnot. simpl. by right.
Qed.

Lemma position_stable_without_readd_witness :
  let leaf := commitgraph.mkNode 100%N [] [] 10 in
  let child := commitgraph.mkNode 101%N [1%N] [] 20 in
  let mi1 := commitgraph.mkMemoryIndex [leaf] {[ 1%N := 0 ]} in
  exists mi',
    commitgraph.AddAll mi1 [(2%N, child); (3%N, leaf)] = Ok mi' /\
    commitgraph.GetIndexByHash mi' 1%N = Ok 0.
Proof.
  intros leaf child mi1. eexists. split; [reflexivity |].
  apply (position_stable_without_readd mi1 _ [(2%N, child); (3%N, leaf)] 1%N 0).
  - reflexivity.
  - reflexivity.
  - intros Hin. apply list_elem_of_In in Hin. simpl in Hin.
    destruct Hin as [[=] | [[=] | []]].
Defined.

(** C9.  The range check of [GetNodeByIndex] only looks at the upper end: a
    negative position passes it and the slice access panics. *)
Theorem GetNodeByIndex_negative_panics (mi : commitgraph.MemoryIndex) :
  commitgraph.GetNodeByIndex mi (-1) = Panic.
Proof. apply (GetNodeByIndex_cases mi (-1)). lia. Qed.

(** ** The graph-backed walker *)

(** C8.  For a decoded commit and a parent position in range,
    [ParentNode] probes the graph index with the parent hash.  On a hit whose
    position holds a node it returns the index-backed node made of that hash,
    position and node, and in an index whose positions are valid every hit is
    of that kind.  On a miss it returns what the object store returns for the
    parent hash: the decoded commit, or the store's error, which is never the
    "parent not found" condition. *)
Theorem ParentNode_decoded_commit (gci : object.graphCommitNodeIndex)
  (co : object.Commit) (i : Z) (parentHash : Hash) :
  0 <= i ->
  object.commit_ParentHashes co !! Z.to_nat i = Some parentHash ->
  (forall parentIndex parent,
     commitgraph.GetIndexByHash (object.commitGraph gci) parentHash = Ok parentIndex ->
     commitgraph.GetNodeByIndex (object.commitGraph gci) parentIndex = Ok parent ->
     object.graph_ParentNode gci (object.FullCommit co) i =
       Ok (object.GraphNode (object.mkGraphCommitNode parentHash parentIndex parent))) /\
  (forall parentIndex,
     commitgraph.positions_valid (object.commitGraph gci) ->
     commitgraph.GetIndexByHash (object.commitGraph gci) parentHash = Ok parentIndex ->
     exists parent,
       object.graph_ParentNode gci (object.FullCommit co) i =
         Ok (object.GraphNode (object.mkGraphCommitNode parentHash parentIndex parent))) /\
  (forall e,
     commitgraph.GetIndexByHash (object.commitGraph gci) parentHash = Err e ->
     object.graph_ParentNode gci (object.FullCommit co) i <> Err ErrParentNotFound /\
     match object.GetCommit (object.s gci) parentHash with
     | Ok parent => object.graph_ParentNode gci (object.FullCommit co) i =
                      Ok (object.FullCommit parent)
     | Err e' => object.graph_ParentNode gci (object.FullCommit co) i = Err e'
     | Panic => False
     end).
Proof.
  intros Hi Hh.
  assert (Hlen : (Z.to_nat i < length (object.commit_ParentHashes co))%nat)
    by (eapply lookup_lt_Some, Hh).
  assert (Hguard : (len (object.commit_ParentHashes co) =? 0)
                   || (i >=? len (object.commit_ParentHashes co)) = false).
  { unfold len. apply orb_false_iff. split.
    - apply Z.eqb_neq. lia.
    - destruct (Z.geb_spec i (Z.of_nat (length (object.commit_ParentHashes co))));
        [lia | reflexivity]. }
  assert (Hslice : index_slice (object.commit_ParentHashes co) i = Ok parentHash)
    by (apply index_slice_Ok; auto).
  unfold object.graph_ParentNode. rewrite Hguard, Hslice. simpl.
  split; [| split].
  - intros parentIndex parent -> ->. reflexivity.
  - intros parentIndex Hv Hhit. rewrite Hhit.
    apply GetIndexByHash_Ok in Hhit. apply Hv in Hhit.
    destruct (proj1 (GetNodeByIndex_cases (object.commitGraph gci) parentIndex) Hhit)
      as (parent & _ & ->).
    exists parent. reflexivity.
  - intros e Hmiss. rewrite Hmiss. unfold object.GetCommit.
    destruct (object.s gci !! parentHash) as [[c | t |] |]; simpl;
      (split; [discriminate | reflexivity]).
Qed.

Lemma ParentNode_decoded_commit_witness :
  object.graph_ParentNode examples.partial_gci (object.FullCommit examples.Mixed) 0
    = Ok (object.GraphNode
            (object.mkGraphCommitNode 1%N 0 (commitgraph.mkNode 101%N [] [] 10))) /\
  object.graph_ParentNode examples.partial_gci (object.FullCommit examples.Mixed) 1
    = Ok (object.FullCommit examples.C3).
Proof.
  split.
  - apply (proj1 (ParentNode_decoded_commit examples.partial_gci examples.Mixed
                    0 1%N ltac:(lia) eq_refl)); reflexivity.
  - destruct (proj2 (proj2 (ParentNode_decoded_commit examples.partial_gci
                              examples.Mixed 1 3%N ltac:(lia) eq_refl))
                ErrObjectNotFound eq_refl) as [_ Hmiss].
    assert (Hg : object.GetCommit (object.s examples.partial_gci) 3%N = Ok examples.C3)
      by (vm_compute; reflexivity).
    rewrite Hg in Hmiss. exact Hmiss.
Defined.

(** ** The frontier *)

Section ListHeap.
Context {A : Type} (cmp : A -> A -> Z).
Hypothesis cmp_total : forall x y, cmp x y <= 0 \/ cmp y x <= 0.
Hypothesis cmp_trans : forall x y z, cmp x y <= 0 -> cmp y z <= 0 -> cmp x z <= 0.

Lemma popList_None (l : list A) : popList cmp l = None <-> l = [].
Proof.
  destruct l as [| x l]; simpl; [tauto |].
  destruct (popList cmp l) as [[m r] |]; [| split; discriminate].
  destruct (cmp x m <=? 0); split; discriminate.
Qed.

Lemma popList_Some (l : list A) (x : A) (r : list A) :
  popList cmp l = Some (x, r) ->
  l ≡ₚ x :: r /\ Forall (fun y => cmp x y <= 0) r.
Proof.
  revert x r. induction l as [| a l IH]; intros x r; simpl; [discriminate |].
  destruct (popList cmp l) as [[m r'] |] eqn:E.
  - destruct (IH m r' eq_refl) as [Hperm Hall].
    destruct (Z.leb_spec (cmp a m) 0) as [Hle | Hgt]; intros [= <- <-].
    + split; [reflexivity |].
      rewrite Hperm. constructor; [exact Hle |].
      eapply Forall_impl; [exact Hall |]. intros y Hy. simpl in Hy. eauto.
    + split.
      * rewrite Hperm. apply perm_swap.
      * constructor; [| exact Hall].
        destruct (cmp_total m a); [assumption | lia].
  - apply popList_None in E. subst l. intros [= <- <-].
    split; [reflexivity | constructor].
Qed.

Lemma listHeap_laws : HeapLaws cmp (listHeap cmp).
Proof.
  constructor; simpl.
  - reflexivity.
  - intros x h. rewrite (comm app). reflexivity.
  - apply popList_None.
  - apply popList_Some.
Qed.

End ListHeap.

Section Frontier.
Import object lastcommit.

Lemma byCommitTime_le (a b : commitAndPaths) :
  byCommitTime a b <= 0 <-> CommitTime (commit b) <= CommitTime (commit a).
Proof.
  unfold byCommitTime.
  destruct (Z.ltb_spec (CommitTime (commit a)) (CommitTime (commit b))); lia.
Qed.

Lemma frontier_laws : HeapLaws byCommitTime examples.frontier.
Proof.
  apply listHeap_laws.
  - intros x y. rewrite !byCommitTime_le. lia.
  - intros x y z. rewrite !byCommitTime_le. lia.
Qed.

Context {H : HeapOps commitAndPaths} {HL : HeapLaws byCommitTime H}.

Lemma Values_pushAll (h : Heap) (entries : list commitAndPaths) :
  Values (pushAll h entries) ≡ₚ Values h ++ entries.
Proof.
  revert h. induction entries as [| e entries IH]; intros h; simpl.
  - by rewrite app_nil_r.
  - rewrite IH, Values_Push. simpl. apply Permutation_middle.
Qed.

Lemma Pop_Some_inv (h h' : Heap) (x : commitAndPaths) :
  Pop h = Some (x, h') ->
  Values h ≡ₚ x :: Values h' /\
  Forall (fun y => CommitTime (commit y) <= CommitTime (commit x)) (Values h').
Proof.
  intros HP. destruct (Pop_first h x h' HP) as [Hperm Hall].
  split; [exact Hperm |].
  eapply Forall_impl; [exact Hall |]. intros y Hy. by apply byCommitTime_le.
Qed.

(** A frontier with a single entry hands out that entry and is empty then. *)
Lemma Pop_singleton (h : Heap) (e : commitAndPaths) :
  Values h = [e] -> exists h', Pop h = Some (e, h') /\ Values h' = [].
Proof.
  intros Hv. destruct (Pop h) as [[x h'] |] eqn:HP.
  - destruct (Pop_first h x h' HP) as [Hperm _].
    rewrite Hv in Hperm. apply Permutation_singleton_l in Hperm.
    injection Hperm as <- Hnil. exists h'. split; [reflexivity | by symmetry].
  - apply Pop_empty in HP. congruence.
Qed.

Lemma Pop_nil (h : Heap) : Values h = [] -> Pop h = None.
Proof. apply Pop_empty. Qed.

Lemma Values_singleton_perm (h : Heap) (e : commitAndPaths) :
  Values h ≡ₚ [e] -> Values h = [e].
Proof. intros Hp. symmetry in Hp. by apply Permutation_singleton_l in Hp. Qed.

Lemma Values_nil_perm (h : Heap) : Values h ≡ₚ [] -> Values h = [].
Proof. apply Permutation_nil_r. Qed.

End Frontier.

(** ** One iteration of the search *)

Section Iteration.
Import object lastcommit.

Lemma loadParents_length (index : CommitNodeIndex) (c : CommitNode) (i : Z)
  (todo : nat) (ps : list CommitNode) :
  loadParents index c i todo = Ok ps -> (length ps <= todo)%nat.
Proof.
  revert i ps. induction todo as [| todo IH]; intros i ps; simpl.
  - intros [= <-]. simpl. lia.
  - destruct (ParentNode index c i) as [p | e |]; [| intros [= <-]; simpl; lia | discriminate].
    destruct (loadParents index c (i + 1) todo) as [rest | |] eqn:E; simpl;
      [| discriminate | discriminate].
    intros [= <-]. simpl. apply IH in E. lia.
Qed.

Lemma loadParents_parent (index : CommitNodeIndex) (c : CommitNode) (i : Z)
  (todo : nat) (ps : list CommitNode) (p : CommitNode) :
  loadParents index c i todo = Ok ps -> p ∈ ps ->
  exists j, ParentNode index c j = Ok p.
Proof.
  revert i ps. induction todo as [| todo IH]; intros i ps; simpl.
  - intros [= <-] Hin. inversion Hin.
  - destruct (ParentNode index c i) as [q | e |] eqn:Eq;
      [| intros [= <-] Hin; inversion Hin | discriminate].
    destruct (loadParents index c (i + 1) todo) as [rest | |] eqn:E; simpl;
      [| discriminate | discriminate].
    intros [= <-] Hin. apply elem_of_cons in Hin as [-> | Hin]; eauto.
Qed.

Lemma loadParents_not_Err (index : CommitNodeIndex) (c : CommitNode) (i : Z)
  (todo : nat) (e : error) :
  loadParents index c i todo <> Err e.
Proof.
  revert i. induction todo as [| todo IH]; intros i; simpl; [discriminate |].
  destruct (ParentNode index c i); [| discriminate | discriminate].
  specialize (IH (i + 1)).
  destruct (loadParents index c (i + 1) todo); simpl; congruence.
Qed.

Lemma recordResult_lookup (r : gmap string CommitNode) (path p : string)
  (c : CommitNode) :
  recordResult r path c !! p =
    match r !! p with
    | Some x => Some x
    | None => if decide (p = path) then Some c else None
    end.
Proof.
  unfold recordResult. destruct (r !! path) as [x |] eqn:E.
  - destruct (r !! p) eqn:Ep; [reflexivity |].
    destruct (decide (p = path)) as [-> | ?]; [congruence | reflexivity].
  - destruct (decide (p = path)) as [-> | Hne].
    + rewrite lookup_insert_eq, E. reflexivity.
    + rewrite lookup_insert_ne by congruence. by destruct (r !! p).
Qed.

(** The [switch] loop splits the slots in two: the deferred ones go to
    [remainingPaths] in order, the others are recorded in order. *)
Lemma classify_fold (c : CommitNode) (l : list (string * (Z * bool)))
  (acc : gmap string CommitNode * list string) :
  foldl (classifyPath c) acc l =
    (foldl (fun r p => recordResult r p c) acc.1
       (List.filter (fun slot => negb (deferred slot)) l).*1,
     acc.2 ++ (List.filter deferred l).*1).
Proof.
  revert acc. induction l as [| [path [n ch]] l IH]; intros [r rem].
  - simpl. by rewrite app_nil_r.
  - cbn [foldl List.filter]. rewrite IH.
    unfold classifyPath at 1 2. cbn [deferred].
    destruct (n =? 0) eqn:E0; cbn; [reflexivity |].
    destruct (n =? 1) eqn:E1; cbn.
    + destruct ch; cbn; [reflexivity |]. by rewrite <- app_assoc.
    + by rewrite <- app_assoc.
Qed.

Lemma recordAll_keeps (c : CommitNode) (ps : list string)
  (r : gmap string CommitNode) (p : string) (x : CommitNode) :
  r !! p = Some x ->
  foldl (fun r p => recordResult r p c) r ps !! p = Some x.
Proof.
  revert r. induction ps as [| q ps IH]; intros r Hr; simpl; [exact Hr |].
  apply IH. rewrite recordResult_lookup, Hr. reflexivity.
Qed.

Lemma recordAll_origin (c : CommitNode) (ps : list string)
  (r : gmap string CommitNode) (p : string) (x : CommitNode) :
  foldl (fun r p => recordResult r p c) r ps !! p = Some x ->
  r !! p = Some x \/ (r !! p = None /\ x = c /\ p ∈ ps).
Proof.
  revert r. induction ps as [| q ps IH]; intros r; simpl; [auto |].
  intros Hx. apply IH in Hx. rewrite recordResult_lookup in Hx.
  destruct (r !! p) as [y |] eqn:E.
  - destruct Hx as [Hx | [Hx _]]; [auto | discriminate].
  - right. destruct (decide (p = q)) as [-> | Hne].
    + destruct Hx as [[= <-] | [Hx _]]; [| discriminate].
      repeat split. left.
    + destruct Hx as [Hx | (_ & -> & Hin)]; [discriminate |].
      repeat split. by right.
Qed.

Lemma recordAll_untouched (c : CommitNode) (ps : list string)
  (r : gmap string CommitNode) (p : string) :
  p ∉ ps -> foldl (fun r p => recordResult r p c) r ps !! p = r !! p.
Proof.
  revert r. induction ps as [| q ps IH]; intros r Hnot; simpl; [reflexivity |].
  rewrite IH by (intros Hin; apply Hnot; by right).
  rewrite recordResult_lookup. destruct (r !! p); [reflexivity |].
  destruct (decide (p = q)) as [-> | ?]; [| reflexivity].
  exfalso. apply Hnot. left.
Qed.

(** The entries an iteration pushes are entries for parents of the commit. *)
Lemma entriesForParents_elem (seen : gset Hash) (remainingPaths : list string)
  (parents : list CommitNode) (phs : list (gmap string Hash))
  (e : commitAndPaths) :
  e ∈ entriesForParents seen remainingPaths parents phs <->
  exists j ph, parents !! j = Some (commit e) /\ phs !! j = Some ph /\
    (ID (commit e) ∉ seen) /\
    paths e = List.filter (present ph) remainingPaths /\ hashes e = ph.
Proof.
  unfold entriesForParents. rewrite list_elem_of_bind. split.
  - intros ([parent ph] & Hin & Hz).
    apply list_elem_of_lookup in Hz as [j Hj].
    apply lookup_zip_with_Some in Hj as (a & b & [= <- <-] & Ha & Hb).
    unfold entryForParent in Hin.
    destruct (decide (ID parent ∈ seen)); [inversion Hin |].
    apply list_elem_of_singleton in Hin as ->. simpl. eauto 10.
  - intros (j & ph & Hp & Hph & Hseen & Hpaths & Hh).
    exists (commit e, ph). split.
    + unfold entryForParent. destruct (decide (ID (commit e) ∈ seen)); [done |].
      destruct e as [ec ep eh]. simpl in *. subst. left.
    + apply list_elem_of_lookup. exists j.
      apply lookup_zip_with_Some. eauto.
Qed.

Lemma zip_with_keep {A B : Type} (f : A -> B -> B) (l : list A) (k : list B) :
  length k = length l -> (forall x y, f x y = y) -> zip_with f l k = k.
Proof.
  intros Hlen Hf. revert k Hlen.
  induction l as [| x l IH]; intros [| y k] Hlen; simpl in *; try lia; [reflexivity |].
  rewrite Hf, IH by lia. reflexivity.
Qed.

Lemma zip_with_twice {A B : Type} (f g : A -> B -> B) (l : list A) (k : list B) :
  zip_with f l (zip_with g l k) = zip_with (fun x y => f x (g x y)) l k.
Proof.
  revert k. induction l as [| x l IH]; intros [| y k]; simpl; [done | done | done |].
  by rewrite IH.
Qed.

Lemma zip_with_replicate {A B C : Type} (f : A -> B -> C) (l : list A) (z : B) :
  zip_with f l (replicate (length l) z) = (fun x => f x z) <$> l.
Proof. induction l as [| x l IH]; simpl; [done |]. by rewrite IH. Qed.

Lemma present_empty (path : string) : present ∅ path = false.
Proof. unfold present, lookup0. rewrite lookup_empty. reflexivity. Qed.

Lemma countPresent_cons (m : gmap string Hash) (phs : list (gmap string Hash))
  (path : string) :
  countPresent (m :: phs) path =
    if present m path then countPresent phs path + 1 else countPresent phs path.
Proof.
  unfold countPresent, len. simpl. destruct (present m path); simpl; lia.
Qed.

Lemma countPresent_nil_maps (n : nat) (path : string) :
  countPresent (replicate n ∅) path = 0.
Proof.
  induction n as [| n IH]; simpl; [reflexivity |].
  rewrite countPresent_cons, present_empty. exact IH.
Qed.

Lemma changedIn_nil_maps (n : nat) (cur : gmap string Hash) (path : string) :
  changedIn (replicate n ∅) cur path = false.
Proof.
  induction n as [| n IH]; simpl; [reflexivity |].
  unfold changedIn in *. simpl. rewrite present_empty. exact IH.
Qed.

Lemma countPresent_bounds (phs : list (gmap string Hash)) (path : string) :
  0 <= countPresent phs path <= len phs.
Proof.
  unfold countPresent, len. pose proof (List.filter_length_le (fun m => present m path) phs).
  lia.
Qed.

(** What the scan of the parents leaves in the two tally slices. *)
Lemma scanParents_tally (s : EncodedObjectStorer) (treePath : string)
  (current : commitAndPaths) (parents : list CommitNode) (nums : list Z)
  (changed : list bool) (err : option error) (sc : Scan) :
  scanParents s treePath current parents nums changed err = Ok sc ->
  length nums = length (paths current) ->
  length changed = length (paths current) ->
  length (parentHashes sc) = length parents /\
  numOfParentsWithPath sc =
    zip_with (fun path n => n + countPresent (parentHashes sc) path)
      (paths current) nums /\
  pathChanged sc =
    zip_with (fun path ch => ch || changedIn (parentHashes sc) (hashes current) path)
      (paths current) changed.
Proof.
  revert nums changed err sc.
  induction parents as [| parent rest IH]; intros nums changed err sc Hsc Hn Hc.
  - simpl in Hsc. injection Hsc as <-. simpl. split; [reflexivity |]. split.
    + symmetry. apply zip_with_keep; [exact Hn |]. intros x y.
      unfold countPresent, len. simpl. lia.
    + symmetry. apply zip_with_keep; [exact Hc |]. intros x y.
      unfold changedIn. simpl. apply orb_false_r.
  - cbn [scanParents] in Hsc.
    destruct (getFileHashes s parent treePath (paths current)) as [ph | e |];
      [| | discriminate].
    + unfold tallyParent in Hsc.
      match type of Hsc with
      | context [scanParents _ _ _ _ ?n ?c None] =>
          destruct (scanParents s treePath current rest n c None) as [sc' | |] eqn:E;
          [destruct (IH n c None sc' E) as (Hl & Hnum & Hch) | |]
      end; simpl in Hsc; try discriminate.
      * by rewrite length_zip_with, Hn, Nat.min_id.
      * by rewrite length_zip_with, Hc, Nat.min_id.
      * injection Hsc as <-. simpl. split; [by rewrite Hl |]. split.
        -- rewrite Hnum, zip_with_twice. apply zip_with_ext; [| done | done].
           intros path n. rewrite countPresent_cons.
           destruct (present ph path); lia.
        -- rewrite Hch, zip_with_twice. apply zip_with_ext; [| done | done].
           intros path ch. unfold changedIn. simpl.
           destruct (present ph path); simpl; [| reflexivity].
           destruct (lookup0 ph path =? lookup0 (hashes current) path)%N; simpl;
             [reflexivity |]. by rewrite orb_true_r.
    + injection Hsc as <-. cbn [parentHashes numOfParentsWithPath pathChanged].
      change (∅ :: replicate (length rest) ∅)
        with (replicate (S (length rest)) (∅ : gmap string Hash)).
      split; [by rewrite length_replicate |]. split.
      * symmetry. apply zip_with_keep; [exact Hn |]. intros x y.
        rewrite countPresent_nil_maps. lia.
      * symmetry. apply zip_with_keep; [exact Hc |]. intros x y.
        rewrite changedIn_nil_maps. apply orb_false_r.
Qed.

Lemma zip_slots (phs : list (gmap string Hash)) (cur : gmap string Hash)
  (ps : list string) :
  zip ps (zip ((fun x => 0 + countPresent phs x) <$> ps)
              ((fun x => false || changedIn phs cur x) <$> ps))
  = slotsOf phs cur ps.
Proof.
  unfold slotsOf. induction ps as [| p ps IHp]; [reflexivity |].
  cbn [fmap list_fmap zip zip_with]. cbn [fmap list_fmap zip zip_with] in IHp.
  rewrite IHp. reflexivity.
Qed.

Lemma generalCase_Emitted (s : EncodedObjectStorer) (treePath : string)
  (seen : gset Hash) (r : gmap string CommitNode) (err : option error)
  (current : commitAndPaths) (parents : list CommitNode)
  (r' : gmap string CommitNode) (pushes : list commitAndPaths)
  (err' : option error) :
  generalCase s treePath seen r err current parents = Emitted r' pushes err' ->
  exists sc,
    scanParents s treePath current parents
      (replicate (length (paths current)) 0)
      (replicate (length (paths current)) false) err = Ok sc /\
    length (parentHashes sc) = length parents /\
    let slots := slotsOf (parentHashes sc) (hashes current) (paths current) in
    let remainingPaths := (List.filter deferred slots).*1 in
    r' = foldl (fun r p => recordResult r p (commit current)) r
           (List.filter (fun slot => negb (deferred slot)) slots).*1 /\
    pushes = (if len remainingPaths >? 0
              then entriesForParents seen remainingPaths parents (parentHashes sc)
              else []) /\
    err' = scanErr sc.
Proof.
  unfold generalCase.
  destruct (scanParents s treePath current parents _ _ err) as [sc | |] eqn:E;
    [| discriminate | discriminate].
  destruct (scanParents_tally _ _ _ _ _ _ _ _ E) as (Hl & Hnum & Hch);
    [by rewrite length_replicate | by rewrite length_replicate |].
  unfold classify. rewrite classify_fold. cbn [fst snd app].
  rewrite Hnum, Hch, !zip_with_replicate.
  rewrite zip_slots. intros [= <- <- <-]. exists sc. auto.
Qed.

Lemma elem_of_slots_filter (f : string * (Z * bool) -> bool)
  (phs : list (gmap string Hash)) (cur : gmap string Hash) (ps : list string)
  (p : string) :
  p ∈ (List.filter f (slotsOf phs cur ps)).*1 <->
  p ∈ ps /\ f (p, (countPresent phs p, changedIn phs cur p)) = true.
Proof.
  rewrite list_elem_of_fmap. unfold slotsOf. split.
  - intros ([q [n ch]] & -> & Hin). apply list_elem_of_In, filter_In in Hin as [Hin Hf].
    apply list_elem_of_In, list_elem_of_fmap in Hin as (q' & [= -> -> ->] & Hq).
    auto.
  - intros [Hin Hf]. eexists. split; [| apply list_elem_of_In, filter_In; split;
      [apply list_elem_of_In, list_elem_of_fmap; eauto | exact Hf]]. reflexivity.
Qed.

Lemma elem_of_filter_present (m : gmap string Hash) (ps : list string) (p : string) :
  p ∈ List.filter (present m) ps <-> p ∈ ps /\ present m p = true.
Proof. rewrite list_elem_of_In, filter_In, <- list_elem_of_In. reflexivity. Qed.

(** The two ways an iteration gets past the commit it popped. *)
Lemma processEntry_Emitted (index : CommitNodeIndex) (s : EncodedObjectStorer)
  (treePath : string) (seen : gset Hash) (r : gmap string CommitNode)
  (err : option error) (current : commitAndPaths)
  (r' : gmap string CommitNode) (pushes : list commitAndPaths)
  (err' : option error) :
  processEntry index s treePath seen r err current = Emitted r' pushes err' ->
  exists parents,
    loadParents index (commit current) 0
      (Z.to_nat (NumParents index (commit current))) = Ok parents /\
    ((NumParents index (commit current) = 1 /\
      canSkipCommit index (commit current) treePath (paths current) = true /\
      exists parent, parents !! 0%nat = Some parent /\
        r' = r /\ err' = err /\
        pushes = [ {| commit := parent; paths := paths current;
                      hashes := hashes current |} ]) \/
     ((NumParents index (commit current) =? 1)
        && canSkipCommit index (commit current) treePath (paths current) = false /\
      generalCase s treePath seen r err current parents = Emitted r' pushes err')).
Proof.
  unfold processEntry.
  destruct (loadParents index (commit current) 0 _) as [parents | |];
    [| discriminate | discriminate].
  intros Hp. exists parents. split; [reflexivity |].
  destruct ((NumParents index (commit current) =? 1)
            && canSkipCommit index (commit current) treePath (paths current)) eqn:E.
  - left. apply andb_true_iff in E as [E1 E2]. apply Z.eqb_eq in E1.
    destruct (index_slice parents 0) as [parent | |] eqn:Es;
      [| discriminate | discriminate].
    apply index_slice_Ok in Es as [_ Es]. injection Hp as <- <- <-.
    repeat split; [exact E1 | exact E2 |]. exists parent. auto.
  - right. auto.
Qed.

Lemma processEntry_keeps (index : CommitNodeIndex) (s : EncodedObjectStorer)
  (treePath : string) (seen : gset Hash) (r : gmap string CommitNode)
  (err : option error) (current : commitAndPaths)
  (r' : gmap string CommitNode) (pushes : list commitAndPaths)
  (err' : option error) (path : string) (c : CommitNode) :
  processEntry index s treePath seen r err current = Emitted r' pushes err' ->
  r !! path = Some c -> r' !! path = Some c.
Proof.
  intros Hp Hr.
  apply processEntry_Emitted in Hp as (parents & _ & [(_ & _ & parent & _ & -> & _) | [_ Hg]]);
    [exact Hr |].
  apply generalCase_Emitted in Hg as (sc & _ & _ & -> & _).
  by apply recordAll_keeps.
Qed.

Lemma processEntry_origin (index : CommitNodeIndex) (s : EncodedObjectStorer)
  (treePath : string) (seen : gset Hash) (r : gmap string CommitNode)
  (err : option error) (current : commitAndPaths)
  (r' : gmap string CommitNode) (pushes : list commitAndPaths)
  (err' : option error) (path : string) (c : CommitNode) :
  processEntry index s treePath seen r err current = Emitted r' pushes err' ->
  r' !! path = Some c ->
  r !! path = Some c \/ (r !! path = None /\ c = commit current).
Proof.
  intros Hp Hr.
  apply processEntry_Emitted in Hp as (parents & _ & [(_ & _ & parent & _ & -> & _) | [_ Hg]]);
    [by left |].
  apply generalCase_Emitted in Hg as (sc & _ & _ & -> & _).
  apply recordAll_origin in Hr as [Hr | (Hr & -> & _)]; auto.
Qed.

Lemma processEntry_pushes_parents (index : CommitNodeIndex)
  (s : EncodedObjectStorer) (treePath : string) (seen : gset Hash)
  (r : gmap string CommitNode) (err : option error) (current : commitAndPaths)
  (r' : gmap string CommitNode) (pushes : list commitAndPaths)
  (err' : option error) (e : commitAndPaths) :
  processEntry index s treePath seen r err current = Emitted r' pushes err' ->
  e ∈ pushes ->
  exists j, ParentNode index (commit current) j = Ok (commit e).
Proof.
  intros Hp Hin.
  apply processEntry_Emitted in Hp
    as (parents & Hl & [(_ & _ & parent & Hpar & _ & _ & ->) | [_ Hg]]).
  - apply list_elem_of_singleton in Hin as ->. simpl.
    eapply loadParents_parent; [exact Hl |]. eapply list_elem_of_lookup_2, Hpar.
  - apply generalCase_Emitted in Hg as (sc & _ & _ & _ & -> & _).
    destruct (len _ >? 0); [| inversion Hin].
    apply entriesForParents_elem in Hin as (j & ph & Hj & _).
    eapply loadParents_parent; [exact Hl |]. eapply list_elem_of_lookup_2, Hj.
Qed.

End Iteration.

(** ** The result map *)

Lemma step_keeps_results {H : HeapOps lastcommit.commitAndPaths}
  (index : object.CommitNodeIndex) (s : object.EncodedObjectStorer)
  (treePath : string) (st st' : lastcommit.State) (ev : lastcommit.Event)
  (path : string) (c : object.CommitNode) :
  lastcommit.step index s treePath st = lastcommit.Next ev st' ->
  lastcommit.resultNodes st !! path = Some c ->
  lastcommit.resultNodes st' !! path = Some c.
Proof.
  unfold lastcommit.step.
  destruct (Pop (lastcommit.heap st)) as [[current h] |]; [| discriminate].
  destruct (decide (object.ID (lastcommit.commit current) ∈ lastcommit.seen st)).
  - intros [= _ <-]. simpl. auto.
  - destruct (lastcommit.processEntry _ _ _ _ _ _ _) as [| r' pushes err'] eqn:E;
      [discriminate |].
    intros [= _ <-]. simpl. eapply processEntry_keeps, E.
Qed.

(** C5.  Whatever state the loop gets to, an answer that was in the result map
    is still there unchanged; and an iteration puts an answer for a path into
    the map only when the map had none for that path, and that answer is the
    commit of the iteration. *)
Theorem recorded_answer_never_overwritten {H : HeapOps lastcommit.commitAndPaths}
  (index : object.CommitNodeIndex) (s : object.EncodedObjectStorer)
  (treePath : string) :
  (forall st st' path c,
     lastcommit.reaches index s treePath st st' ->
     lastcommit.resultNodes st !! path = Some c ->
     lastcommit.resultNodes st' !! path = Some c) /\
  (forall seen r err current r' pushes err' path c,
     lastcommit.processEntry index s treePath seen r err current
       = lastcommit.Emitted r' pushes err' ->
     r' !! path = Some c ->
     r !! path = Some c \/ (r !! path = None /\ c = lastcommit.commit current)).
Proof.
  split.
  - intros st st' path c Hreach. induction Hreach as [st | st st' st'' ev Hstep _ IH].
    + auto.
    + intros Hc. apply IH. eapply step_keeps_results; eauto.
  - intros seen r err current r' pushes err' path c. apply processEntry_origin.
Qed.

(** The state in which the loop breaks is one of the states it reaches. *)
Lemma run_reaches {H : HeapOps lastcommit.commitAndPaths}
  (index : object.CommitNodeIndex) (s : object.EncodedObjectStorer)
  (treePath : string) (fuel : nat) (st st' : lastcommit.State)
  (evs : list lastcommit.Event) :
  lastcommit.run index s treePath fuel st = (evs, lastcommit.Broke st') ->
  lastcommit.reaches index s treePath st st'.
Proof.
  revert st evs. induction fuel as [| fuel IH]; intros st evs; simpl; [discriminate |].
  destruct (lastcommit.step index s treePath st) as [| | ev st1] eqn:E.
  - intros [= _ <-]. constructor.
  - discriminate.
  - destruct (lastcommit.run index s treePath fuel st1) as [evs1 e1] eqn:Er.
    intros [= _ ->]. econstructor; [exact E |]. eapply IH, Er.
Qed.

(** ** Merges *)



(** ** The order of visits *)

Section Order.
Import object lastcommit.
Context {H : HeapOps commitAndPaths} {HL : HeapLaws byCommitTime H}.
Variable index : CommitNodeIndex.
Variable s : EncodedObjectStorer.
Variable treePath : string.
Variable c0 : CommitNode.
Hypothesis parents_not_later : forall c i p,
  ancestor index c0 c -> ParentNode index c i = Ok p ->
  CommitTime p <= CommitTime c.

Lemma visited_cons_Visited (c : CommitNode) (evs : list Event) :
  visited (Visited c :: evs) = c :: visited evs.
Proof. reflexivity. Qed.

Lemma visited_cons_AlreadySeen (c : CommitNode) (evs : list Event) :
  visited (AlreadySeen c :: evs) = visited evs.
Proof. reflexivity. Qed.

(** While every frontier entry is an ancestor no later than [b], the visits
    that follow are no later than [b] and come in non-increasing time. *)
Lemma run_visits_sorted (fuel : nat) (st : State) (b : Z) :
  Forall (fun e => ancestor index c0 (commit e) /\ CommitTime (commit e) <= b)
    (Values (heap st)) ->
  Forall (fun t => t <= b) (CommitTime <$> visited (run index s treePath fuel st).1) /\
  StronglySorted (fun earlier later => later <= earlier)
    (CommitTime <$> visited (run index s treePath fuel st).1).
Proof.
  revert st b. induction fuel as [| fuel IH]; intros st b Hfront.
  { simpl. split; constructor. }
  cbn [run]. unfold step.
  destruct (Pop (heap st)) as [[x h'] |] eqn:HP; [| simpl; split; constructor].
  destruct (Pop_Some_inv _ _ _ HP) as [Hperm Hrest].
  rewrite Hperm in Hfront. apply Forall_cons in Hfront as [[Hanc Hx] Hfront].
  destruct (decide (ID (commit x) ∈ seen st)).
  - match goal with
    | |- context [run index s treePath fuel ?st'] =>
        specialize (IH st' b); destruct (run index s treePath fuel st') as [evs fin] eqn:Er
    end.
    cbn [fst]. rewrite visited_cons_AlreadySeen. apply IH. exact Hfront.
  - destruct (processEntry index s treePath _ (resultNodes st) (err st) x)
      as [| r' pushes err'] eqn:Ep; [simpl; split; constructor |].
    match goal with
    | |- context [run index s treePath fuel ?st'] =>
        specialize (IH st' (CommitTime (commit x)));
        destruct (run index s treePath fuel st') as [evs fin] eqn:Er
    end.
    cbn [fst] in *. rewrite visited_cons_Visited, fmap_cons.
    destruct IH as [Hle Hsorted].
    { cbn [heap]. rewrite Values_pushAll. apply Forall_app. split.
      - rewrite Forall_forall in *. intros y Hy. split; [by apply Hfront | by apply Hrest].
      - apply Forall_forall. intros y Hy.
        destruct (processEntry_pushes_parents _ _ _ _ _ _ _ _ _ _ _ Ep Hy) as [j Hj].
        split; [eapply ancestor_parent; eauto | eapply parents_not_later; eauto]. }
    split.
    + constructor; [exact Hx |]. eapply Forall_impl; [exact Hle |]. simpl. lia.
    + constructor; [exact Hsorted | exact Hle].
Qed.

End Order.

(** The claim of C2 as it is worded fails: the queue orders what is in it, but
    a parent enters it only after its child was taken out.  A child committed
    at time 10 whose parent carries time 20 is visited first. *)
Lemma visit_order_follows_skewed_clock :
  let st := @lastcommit.initialState examples.frontier
              (object.FullCommit examples.Early) ["a.txt"] {[ "a.txt" := 11%N ]} in
  let times := object.CommitTime <$>
                 lastcommit.visited
                   (@lastcommit.run examples.frontier examples.skewed_index
                      examples.skewed_store "" 5 st).1 in
  lastcommit.getFileHashes examples.skewed_store (object.FullCommit examples.Early)
    "" ["a.txt"] = Ok {[ "a.txt" := 11%N ]} /\
  times = [10; 20] /\
  ~ StronglySorted (fun earlier later => later <= earlier) times.
Proof.
  intros st times.
  assert (Ht : times = [10; 20]) by (vm_compute; reflexivity).
  split; [vm_compute; reflexivity |]. split; [exact Ht |].
  rewrite Ht. intros Hs. apply StronglySorted_inv in Hs as [_ Hall].
  apply Forall_inv in Hall. lia.
Qed.

(** C2, amended.  When no commit the walker can get to from the starting
    commit has a parent with a later commit time than its own, the commits
    the loop processes come in non-increasing commit time. *)
Theorem visited_times_nonincreasing {H : HeapOps lastcommit.commitAndPaths}
  (HL : HeapLaws lastcommit.byCommitTime H)
  (index : object.CommitNodeIndex) (s : object.EncodedObjectStorer)
  (treePath : string) (c : object.CommitNode) (paths : list string)
  (initialHashes : gmap string Hash) (fuel : nat) :
  (forall c' i p,
     lastcommit.ancestor index c c' -> object.ParentNode index c' i = Ok p ->
     object.CommitTime p <= object.CommitTime c') ->
  StronglySorted (fun earlier later => later <= earlier)
    (object.CommitTime <$>
       lastcommit.visited
         (lastcommit.run index s treePath fuel
            (lastcommit.initialState c paths initialHashes)).1).
Proof.
  intros Hpar.
  apply (run_visits_sorted index s treePath c Hpar fuel _ (object.CommitTime c)).
  unfold lastcommit.initialState. cbn [lastcommit.heap].
  rewrite Values_Push, Values_NewWith.
  constructor; [| constructor]. simpl. split; [constructor | lia].
Qed.

(** *** The example histories *)

Section ExampleHistories.
Import object lastcommit examples.

(** Without a commit-graph file every parent of a decoded commit is the
    commit the store holds under the parent hash. *)
Lemma ParentNode_without_graph (s : EncodedObjectStorer)
  (bloom : CommitNode -> option BloomPathFilter) (co : Commit) (i : Z)
  (p : CommitNode) :
  ParentNode (NewGraphCommitNodeIndex commitgraph.NewMemoryIndex s bloom)
    (FullCommit co) i = Ok p ->
  exists h co', 0 <= i /\ commit_ParentHashes co !! Z.to_nat i = Some h /\
    GetCommit s h = Ok co' /\ p = FullCommit co'.
Proof.
  cbn [ParentNode NewGraphCommitNodeIndex]. unfold graph_ParentNode.
  destruct ((len (commit_ParentHashes co) =? 0)
            || (i >=? len (commit_ParentHashes co))); [discriminate |].
  destruct (index_slice (commit_ParentHashes co) i) as [h | |] eqn:Es;
    [| discriminate | discriminate].
  apply index_slice_Ok in Es as [Hi Hh]. cbn [bind commitGraph object.s].
  unfold commitgraph.GetIndexByHash. cbn [commitgraph.indexMap commitgraph.NewMemoryIndex].
  rewrite lookup_empty.
  destruct (GetCommit s h) as [co' | |] eqn:Eg; [| discriminate | discriminate].
  intros [= <-]. eauto 10.
Qed.

Lemma lookup_singleton_list {A : Type} (x y : A) (n : nat) :
  [x] !! n = Some y -> y = x.
Proof. destruct n as [| n]; simpl; [congruence | by destruct n]. Qed.

Lemma linear_ancestors (bloom : CommitNode -> option BloomPathFilter)
  (c0 c : CommitNode) :
  ancestor (NewGraphCommitNodeIndex commitgraph.NewMemoryIndex linear_store bloom) c0 c ->
  c0 ∈ [FullCommit C3; FullCommit C2; FullCommit C1] ->
  c ∈ [FullCommit C3; FullCommit C2; FullCommit C1].
Proof.
  intros Hanc Hstart. induction Hanc as [| c p i _ IH Hp]; [exact Hstart |].
  repeat (apply elem_of_cons in IH as [-> | IH]); [| | | inversion IH];
    apply ParentNode_without_graph in Hp as (h & co' & _ & Hh & Hg & ->);
    simpl in Hh.
  - apply lookup_singleton_list in Hh as ->. vm_compute in Hg.
    injection Hg as <-. right. left.
  - apply lookup_singleton_list in Hh as ->. vm_compute in Hg.
    injection Hg as <-. right. right. left.
  - rewrite lookup_nil in Hh. discriminate.
Qed.

Lemma linear_parents_not_later (bloom : CommitNode -> option BloomPathFilter)
  (c0 c p : CommitNode) (i : Z) :
  c0 ∈ [FullCommit C3; FullCommit C2; FullCommit C1] ->
  ancestor (NewGraphCommitNodeIndex commitgraph.NewMemoryIndex linear_store bloom) c0 c ->
  ParentNode (NewGraphCommitNodeIndex commitgraph.NewMemoryIndex linear_store bloom) c i
    = Ok p ->
  CommitTime p <= CommitTime c.
Proof.
  intros Hstart Hanc Hp. apply linear_ancestors in Hanc; [| exact Hstart].
  repeat (apply elem_of_cons in Hanc as [-> | Hanc]); [| | | inversion Hanc];
    apply ParentNode_without_graph in Hp as (h & co' & _ & Hh & Hg & ->);
    simpl in Hh.
  - apply lookup_singleton_list in Hh as ->. vm_compute in Hg.
    injection Hg as <-. simpl. lia.
  - apply lookup_singleton_list in Hh as ->. vm_compute in Hg.
    injection Hg as <-. simpl. lia.
  - rewrite lookup_nil in Hh. discriminate.
Qed.

End ExampleHistories.

Lemma visited_times_nonincreasing_witness :
  StronglySorted (fun earlier later => later <= earlier)
    (object.CommitTime <$>
       lastcommit.visited
         (@lastcommit.run examples.frontier examples.linear_index
            examples.linear_store "" 5
            (@lastcommit.initialState examples.frontier
               (object.FullCommit examples.C2) ["a.txt"] {[ "a.txt" := 11%N ]})).1).
Proof.
  apply (visited_times_nonincreasing frontier_laws).
  intros c' i p. apply linear_parents_not_later. right. left.
Defined.

(** ** Errors of the loop *)

Lemma materialize_Err {H : HeapOps lastcommit.commitAndPaths}
  (index : object.CommitNodeIndex) (l : list (string * object.CommitNode))
  (acc : gmap string object.Commit) (e : error) :
  lastcommit.materialize index l acc = Err e ->
  exists path commitNode, (path, commitNode) ∈ l /\
    object.Commit_of index commitNode = Err e.
Proof.
  revert acc. induction l as [| [path commitNode] l IH]; intros acc; simpl;
    [discriminate |].
  destruct (object.Commit_of index commitNode) as [c | e' |] eqn:E; simpl.
  - intros Hm. apply IH in Hm as (path' & node' & Hin & He).
    exists path', node'. split; [by right | exact He].
  - intros [= ->]. exists path, commitNode. split; [left | exact E].
  - discriminate.
Qed.

(** The only errors [getLastCommitForPaths] can return are the one of the
    first [getFileHashes] call and one of [index.Commit] in the
    post-processing: nothing that happens inside the loop is returned. *)
Lemma returned_error_origin {H : HeapOps lastcommit.commitAndPaths}
  (index : object.CommitNodeIndex) (s : object.EncodedObjectStorer)
  (treePath : string) (c : object.CommitNode) (paths : list string)
  (fuel : nat) (e : error) :
  lastcommit.getLastCommitForPaths index s treePath c paths fuel = Some (Err e) ->
  lastcommit.getFileHashes s c treePath paths = Err e \/
  exists commitNode, object.Commit_of index commitNode = Err e.
Proof.
  unfold lastcommit.getLastCommitForPaths.
  destruct (lastcommit.getFileHashes s c treePath paths) as [h | e' |];
    [| intros [= ->]; by left | discriminate].
  destruct (lastcommit.run index s treePath fuel _).2 as [| | st];
    [discriminate | discriminate |].
  intros [= Hm]. apply materialize_Err in Hm as (path & node & _ & He). eauto.
Qed.

(** C1.  The parent's tree cannot be decoded, [getFileHashes] fails for the
    parent, and the query still returns a mapping and no error: the loop over
    the parents breaks, the path counts as present in no parent, and the
    commit is recorded as the one that created it. *)
Theorem parent_decode_error_is_swallowed :
  object.ParentNode examples.broken_parent_index (object.FullCommit examples.B2) 0
    = Ok (object.FullCommit examples.C1) /\
  lastcommit.getFileHashes examples.broken_parent_store
    (object.FullCommit examples.C1) "" ["a.txt"] = Err ErrDecode /\
  @lastcommit.getLastCommitForPaths examples.frontier examples.broken_parent_index
    examples.broken_parent_store "" (object.FullCommit examples.B2) ["a.txt"] 5
    = Some (Ok {[ "a.txt" := examples.B2 ]}).
Proof. repeat split; vm_compute; reflexivity. Qed.

(** ** The zero hash as "no such path" *)

Section ZeroHash.
Import object lastcommit.

Lemma addFileHash_fileHash (tree : Tree) (acc : gmap string Hash) (q : string) :
  addFileHash tree acc q =
    match fileHash tree q with
    | Some h => <[q := h]> acc
    | None => acc
    end.
Proof.
  unfold addFileHash, fileHash, FindEntry.
  destruct (decide (q = "")) as [-> | Hne].
  - destruct (decide ("" <> "")); [congruence | reflexivity].
  - destruct (decide (q <> "")); [| contradiction].
    by destruct (tree_Entries tree !! q).
Qed.

Lemma fileHashes_fold_lookup (tree : Tree) (paths : list string)
  (acc : gmap string Hash) (path : string) :
  foldl (addFileHash tree) acc paths !! path =
    if decide (path ∈ paths)
    then match fileHash tree path with
         | Some h => Some h
         | None => acc !! path
         end
    else acc !! path.
Proof.
  revert acc. induction paths as [| q paths IH]; intros acc; simpl.
  - destruct (decide (path ∈ [])) as [Hin | _]; [inversion Hin | reflexivity].
  - rewrite IH, addFileHash_fileHash.
    destruct (decide (path = q)) as [-> | Hne].
    + destruct (decide (q ∈ q :: paths)) as [_ | Hn]; [| exfalso; apply Hn; left].
      destruct (fileHash tree q) as [h |] eqn:Eh.
      * by destruct (decide (q ∈ paths)); [| rewrite lookup_insert_eq].
      * by destruct (decide (q ∈ paths)).
    + assert (Hacc : match fileHash tree q with
                     | Some h => <[q := h]> acc
                     | None => acc
                     end !! path = acc !! path).
      { destruct (fileHash tree q); [by rewrite lookup_insert_ne | reflexivity]. }
      rewrite Hacc.
      destruct (decide (path ∈ paths)) as [Hin | Hnin].
      * destruct (decide (path ∈ q :: paths)) as [_ | Hn]; [reflexivity |].
        exfalso. apply Hn. by right.
      * destruct (decide (path ∈ q :: paths)) as [Hin | _]; [| reflexivity].
        apply elem_of_cons in Hin as [-> | Hin]; contradiction.
Qed.

Lemma getFileHashes_tree (s : EncodedObjectStorer) (c : CommitNode)
  (treePath : string) (paths : list string) (tree : Tree) :
  getCommitTree s c treePath = Ok tree ->
  getFileHashes s c treePath paths = Ok (foldl (addFileHash tree) ∅ paths).
Proof. unfold getFileHashes. intros ->. reflexivity. Qed.

Lemma getFileHashes_lookup (s : EncodedObjectStorer) (c : CommitNode)
  (treePath : string) (paths : list string) (tree : Tree)
  (m : gmap string Hash) (path : string) :
  getCommitTree s c treePath = Ok tree ->
  getFileHashes s c treePath paths = Ok m ->
  m !! path = if decide (path ∈ paths) then fileHash tree path else None.
Proof.
  intros Ht Hm. rewrite (getFileHashes_tree _ _ _ _ _ Ht) in Hm. injection Hm as <-.
  rewrite fileHashes_fold_lookup, lookup_empty.
  destruct (decide (path ∈ paths)); [| reflexivity]. by destruct (fileHash tree path).
Qed.

Lemma fileHash_agree (t t' : Tree) (path : string) :
  tree_agree t t' ->
  default ZeroHash (fileHash t path) = default ZeroHash (fileHash t' path).
Proof.
  intros [Hh He]. unfold fileHash. destruct (decide (path = "")); simpl.
  - exact Hh.
  - apply He.
Qed.

Lemma getFileHashes_agree (s s' : EncodedObjectStorer) (c : CommitNode)
  (treePath : string) (paths : list string) :
  commitTree_agree (getCommitTree s c treePath) (getCommitTree s' c treePath) ->
  fileHashes_agree (getFileHashes s c treePath paths) (getFileHashes s' c treePath paths).
Proof.
  intros Hagree.
  destruct (getCommitTree s c treePath) as [t | e |] eqn:E;
    destruct (getCommitTree s' c treePath) as [t' | e' |] eqn:E';
    simpl in Hagree; try contradiction.
  - rewrite (getFileHashes_tree _ _ _ _ _ E), (getFileHashes_tree _ _ _ _ _ E').
    simpl. intros path. unfold lookup0.
    rewrite !fileHashes_fold_lookup, !lookup_empty.
    destruct (decide (path ∈ paths)); [| reflexivity].
    pose proof (fileHash_agree t t' path Hagree) as Hf.
    destruct (fileHash t path), (fileHash t' path); exact Hf.
  - subst e'. unfold getFileHashes. rewrite E, E'.
    destruct e; simpl; try reflexivity. intros path. reflexivity.
  - unfold getFileHashes. rewrite E, E'. exact I.
Qed.

Lemma present_agree (m m' : gmap string Hash) (path : string) :
  hashes_agree m m' -> present m path = present m' path.
Proof. intros Hm. unfold present. by rewrite (Hm path). Qed.

Lemma tallyParent_agree (ph ph' cur cur' : gmap string Hash) (paths : list string)
  (nums : list Z) (changed : list bool) :
  hashes_agree ph ph' -> hashes_agree cur cur' ->
  tallyParent ph cur paths nums changed = tallyParent ph' cur' paths nums changed.
Proof.
  intros Hp Hc. unfold tallyParent. f_equal.
  - apply zip_with_ext; [| done | done]. intros path n.
    by rewrite (present_agree _ _ path Hp).
  - apply zip_with_ext; [| done | done]. intros path ch.
    by rewrite (present_agree _ _ path Hp), (Hp path), (Hc path).
Qed.

Lemma nil_maps_agree (n : nat) :
  Forall2 hashes_agree (replicate n ∅) (replicate n ∅).
Proof.
  induction n as [| n IH]; simpl; constructor; [| exact IH].
  intros path. reflexivity.
Qed.

Lemma scanParents_agree (s s' : EncodedObjectStorer) (treePath : string)
  (cur cur' : commitAndPaths) (parents : list CommitNode) (nums : list Z)
  (changed : list bool) (err : option error) :
  paths cur = paths cur' ->
  hashes_agree (hashes cur) (hashes cur') ->
  (forall parent, parent ∈ parents ->
     fileHashes_agree (getFileHashes s parent treePath (paths cur))
       (getFileHashes s' parent treePath (paths cur))) ->
  scan_agree (scanParents s treePath cur parents nums changed err)
    (scanParents s' treePath cur' parents nums changed err).
Proof.
  intros Hpaths Hcur. revert nums changed err.
  induction parents as [| parent rest IH]; intros nums changed err Hall.
  - simpl. auto.
  - cbn [scanParents]. rewrite <- Hpaths.
    pose proof (Hall parent ltac:(left)) as Hparent.
    destruct (getFileHashes s parent treePath (paths cur)) as [ph | e |];
      destruct (getFileHashes s' parent treePath (paths cur)) as [ph' | e' |];
      simpl in Hparent; try contradiction.
    + rewrite (tallyParent_agree ph ph' (hashes cur) (hashes cur') _ _ _ Hparent Hcur).
      destruct (tallyParent ph' (hashes cur') (paths cur) nums changed) as [nums' changed'].
      specialize (IH nums' changed' None ltac:(intros q Hq; apply Hall; by right)).
      destruct (scanParents s treePath cur rest nums' changed' None) as [sc | |];
        destruct (scanParents s' treePath cur' rest nums' changed' None) as [sc' | |];
        simpl in IH; try contradiction; simpl; [| exact I].
      destruct IH as (Hph & Hn & Hc & He). repeat split; auto.
    + subst e'. simpl. repeat split.
      change (∅ :: replicate (length rest) ∅)
        with (replicate (S (length rest)) (∅ : gmap string Hash)).
      apply nil_maps_agree.
    + exact I.
Qed.

Lemma entriesForParents_agree (seen : gset Hash) (remainingPaths : list string)
  (parents : list CommitNode) (phs phs' : list (gmap string Hash)) :
  Forall2 hashes_agree phs phs' ->
  Forall2 entry_agree (entriesForParents seen remainingPaths parents phs)
    (entriesForParents seen remainingPaths parents phs').
Proof.
  intros Hph. revert parents.
  induction Hph as [| ph ph' phs phs' Hhd _ IH]; intros [| parent parents];
    try (unfold entriesForParents; simpl; constructor).
  change (Forall2 entry_agree
            (entryForParent seen remainingPaths (parent, ph)
               ++ entriesForParents seen remainingPaths parents phs)
            (entryForParent seen remainingPaths (parent, ph')
               ++ entriesForParents seen remainingPaths parents phs')).
  apply Forall2_app; [| apply IH].
  unfold entryForParent. destruct (decide (ID parent ∈ seen)); constructor; [| constructor].
  repeat split; simpl; [| exact Hhd].
  apply List.filter_ext. intros path. by apply present_agree.
Qed.

Lemma generalCase_agree (s s' : EncodedObjectStorer) (treePath : string)
  (seen : gset Hash) (r : gmap string CommitNode) (err : option error)
  (cur cur' : commitAndPaths) (parents : list CommitNode) :
  entry_agree cur cur' ->
  (forall parent, parent ∈ parents ->
     fileHashes_agree (getFileHashes s parent treePath (paths cur))
       (getFileHashes s' parent treePath (paths cur))) ->
  processed_agree (generalCase s treePath seen r err cur parents)
    (generalCase s' treePath seen r err cur' parents).
Proof.
  intros (Hc & Hp & Hh) Hall. unfold generalCase.
  pose proof (scanParents_agree s s' treePath cur cur' parents
                (replicate (length (paths cur)) 0)
                (replicate (length (paths cur)) false) err Hp Hh Hall) as Hscan.
  rewrite <- Hp, <- Hc.
  destruct (scanParents s treePath cur parents _ _ err) as [sc | |];
    destruct (scanParents s' treePath cur' parents _ _ err) as [sc' | |];
    simpl in Hscan; try contradiction; simpl; try exact I.
  destruct Hscan as (Hph & <- & <- & <-).
  destruct (classify (commit cur) r (paths cur) (numOfParentsWithPath sc)
              (pathChanged sc)) as [r' remainingPaths].
  repeat split.
  destruct (len remainingPaths >? 0); [| constructor].
  by apply entriesForParents_agree.
Qed.

Lemma processEntry_agree (index : CommitNodeIndex) (s s' : EncodedObjectStorer)
  (treePath : string) (seen : gset Hash) (r : gmap string CommitNode)
  (err : option error) (cur cur' : commitAndPaths) :
  entry_agree cur cur' ->
  (forall j parent, ParentNode index (commit cur) j = Ok parent ->
     commitTree_agree (getCommitTree s parent treePath)
       (getCommitTree s' parent treePath)) ->
  processed_agree (processEntry index s treePath seen r err cur)
    (processEntry index s' treePath seen r err cur').
Proof.
  intros Hagree Htrees. pose proof Hagree as (Hc & Hp & Hh).
  unfold processEntry. rewrite <- Hc, <- Hp.
  destruct (loadParents index (commit cur) 0 _) as [parents | |] eqn:El;
    simpl; try exact I.
  destruct ((NumParents index (commit cur) =? 1)
            && canSkipCommit index (commit cur) treePath (paths cur)).
  - destruct (index_slice parents 0); simpl; try exact I.
    repeat split. constructor; [| constructor]. repeat split; simpl; auto.
  - apply generalCase_agree; [exact Hagree |].
    intros parent Hin. apply getFileHashes_agree.
    destruct (loadParents_parent _ _ _ _ _ _ El Hin) as [j Hj]. eauto.
Qed.

End ZeroHash.

(** C10.  [getFileHashes] stores a hash for a path only when the tree has an
    entry for it (the empty path always gets the tree's own hash); the search
    reads the maps only through lookups that give the zero hash for a missing
    key, so a path whose entry holds the zero hash tests as not present; and an
    iteration run over two stores whose trees differ only in entries with the
    zero hash (one has the entry, the other has none) makes the same result
    map and pushes the same commits with the same paths. *)
Theorem zero_hash_entry_is_absent (index : object.CommitNodeIndex)
  (treePath : string) :
  (forall s c paths tree m path,
     lastcommit.getCommitTree s c treePath = Ok tree ->
     lastcommit.getFileHashes s c treePath paths = Ok m ->
     path <> "" ->
     m !! path = (if decide (path ∈ paths)
                  then object.entry_Hash <$> object.tree_Entries tree !! path
                  else None)) /\
  (forall s c paths tree m path e,
     lastcommit.getCommitTree s c treePath = Ok tree ->
     lastcommit.getFileHashes s c treePath paths = Ok m ->
     path <> "" ->
     object.tree_Entries tree !! path = Some e ->
     object.entry_Hash e = ZeroHash ->
     lastcommit.present m path = false) /\
  (forall s s' c paths,
     lastcommit.commitTree_agree (lastcommit.getCommitTree s c treePath)
       (lastcommit.getCommitTree s' c treePath) ->
     lastcommit.fileHashes_agree (lastcommit.getFileHashes s c treePath paths)
       (lastcommit.getFileHashes s' c treePath paths)) /\
  (forall s s' seen r err current current',
     lastcommit.entry_agree current current' ->
     (forall j parent,
        object.ParentNode index (lastcommit.commit current) j = Ok parent ->
        lastcommit.commitTree_agree (lastcommit.getCommitTree s parent treePath)
          (lastcommit.getCommitTree s' parent treePath)) ->
     lastcommit.processed_agree
       (lastcommit.processEntry index s treePath seen r err current)
       (lastcommit.processEntry index s' treePath seen r err current')).
Proof.
  repeat split.
  - intros s c paths tree m path Ht Hm Hne.
    rewrite (getFileHashes_lookup _ _ _ _ _ _ path Ht Hm).
    destruct (decide (path ∈ paths)); [| reflexivity].
    unfold lastcommit.fileHash. by destruct (decide (path = "")).
  - intros s c paths tree m path e Ht Hm Hne He Hz.
    unfold lastcommit.present, lookup0.
    rewrite (getFileHashes_lookup _ _ _ _ _ _ path Ht Hm).
    destruct (decide (path ∈ paths)); [| reflexivity].
    unfold lastcommit.fileHash. destruct (decide (path = "")); [contradiction |].
    rewrite He. simpl. rewrite Hz. reflexivity.
  - intros s s' c paths. apply getFileHashes_agree.
  - intros s s' seen r err current current'. apply processEntry_agree.
Qed.

(** ** The fast path *)

Section GeneralCaseOnFewParents.
Import object lastcommit.

Lemma filter_slots (f : string * (Z * bool) -> bool)
  (phs : list (gmap string Hash)) (cur : gmap string Hash) (ps : list string) :
  (List.filter f (slotsOf phs cur ps)).*1 =
  List.filter (fun path => f (path, (countPresent phs path, changedIn phs cur path))) ps.
Proof.
  unfold slotsOf. induction ps as [| p ps IH]; [reflexivity |].
  simpl. destruct (f (p, (countPresent phs p, changedIn phs cur p))); simpl;
    [f_equal |]; exact IH.
Qed.

Lemma filter_all {A : Type} (f : A -> bool) (l : list A) :
  (forall x, x ∈ l -> f x = true) -> List.filter f l = l.
Proof.
  induction l as [| x l IH]; intros Hall; simpl; [reflexivity |].
  rewrite (Hall x) by left. rewrite IH; [reflexivity |].
  intros y Hy. apply Hall. by right.
Qed.

Lemma filter_none {A : Type} (f : A -> bool) (l : list A) :
  (forall x, x ∈ l -> f x = false) -> List.filter f l = [].
Proof.
  induction l as [| x l IH]; intros Hall; simpl; [reflexivity |].
  rewrite (Hall x) by left. apply IH. intros y Hy. apply Hall. by right.
Qed.

Lemma filter_agree {A : Type} (f g : A -> bool) (l : list A) :
  (forall x, x ∈ l -> f x = g x) -> List.filter f l = List.filter g l.
Proof.
  induction l as [| x l IH]; intros Hall; simpl; [reflexivity |].
  rewrite (Hall x) by left. rewrite IH; [reflexivity |].
  intros y Hy. apply Hall. by right.
Qed.

Lemma deferred_count_zero (path : string) (ch : bool) : deferred (path, (0, ch)) = false.
Proof. reflexivity. Qed.

Lemma countPresent_one (ph : gmap string Hash) (path : string) :
  countPresent [ph] path = if present ph path then 1 else 0.
Proof. rewrite countPresent_cons. by destruct (present ph path). Qed.

Lemma changedIn_one (ph cur : gmap string Hash) (path : string) :
  changedIn [ph] cur path =
    present ph path && negb (lookup0 ph path =? lookup0 cur path)%N.
Proof. unfold changedIn. simpl. apply orb_false_r. Qed.

(** The slots only read the current hashes at the active paths. *)
Lemma slots_filter_agree (f : string * (Z * bool) -> bool)
  (phs : list (gmap string Hash)) (cur cur' : gmap string Hash) (ps : list string) :
  (forall path, path ∈ ps -> lookup0 cur path = lookup0 cur' path) ->
  (List.filter f (slotsOf phs cur ps)).*1 = (List.filter f (slotsOf phs cur' ps)).*1.
Proof.
  intros Hagree. rewrite !filter_slots. apply filter_agree. intros path Hin.
  unfold changedIn. rewrite (Hagree path Hin). reflexivity.
Qed.

Lemma slots_all_resolved (phs : list (gmap string Hash)) (cur : gmap string Hash)
  (ps : list string) :
  (forall path, path ∈ ps -> countPresent phs path = 0) ->
  (List.filter deferred (slotsOf phs cur ps)).*1 = [] /\
  (List.filter (fun slot => negb (deferred slot)) (slotsOf phs cur ps)).*1 = ps.
Proof.
  intros Hzero. rewrite !filter_slots. split.
  - apply filter_none. intros path Hin. by rewrite (Hzero path Hin).
  - apply filter_all. intros path Hin. by rewrite (Hzero path Hin).
Qed.

Lemma slots_all_deferred (phs : list (gmap string Hash)) (cur : gmap string Hash)
  (ps : list string) :
  (forall path, path ∈ ps ->
     countPresent phs path = 1 /\ changedIn phs cur path = false) ->
  (List.filter deferred (slotsOf phs cur ps)).*1 = ps /\
  (List.filter (fun slot => negb (deferred slot)) (slotsOf phs cur ps)).*1 = [].
Proof.
  intros Hone. rewrite !filter_slots. split.
  - apply filter_all. intros path Hin. destruct (Hone path Hin) as [-> ->]. reflexivity.
  - apply filter_none. intros path Hin. destruct (Hone path Hin) as [-> ->]. reflexivity.
Qed.

(** The general case in terms of the scan it made. *)
Lemma generalCase_of_scan (s : EncodedObjectStorer) (treePath : string)
  (seen : gset Hash) (r : gmap string CommitNode) (err : option error)
  (cur : commitAndPaths) (parents : list CommitNode) (sc : Scan) :
  scanParents s treePath cur parents (replicate (length (paths cur)) 0)
    (replicate (length (paths cur)) false) err = Ok sc ->
  generalCase s treePath seen r err cur parents =
    Emitted
      (foldl (fun r p => recordResult r p (commit cur)) r
         (List.filter (fun slot => negb (deferred slot))
            (slotsOf (parentHashes sc) (hashes cur) (paths cur))).*1)
      (if len (List.filter deferred
                 (slotsOf (parentHashes sc) (hashes cur) (paths cur))).*1 >? 0
       then entriesForParents seen
              (List.filter deferred
                 (slotsOf (parentHashes sc) (hashes cur) (paths cur))).*1
              parents (parentHashes sc)
       else [])
      (scanErr sc).
Proof.
  intros Hsc. destruct (generalCase s treePath seen r err cur parents)
    as [| r' pushes err'] eqn:E.
  - unfold generalCase in E. rewrite Hsc in E.
    destruct (classify _ _ _ _ _); discriminate.
  - apply generalCase_Emitted in E as (sc' & Hsc' & _ & -> & -> & ->).
    rewrite Hsc in Hsc'. injection Hsc' as <-. reflexivity.
Qed.

Lemma generalCase_no_parents (s : EncodedObjectStorer) (treePath : string)
  (seen : gset Hash) (r : gmap string CommitNode) (err : option error)
  (cur : commitAndPaths) :
  generalCase s treePath seen r err cur [] =
    Emitted (foldl (fun r p => recordResult r p (commit cur)) r (paths cur)) [] err.
Proof.
  erewrite generalCase_of_scan; [| cbn [scanParents]; reflexivity].
  cbn [parentHashes scanErr].
  destruct (slots_all_resolved [] (hashes cur) (paths cur)) as [-> ->];
    [intros path _; reflexivity | reflexivity].
Qed.

Lemma generalCase_parent_unreadable (s : EncodedObjectStorer) (treePath : string)
  (seen : gset Hash) (r : gmap string CommitNode) (err : option error)
  (cur : commitAndPaths) (p : CommitNode) (e : error) :
  getFileHashes s p treePath (paths cur) = Err e ->
  generalCase s treePath seen r err cur [p] =
    Emitted (foldl (fun r p => recordResult r p (commit cur)) r (paths cur)) [] (Some e).
Proof.
  intros Hfh.
  erewrite generalCase_of_scan; [| cbn [scanParents]; rewrite Hfh; reflexivity].
  cbn [parentHashes scanErr length replicate].
  destruct (slots_all_resolved [∅] (hashes cur) (paths cur)) as [-> ->];
    [intros path _; apply (countPresent_nil_maps 1) | reflexivity].
Qed.

Lemma generalCase_parent_panics (s : EncodedObjectStorer) (treePath : string)
  (seen : gset Hash) (r : gmap string CommitNode) (err : option error)
  (cur : commitAndPaths) (p : CommitNode) :
  getFileHashes s p treePath (paths cur) = Panic ->
  generalCase s treePath seen r err cur [p] = Crashed.
Proof.
  intros Hfh. unfold generalCase. cbn [scanParents]. rewrite Hfh. reflexivity.
Qed.

Lemma generalCase_one_parent (s : EncodedObjectStorer) (treePath : string)
  (seen : gset Hash) (r : gmap string CommitNode) (err : option error)
  (cur : commitAndPaths) (p : CommitNode) (ph : gmap string Hash) :
  getFileHashes s p treePath (paths cur) = Ok ph ->
  generalCase s treePath seen r err cur [p] =
    Emitted
      (foldl (fun r p => recordResult r p (commit cur)) r
         (List.filter (fun slot => negb (deferred slot))
            (slotsOf [ph] (hashes cur) (paths cur))).*1)
      (if len (List.filter deferred (slotsOf [ph] (hashes cur) (paths cur))).*1 >? 0
       then entryForParent seen
              (List.filter deferred (slotsOf [ph] (hashes cur) (paths cur))).*1
              (p, ph)
       else [])
      None.
Proof.
  intros Hfh.
  assert (Hsc : exists sc,
             scanParents s treePath cur [p] (replicate (length (paths cur)) 0)
               (replicate (length (paths cur)) false) err = Ok sc /\
             parentHashes sc = [ph] /\ scanErr sc = None).
  { cbn [scanParents]. rewrite Hfh.
    destruct (tallyParent ph (hashes cur) (paths cur) _ _) as [nums' changed'].
    simpl. eexists. split; [reflexivity | split; reflexivity]. }
  destruct Hsc as (sc & Hsc & Hph & Herr).
  rewrite (generalCase_of_scan _ _ _ _ _ _ _ _ Hsc), Hph, Herr.
  unfold entriesForParents. simpl. by rewrite app_nil_r.
Qed.

Lemma getFileHashes_contentAt (s : EncodedObjectStorer) (c : CommitNode)
  (treePath : string) (ps : list string) (m : gmap string Hash) (path : string) :
  getFileHashes s c treePath ps = Ok m -> path ∈ ps ->
  lookup0 m path = contentAt s treePath c path.
Proof.
  unfold contentAt, getFileHashes.
  destruct (getCommitTree s c treePath) as [tree | e |]; [| | discriminate].
  - intros [= <-] Hin. unfold lookup0. rewrite !fileHashes_fold_lookup.
    destruct (decide (path ∈ ps)); [| contradiction].
    destruct (decide (path ∈ [path])) as [_ | Hn]; [reflexivity |].
    exfalso. apply Hn. left.
  - destruct e; try discriminate. intros [= <-] _. reflexivity.
Qed.

Lemma getFileHashes_failed_contentAt (s : EncodedObjectStorer) (c : CommitNode)
  (treePath : string) (ps : list string) (path : string) :
  (forall m, getFileHashes s c treePath ps <> Ok m) ->
  contentAt s treePath c path = ZeroHash.
Proof.
  unfold contentAt, getFileHashes.
  destruct (getCommitTree s c treePath) as [tree | e |]; intros Hno.
  - exfalso. eapply Hno. reflexivity.
  - destruct e; reflexivity.
  - reflexivity.
Qed.

Lemma canSkipCommit_true (index : CommitNodeIndex) (c : CommitNode)
  (treePath : string) (ps : list string) :
  canSkipCommit index c treePath ps = true ->
  exists bloom, BloomFilter index c = Some bloom /\
    forall path, path ∈ ps -> Test bloom (fullPath treePath path) = false.
Proof.
  unfold canSkipCommit. destruct (BloomFilter index c) as [bloom |]; [| discriminate].
  intros Hall. exists bloom. split; [reflexivity |].
  intros path Hin. rewrite forallb_forall in Hall.
  apply negb_true_iff, Hall, list_elem_of_In, Hin.
Qed.

Lemma loadParents_withoutBloom (index : CommitNodeIndex) (c : CommitNode)
  (i : Z) (todo : nat) :
  loadParents (withoutBloom index) c i todo = loadParents index c i todo.
Proof.
  revert i. induction todo as [| todo IH]; intros i; [reflexivity |].
  cbn [loadParents]. rewrite IH. reflexivity.
Qed.

Lemma loadParents_first (index : CommitNodeIndex) (c p : CommitNode) :
  ParentNode index c 0 = Ok p -> loadParents index c 0 1 = Ok [p].
Proof. intros Hp. cbn [loadParents]. rewrite Hp. reflexivity. Qed.

End GeneralCaseOnFewParents.

Section FastPathSimulation.
Import object lastcommit.
Context {H : HeapOps commitAndPaths} {HL : HeapLaws byCommitTime H}.
Variable index : CommitNodeIndex.
Variable s : EncodedObjectStorer.
Variable treePath : string.
Variable c0 : CommitNode.
Hypothesis no_merges : forall c, ancestor index c0 c -> NumParents index c <= 1.
Hypothesis filters_sound : forall c, ancestor index c0 c -> filter_sound index s treePath c.

Lemma len_nonempty {A : Type} (l : list A) : l <> [] -> (len l >? 0) = true.
Proof.
  intros Hne. destruct l as [| x l]; [contradiction |].
  unfold len. simpl length. destruct (Z.gtb_spec (Z.of_nat (S (length l))) 0); [reflexivity | lia].
Qed.

Lemma len_positive_nonempty {A : Type} (l : list A) : (len l >? 0) = true -> l <> [].
Proof. intros Hl ->. discriminate. Qed.

Lemma entries_match_intro (e e' : commitAndPaths) :
  commit e = commit e' -> paths e = paths e' -> paths e' <> [] ->
  ancestor index c0 (commit e') ->
  (forall path, path ∈ paths e' -> lookup0 (hashes e) path = lookup0 (hashes e') path) ->
  (forall path, path ∈ paths e' ->
     lookup0 (hashes e') path = contentAt s treePath (commit e') path /\
     lookup0 (hashes e') path <> ZeroHash) ->
  entries_match index s treePath c0 e e'.
Proof. unfold entries_match, entry_tracks. auto 10. Qed.

(** One iteration of the search with the fast path next to one iteration of
    the search without it, on matching entries. *)
Lemma process_match (seen' : gset Hash) (r : gmap string CommitNode)
  (e e' : commitAndPaths) :
  entries_match index s treePath c0 e e' ->
  match processEntry index s treePath seen' r None e,
        processEntry (withoutBloom index) s treePath seen' r None e' with
  | Crashed, Crashed => True
  | Emitted r1 pushes1 err1, Emitted r2 pushes2 err2 =>
      r1 = r2 /\
      ((pushes1 = [] /\ pushes2 = []) \/
       (exists x x', pushes1 = [x] /\ pushes2 = [x'] /\
          entries_match index s treePath c0 x x' /\ err1 = None /\ err2 = None) \/
       (exists x, pushes1 = [x] /\ pushes2 = [] /\ ID (commit x) ∈ seen'))
  | _, _ => False
  end.
Proof.
  intros (Hc & Hp & Hne & Hanc & Hagree & Htracks).
  unfold processEntry. cbn [NumParents withoutBloom].
  rewrite loadParents_withoutBloom, Hc, Hp.
  replace (canSkipCommit (withoutBloom index) (commit e') treePath (paths e'))
    with false by reflexivity.
  rewrite andb_false_r.
  destruct (loadParents index (commit e') 0 (Z.to_nat (NumParents index (commit e'))))
    as [parents | e0 |] eqn:El; [| by apply loadParents_not_Err in El | exact I].
  destruct ((NumParents index (commit e') =? 1)
            && canSkipCommit index (commit e') treePath (paths e')) eqn:Efast.
  - (* the fast path is taken *)
    apply andb_true_iff in Efast as [Hnp Hskip]. apply Z.eqb_eq in Hnp.
    apply canSkipCommit_true in Hskip as (bloom & Hb & Htest).
    destruct (filters_sound _ Hanc bloom Hb Hnp) as (p & Hpar & Hdiff).
    rewrite Hnp in El. change (Z.to_nat 1) with 1%nat in El.
    rewrite (loadParents_first _ _ _ Hpar) in El. injection El as <-.
    cbn [index_slice Z.ltb Z.compare Z.to_nat lookup list_lookup].
    assert (Hsame : forall path, path ∈ paths e' ->
              contentAt s treePath (commit e') path = contentAt s treePath p path).
    { intros path Hin.
      destruct (decide (contentAt s treePath (commit e') path
                        = contentAt s treePath p path)) as [Heq | Hneq]; [exact Heq |].
      apply Hdiff in Hneq. rewrite (Htest path Hin) in Hneq. discriminate. }
    destruct (getFileHashes s p treePath (paths e')) as [ph | e0 |] eqn:Efh.
    + assert (Hph : forall path, path ∈ paths e' ->
                lookup0 ph path = lookup0 (hashes e') path /\ present ph path = true).
      { intros path Hin. destruct (Htracks path Hin) as [Ht Hnz].
        assert (Heq : lookup0 ph path = lookup0 (hashes e') path).
        { rewrite (getFileHashes_contentAt _ _ _ _ _ _ Efh Hin), <- Hsame, Ht; auto. }
        split; [exact Heq |]. unfold present. rewrite Heq.
        apply negb_true_iff, N.eqb_neq, Hnz. }
      rewrite (generalCase_one_parent _ _ _ _ _ _ _ _ Efh).
      destruct (slots_all_deferred [ph] (hashes e') (paths e')) as [-> ->].
      { intros path Hin. destruct (Hph path Hin) as [Heq Hpres].
        rewrite countPresent_one, changedIn_one, Hpres, Heq, N.eqb_refl. auto. }
      rewrite (len_nonempty _ Hne). cbn [foldl]. split; [reflexivity |].
      unfold entryForParent. rewrite (filter_all (present ph)) by (intros; by apply Hph).
      destruct (decide (ID p ∈ seen')) as [Hseen | Hunseen].
      * right. right. eexists. split; [reflexivity |]. split; [reflexivity | exact Hseen].
      * right. left. eexists _, _. split; [reflexivity |]. split; [reflexivity |].
        split; [| auto].
        apply entries_match_intro; cbn [commit paths hashes]; auto.
        -- eapply ancestor_parent; eauto.
        -- intros path Hin. rewrite (Hagree path Hin). symmetry. by apply Hph.
        -- intros path Hin. split.
           ++ apply (getFileHashes_contentAt _ _ _ _ _ _ Efh Hin).
           ++ destruct (Hph path Hin) as [Heq _]. rewrite Heq. by apply Htracks.
    + exfalso. destruct (paths e') as [| path ps] eqn:Eps; [contradiction |].
      destruct (Htracks path) as [Ht Hnz]; [rewrite Eps; left |].
      apply Hnz. rewrite Ht, Hsame by left.
      apply (getFileHashes_failed_contentAt s p treePath (path :: ps)).
      intros m. rewrite Efh. discriminate.
    + exfalso. destruct (paths e') as [| path ps] eqn:Eps; [contradiction |].
      destruct (Htracks path) as [Ht Hnz]; [rewrite Eps; left |].
      apply Hnz. rewrite Ht, Hsame by left.
      apply (getFileHashes_failed_contentAt s p treePath (path :: ps)).
      intros m. rewrite Efh. discriminate.
  - (* the general case runs in both searches *)
    pose proof (loadParents_length _ _ _ _ _ El) as Hlen.
    pose proof (no_merges _ Hanc) as Hnp.
    destruct parents as [| p [| q rest]]; [| | simpl in Hlen; lia].
    + rewrite !generalCase_no_parents, Hc, Hp. split; [reflexivity | by left].
    + destruct (loadParents_parent _ _ _ _ _ p El) as [j Hj]; [left |].
      destruct (getFileHashes s p treePath (paths e')) as [ph | e0 |] eqn:Efh.
      * rewrite (generalCase_one_parent _ _ _ _ _ e' _ _ Efh).
        rewrite (generalCase_one_parent _ _ _ _ _ e p ph) by (by rewrite Hp).
        rewrite Hc, Hp.
        rewrite (slots_filter_agree deferred [ph] (hashes e) (hashes e')) by exact Hagree.
        rewrite (slots_filter_agree (fun slot => negb (deferred slot)) [ph]
                   (hashes e) (hashes e')) by exact Hagree.
        split; [reflexivity |].
        destruct (len (List.filter deferred (slotsOf [ph] (hashes e') (paths e'))).*1 >? 0)
          eqn:Erem; [| by left].
        apply len_positive_nonempty in Erem.
        assert (Hrem : forall path,
                  path ∈ (List.filter deferred (slotsOf [ph] (hashes e') (paths e'))).*1 ->
                  path ∈ paths e' /\ present ph path = true).
        { intros path Hin. apply elem_of_slots_filter in Hin as [Hin Hdef].
          split; [exact Hin |]. rewrite countPresent_one in Hdef.
          destruct (present ph path); [reflexivity | discriminate]. }
        unfold entryForParent.
        rewrite (filter_all (present ph)) by (intros; by apply Hrem).
        destruct (decide (ID p ∈ seen')); [by left |].
        right. left. eexists _, _. split; [reflexivity |]. split; [reflexivity |].
        split; [| auto].
        apply entries_match_intro; cbn [commit paths hashes]; auto.
        -- eapply ancestor_parent; eauto.
        -- intros path Hin. split.
           ++ apply (getFileHashes_contentAt _ _ _ _ _ _ Efh). by apply Hrem.
           ++ destruct (Hrem path Hin) as [_ Hpres]. unfold present in Hpres.
              apply negb_true_iff, N.eqb_neq in Hpres. exact Hpres.
      * rewrite (generalCase_parent_unreadable _ _ _ _ _ e' _ _ Efh).
        rewrite (generalCase_parent_unreadable _ _ _ _ _ e p e0) by (by rewrite Hp).
        rewrite Hc, Hp. split; [reflexivity | by left].
      * rewrite (generalCase_parent_panics _ _ _ _ _ e' _ Efh).
        rewrite (generalCase_parent_panics _ _ _ _ _ e p) by (by rewrite Hp).
        exact I.
Qed.

Lemma outcome_step (idx : CommitNodeIndex) (fuel : nat) (st : State) :
  outcome idx s treePath (S fuel) st =
    match step idx s treePath st with
    | Halt => Some (Some (resultNodes st))
    | Crash => Some None
    | Next _ st' => outcome idx s treePath fuel st'
    end.
Proof.
  unfold outcome. cbn [run].
  destruct (step idx s treePath st) as [| | ev st']; [reflexivity | reflexivity |].
  by destruct (run idx s treePath fuel st').
Qed.

Lemma step_empty (idx : CommitNodeIndex) (st : State) :
  Values (heap st) = [] -> step idx s treePath st = Halt.
Proof. intros Hv. unfold step. by rewrite (Pop_nil _ Hv). Qed.

Lemma step_singleton (idx : CommitNodeIndex) (st : State) (e : commitAndPaths) :
  Values (heap st) = [e] ->
  exists h', Values h' = [] /\
    step idx s treePath st =
      if decide (ID (commit e) ∈ seen st)
      then Next (AlreadySeen (commit e))
             {| seen := seen st; heap := h';
                resultNodes := resultNodes st; err := err st |}
      else match processEntry idx s treePath ({[ID (commit e)]} ∪ seen st)
                   (resultNodes st) (err st) e with
           | Crashed => Crash
           | Emitted r' pushes err' =>
               Next (Visited (commit e))
                 {| seen := {[ID (commit e)]} ∪ seen st; heap := pushAll h' pushes;
                    resultNodes := r'; err := err' |}
           end.
Proof.
  intros Hv. destruct (Pop_singleton _ _ Hv) as (h' & HP & Hv').
  exists h'. split; [exact Hv' |]. unfold step. rewrite HP. reflexivity.
Qed.

Lemma outcome_empty (idx : CommitNodeIndex) (fuel : nat) (st : State) :
  Values (heap st) = [] ->
  outcome idx s treePath (S fuel) st = Some (Some (resultNodes st)).
Proof. intros Hv. by rewrite outcome_step, step_empty. Qed.

(** The two searches end alike: whatever the search with the fast path ends
    with, the search without it ends with in as many iterations; and the
    search with the fast path needs at most one iteration more. *)
Lemma outcomes_match (fuel : nat) (st st' : State) :
  states_match index s treePath c0 st st' ->
  (forall x, outcome index s treePath fuel st = Some x ->
             outcome (withoutBloom index) s treePath fuel st' = Some x) /\
  (forall x, outcome (withoutBloom index) s treePath fuel st' = Some x ->
             outcome index s treePath (S fuel) st = Some x).
Proof.
  revert st st'. induction fuel as [| fuel IH]; intros st st' Hmatch.
  { split; intros x Hx; discriminate. }
  destruct Hmatch as (Hseen & Hres &
    [(Hf & Hg) | [(e & e' & Hf & Hg & Hm & Hef & Heg) | (e & Hf & Hg & Hin)]]).
  - (* both frontiers are empty *)
    rewrite !outcome_empty, Hres by assumption. auto.
  - (* one matching entry each *)
    destruct (step_singleton index st e Hf) as (h1 & Hh1 & Hstep).
    destruct (step_singleton (withoutBloom index) st' e' Hg) as (h1' & Hh1' & Hstep').
    rewrite (outcome_step index (S fuel)), !outcome_step, Hstep, Hstep'.
    pose proof Hm as (Hc & _). rewrite Hef, Heg, <- Hseen, <- Hres, <- Hc.
    destruct (decide (ID (commit e) ∈ seen st)) as [Hs | Hs].
    + apply IH. split; [reflexivity |]. split; [reflexivity |]. left. auto.
    + pose proof (process_match ({[ID (commit e)]} ∪ seen st) (resultNodes st) e e' Hm)
        as Hproc.
      destruct (processEntry index s treePath _ _ None e) as [| r1 pushes1 err1];
        destruct (processEntry (withoutBloom index) s treePath _ _ None e')
          as [| r2 pushes2 err2]; try contradiction.
      * auto.
      * destruct Hproc as (<- & Hpushes). apply IH.
        split; [reflexivity |]. split; [reflexivity |]. cbn [heap seen err].
        destruct Hpushes as [(-> & ->) | [(x & x' & -> & -> & Hx & -> & ->) | (x & -> & -> & Hx)]].
        -- left. simpl. auto.
        -- right. left. exists x, x'.
           split; [apply Values_singleton_perm; by rewrite Values_pushAll, Hh1 |].
           split; [apply Values_singleton_perm; by rewrite Values_pushAll, Hh1' |].
           auto.
        -- right. right. exists x.
           split; [apply Values_singleton_perm; by rewrite Values_pushAll, Hh1 |].
           simpl. auto.
  - (* the search without the fast path is done, the other one skips a seen commit *)
    destruct (step_singleton index st e Hf) as (h1 & Hh1 & Hstep).
    rewrite (outcome_step index (S fuel)), (outcome_step index fuel), Hstep.
    rewrite (outcome_empty (withoutBloom index) fuel st' Hg).
    destruct (decide (ID (commit e) ∈ seen st)); [| contradiction].
    split; intros x.
    + destruct fuel as [| fuel]; [discriminate |].
      rewrite outcome_empty by exact Hh1. cbn [resultNodes]. by rewrite Hres.
    + rewrite outcome_empty by exact Hh1. cbn [resultNodes]. by rewrite Hres.
Qed.

End FastPathSimulation.

Section FastPathResult.
Import object lastcommit.
Context {H : HeapOps commitAndPaths}.

Lemma materialize_withoutBloom (index : CommitNodeIndex)
  (l : list (string * CommitNode)) (acc : gmap string Commit) :
  materialize (withoutBloom index) l acc = materialize index l acc.
Proof.
  revert acc. induction l as [| [path commitNode] l IH]; intros acc; [reflexivity |].
  cbn [materialize Commit_of withoutBloom].
  destruct (Commit_of index commitNode); simpl; [apply IH | reflexivity | reflexivity].
Qed.

(** The query in terms of how its loop ends. *)
Lemma getLastCommitForPaths_outcome (index : CommitNodeIndex)
  (s : EncodedObjectStorer) (treePath : string) (c : CommitNode)
  (paths : list string) (fuel : nat) :
  getLastCommitForPaths index s treePath c paths fuel =
    match getFileHashes s c treePath paths with
    | Ok initialHashes =>
        match outcome index s treePath fuel (initialState c paths initialHashes) with
        | None => None
        | Some None => Some Panic
        | Some (Some r) => Some (materialize index (map_to_list r) ∅)
        end
    | Err e => Some (Err e)
    | Panic => Some Panic
    end.
Proof.
  unfold getLastCommitForPaths, outcome.
  destruct (getFileHashes s c treePath paths); [| reflexivity | reflexivity].
  by destruct (run index s treePath fuel _).2.
Qed.

End FastPathResult.

Section ExampleFilters.
Import object lastcommit examples.

Lemma contentAt_tree (s : EncodedObjectStorer) (treePath : string)
  (c : CommitNode) (tree : Tree) (path : string) :
  getCommitTree s c treePath = Ok tree ->
  contentAt s treePath c path = default ZeroHash (fileHash tree path).
Proof.
  intros Ht. unfold contentAt. rewrite (getFileHashes_tree _ _ _ _ _ Ht).
  unfold lookup0. rewrite fileHashes_fold_lookup, lookup_empty.
  destruct (decide (path ∈ [path])) as [_ | Hn]; [| exfalso; apply Hn; left].
  by destruct (fileHash tree path).
Qed.

Lemma fullPath_root (path : string) : fullPath "" path = path.
Proof. reflexivity. Qed.

(** The filters of the linear history are sound. *)
Lemma linear_filters_sound (c0 c : CommitNode) :
  c0 ∈ [FullCommit C3; FullCommit C2; FullCommit C1] ->
  ancestor linear_index_bloom c0 c ->
  filter_sound linear_index_bloom linear_store "" c.
Proof.
  intros Hstart Hanc. apply linear_ancestors in Hanc; [| exact Hstart].
  assert (Ht3 : getCommitTree linear_store (FullCommit C3) "" = Ok T3)
    by (vm_compute; reflexivity).
  assert (Ht2 : getCommitTree linear_store (FullCommit C2) "" = Ok T1)
    by (vm_compute; reflexivity).
  assert (Ht1 : getCommitTree linear_store (FullCommit C1) "" = Ok T1)
    by (vm_compute; reflexivity).
  repeat (apply elem_of_cons in Hanc as [-> | Hanc]); [| | | inversion Hanc];
    intros bloom Hb Hnp.
  - exists (FullCommit C2). split; [vm_compute; reflexivity |].
    intros path Hdiff. rewrite fullPath_root.
    vm_compute in Hb. injection Hb as <-. cbn [Test].
    destruct (decide (path = "a.txt")) as [-> | Hna]; [reflexivity |].
    destruct (decide (path = "")) as [-> | Hne]; [reflexivity |].
    exfalso. apply Hdiff.
    rewrite (contentAt_tree _ _ _ _ path Ht3), (contentAt_tree _ _ _ _ path Ht2).
    unfold fileHash. destruct (decide (path = "")); [contradiction |].
    unfold T3, T1, file. cbn [tree_Entries list_to_map foldr fst snd].
    rewrite !lookup_insert_ne by congruence. reflexivity.
  - exists (FullCommit C1). split; [vm_compute; reflexivity |].
    intros path Hdiff. exfalso. apply Hdiff.
    by rewrite (contentAt_tree _ _ _ _ path Ht2), (contentAt_tree _ _ _ _ path Ht1).
  - vm_compute in Hb. discriminate.
Qed.

Lemma linear_no_merges (c0 c : CommitNode) :
  c0 ∈ [FullCommit C3; FullCommit C2; FullCommit C1] ->
  ancestor linear_index_bloom c0 c ->
  NumParents linear_index_bloom c <= 1.
Proof.
  intros Hstart Hanc. apply linear_ancestors in Hanc; [| exact Hstart].
  repeat (apply elem_of_cons in Hanc as [-> | Hanc]); [| | | inversion Hanc];
    vm_compute; discriminate.
Qed.

End ExampleFilters.




Lemma zero_hash_entry_is_absent_witness :
  let current := lastcommit.mkCommitAndPaths (object.FullCommit examples.C2)
                   ["a.txt"; "ghost"]
                   (<[ "a.txt" := 11%N ]> (<[ "ghost" := 0%N ]> ∅)) in
  let current' := lastcommit.mkCommitAndPaths (object.FullCommit examples.C2)
                    ["a.txt"; "ghost"] (<[ "a.txt" := 11%N ]> ∅) in
  lastcommit.getFileHashes examples.ghost_store (object.FullCommit examples.C2) ""
    ["a.txt"; "ghost"] = Ok (lastcommit.hashes current) /\
  lastcommit.getFileHashes examples.linear_store (object.FullCommit examples.C2) ""
    ["a.txt"; "ghost"] = Ok (lastcommit.hashes current') /\
  lastcommit.processed_agree
    (lastcommit.processEntry examples.linear_index examples.ghost_store ""
       {[ 2%N ]} ∅ None current)
    (lastcommit.processEntry examples.linear_index examples.linear_store ""
       {[ 2%N ]} ∅ None current').
Proof.
  intros current current'.
  split; [vm_compute; reflexivity |]. split; [vm_compute; reflexivity |].
  apply (proj2 (proj2 (proj2 (zero_hash_entry_is_absent examples.linear_index "")))).
  - split; [reflexivity |]. split; [reflexivity |].
    intros path. unfold lookup0. cbn [lastcommit.hashes current current'].
    destruct (decide (path = "a.txt")) as [-> | Hna].
    + by rewrite !lookup_insert_eq.
    + rewrite !(lookup_insert_ne _ "a.txt") by congruence.
      destruct (decide (path = "ghost")) as [-> | Hng].
      * by rewrite lookup_insert_eq, lookup_empty.
      * by rewrite lookup_insert_ne by congruence.
  - intros j parent Hp. cbn [lastcommit.commit current] in Hp.
    apply ParentNode_without_graph in Hp as (h & co' & _ & Hh & Hg & ->).
    apply lookup_singleton_list in Hh as ->. vm_compute in Hg. injection Hg as <-.
    assert (Hz : lastcommit.getCommitTree examples.ghost_store
                   (object.FullCommit examples.C1) "" = Ok examples.T1z)
      by (vm_compute; reflexivity).
    assert (Hl : lastcommit.getCommitTree examples.linear_store
                   (object.FullCommit examples.C1) "" = Ok examples.T1)
      by (vm_compute; reflexivity).
    change (object.mkCommit 1%N 101%N [] 10) with examples.C1.
    rewrite Hz, Hl. split; [reflexivity |].
    intros path. unfold lastcommit.entryHash0, examples.T1z, examples.T1, examples.file.
    cbn [object.tree_Entries list_to_map foldr fst snd].
    destruct (decide (path = "a.txt")) as [-> | Hna].
    + by rewrite !lookup_insert_eq.
    + rewrite !(lookup_insert_ne _ "a.txt") by congruence.
      destruct (decide (path = "ghost")) as [-> | Hng].
      * by rewrite lookup_insert_eq, lookup_empty.
      * by rewrite lookup_insert_ne by congruence.
Defined.

(** In the merge history the answer for [f] is the newer parent [P2]; the
    older parent [P1], examined later, changed [f] as well and leaves the
    recorded answer alone. *)
Lemma merge_answer_is_kept :
  @lastcommit.getLastCommitForPaths examples.frontier examples.merge_index
     examples.merge_store "" (object.FullCommit examples.M) ["f"] 5
    = Some (Ok {[ "f" := examples.P2 ]}) /\
  lastcommit.processEntry examples.merge_index examples.merge_store ""
    {[ 2%N; 3%N; 4%N ]} {[ "f" := object.FullCommit examples.P2 ]} None
    (lastcommit.mkCommitAndPaths (object.FullCommit examples.P1) ["f"] {[ "f" := 22%N ]})
    = lastcommit.Emitted {[ "f" := object.FullCommit examples.P2 ]} [] None.
Proof. split; vm_compute; reflexivity. Qed.

(** * Further properties of the code *)

(** ** The in-memory index, as built by [Add] *)

Section BuiltIndex.
Import commitgraph memindex.

Lemma resolves_Add (mi mi' : MemoryIndex) (l : list (Hash * Node)) (hash : Hash)
  (node node' : Node) :
  resolves mi l -> Add mi hash node = Ok (mi', node') ->
  resolves mi' (l ++ [(hash, node)]).
Proof.
  intros Hres HA. apply Add_Ok in HA as (ps & _ & -> & Hdata & Hmap).
  intros h p. rewrite Hmap, Hdata.
  destruct (decide (hash = h)) as [-> | Hne].
  - rewrite lookup_insert_eq. intros [= <-]. unfold len. split; [lia |].
    exists node, ps. split; [apply elem_of_app; right; left |].
    rewrite Nat2Z.id, lookup_app_r by lia. by rewrite Nat.sub_diag.
  - rewrite lookup_insert_ne by exact Hne. intros Hp.
    destruct (Hres h p Hp) as (Hp0 & n & ps' & Hin & Hn).
    split; [exact Hp0 |]. exists n, ps'. split; [apply elem_of_app; by left |].
    rewrite lookup_app_l; [exact Hn | eapply lookup_lt_Some, Hn].
Qed.

Lemma resolves_AddAll (mi mi' : MemoryIndex) (l adds : list (Hash * Node)) :
  resolves mi l -> AddAll mi adds = Ok mi' -> resolves mi' (l ++ adds).
Proof.
  revert mi l. induction adds as [| [hash node] adds IH]; intros mi l Hres; simpl.
  - intros [= <-]. by rewrite app_nil_r.
  - destruct (Add mi hash node) as [[mi1 node1] | |] eqn:E; simpl;
      [| discriminate | discriminate].
    intros HA. rewrite (cons_middle _ l adds), app_assoc.
    eapply IH; [| exact HA]. eapply resolves_Add; eauto.
Qed.

Lemma resolves_New : resolves NewMemoryIndex [].
Proof. intros h p. simpl. rewrite lookup_empty. discriminate. Qed.

Lemma topological_Add (mi mi' : MemoryIndex) (hash : Hash) (node node' : Node) :
  positions_valid mi -> topological mi -> Add mi hash node = Ok (mi', node') ->
  topological mi'.
Proof.
  intros Hv Htop HA. apply Add_Ok in HA as (ps & Hps & -> & Hdata & _).
  apply resolveParents_Ok in Hps.
  intros k n. rewrite Hdata. intros Hk.
  apply lookup_app_Some in Hk as [Hk | [Hlen Hk]]; [by apply Htop |].
  apply list_lookup_singleton_Some in Hk as [Hk <-]. simpl. split.
  - symmetry. eapply Forall2_length, Hps.
  - apply Forall_forall. intros p Hp. apply list_elem_of_lookup in Hp as [i Hi].
    destruct (Forall2_lookup_r _ _ _ _ _ Hps Hi) as (h & _ & Hh).
    apply Hv in Hh. unfold len in Hh. lia.
Qed.

Lemma topological_AddAll (mi mi' : MemoryIndex) (adds : list (Hash * Node)) :
  positions_valid mi -> topological mi -> AddAll mi adds = Ok mi' ->
  topological mi'.
Proof.
  revert mi. induction adds as [| [hash node] adds IH]; intros mi Hv Htop; simpl.
  - intros [= <-]. exact Htop.
  - destruct (Add mi hash node) as [[mi1 node1] | |] eqn:E; simpl;
      [| discriminate | discriminate].
    apply IH; [eapply positions_valid_Add | eapply topological_Add]; eauto.
Qed.

Lemma topological_New : topological NewMemoryIndex.
Proof. intros k n. simpl. rewrite lookup_nil. discriminate. Qed.

Lemma dom_Add (mi mi' : MemoryIndex) (hash : Hash) (node node' : Node) :
  Add mi hash node = Ok (mi', node') ->
  dom (indexMap mi') = {[hash]} ∪ dom (indexMap mi).
Proof. intros HA. apply Add_Ok in HA as (ps & _ & _ & _ & ->). apply dom_insert_L. Qed.

Lemma dom_AddAll (mi mi' : MemoryIndex) (adds : list (Hash * Node)) :
  AddAll mi adds = Ok mi' ->
  dom (indexMap mi') = list_to_set adds.*1 ∪ dom (indexMap mi).
Proof.
  revert mi. induction adds as [| [hash node] adds IH]; intros mi; simpl.
  - intros [= <-]. by rewrite (left_id_L ∅ (∪)).
  - destruct (Add mi hash node) as [[mi1 node1] | |] eqn:E; simpl;
      [| discriminate | discriminate].
    intros HA. rewrite (IH _ HA), (dom_Add _ _ _ _ _ E).
    rewrite (assoc_L (∪)). f_equal. apply (comm_L (∪)).
Qed.

Lemma mirrored_Add (mi mi' : MemoryIndex) (hash : Hash) (node node' : Node) :
  mirrored mi -> hash ∉ dom (indexMap mi) -> Add mi hash node = Ok (mi', node') ->
  mirrored mi'.
Proof.
  intros Hm Hfresh HA. pose proof (Add_Ok _ _ _ _ _ HA) as (ps & Hps & -> & Hdata & _).
  apply resolveParents_Ok in Hps.
  assert (Hkeep : forall h p, GetIndexByHash mi h = Ok p -> GetIndexByHash mi' h = Ok p).
  { intros h p Hp. rewrite (Add_other_hash _ _ _ h _ _ HA); [exact Hp |].
    intros ->. apply Hfresh, elem_of_dom. apply GetIndexByHash_Ok in Hp. eauto. }
  intros k n i h. rewrite Hdata. intros Hk Hh.
  apply lookup_app_Some in Hk as [Hk | [Hlen Hk]].
  - destruct (Hm k n i h Hk Hh) as (p & Hp & Hq). eauto.
  - apply list_lookup_singleton_Some in Hk as [Hk <-]. simpl in *.
    destruct (Forall2_lookup_l _ _ _ _ _ Hps Hh) as (p & Hp & Hq).
    exists p. split; [exact Hp |]. apply Hkeep. by apply GetIndexByHash_Ok.
Qed.

Lemma mirrored_AddAll (mi mi' : MemoryIndex) (adds : list (Hash * Node)) :
  mirrored mi -> NoDup adds.*1 ->
  (forall h, h ∈ adds.*1 -> h ∉ dom (indexMap mi)) ->
  AddAll mi adds = Ok mi' -> mirrored mi'.
Proof.
  revert mi. induction adds as [| [hash node] adds IH]; intros mi Hm Hnd Hfresh; simpl.
  - intros [= <-]. exact Hm.
  - destruct (Add mi hash node) as [[mi1 node1] | |] eqn:E; simpl;
      [| discriminate | discriminate].
    simpl in Hnd. apply NoDup_cons in Hnd as [Hnot Hnd].
    apply IH; [| exact Hnd |].
    + eapply mirrored_Add; eauto. apply Hfresh. left.
    + intros h Hh. rewrite (dom_Add _ _ _ _ _ E).
      apply not_elem_of_union. split.
      * intros Heq. apply elem_of_singleton in Heq. subst h. contradiction.
      * apply Hfresh. by right.
Qed.

Lemma built_index_is_topological_aux (adds : list (Hash * Node)) (mi : MemoryIndex) :
  AddAll NewMemoryIndex adds = Ok mi -> topological mi.
Proof.
  apply topological_AddAll; [apply positions_valid_New | apply topological_New].
Qed.

End BuiltIndex.

(** X1.  In an index built from the empty one by successful [Add] calls,
    every hash [GetIndexByHash] finds has a position at which
    [GetNodeByIndex] returns a node, and that node carries the tree hash, the
    parent hashes and the time of a node that was added under this hash. *)
Theorem built_index_lookup_resolves (adds : list (Hash * commitgraph.Node))
  (mi : commitgraph.MemoryIndex) (h : Hash) (p : Z) :
  commitgraph.AddAll commitgraph.NewMemoryIndex adds = Ok mi ->
  commitgraph.GetIndexByHash mi h = Ok p ->
  exists n node,
    commitgraph.GetNodeByIndex mi p = Ok n /\
    (h, node) ∈ adds /\
    commitgraph.TreeHash n = commitgraph.TreeHash node /\
    commitgraph.ParentHashes n = commitgraph.ParentHashes node /\
    commitgraph.When n = commitgraph.When node.
Proof.
  intros Hbuilt Hp. apply GetIndexByHash_Ok in Hp.
  pose proof (resolves_AddAll _ _ [] adds resolves_New Hbuilt) as Hres.
  destruct (Hres h p Hp) as (Hp0 & node & ps & Hin & Hn).
  exists (commitgraph.withParentIndexes node ps), node.
  split; [| auto].
  assert (Hrange : 0 <= p < len (commitgraph.commitData mi)).
  { apply lookup_lt_Some in Hn. unfold len. lia. }
  destruct (proj1 (GetNodeByIndex_cases mi p) Hrange) as (n & Hn' & ->). congruence.
Qed.

Lemma built_index_lookup_resolves_witness :
  let leaf := commitgraph.mkNode 100%N [] [] 10 in
  let child := commitgraph.mkNode 101%N [1%N] [] 20 in
  exists mi n,
    commitgraph.AddAll commitgraph.NewMemoryIndex [(1%N, leaf); (2%N, child)] = Ok mi /\
    commitgraph.GetNodeByIndex mi 1 = Ok n /\
    commitgraph.ParentHashes n = [1%N].
Proof.
  intros leaf child. eexists.
  destruct (built_index_lookup_resolves [(1%N, leaf); (2%N, child)] _ 2%N 1
              eq_refl eq_refl) as (n & node & Hn & Hin & _ & Hph & _).
  exists n. split; [reflexivity |]. split; [exact Hn |].
  rewrite Hph. apply list_elem_of_In in Hin. simpl in Hin.
  destruct Hin as [[=] | [[= <-] | []]]. reflexivity.
Defined.





(** X4.  In an index built from the empty one by successful [Add] calls,
    [Hashes] lists exactly the hashes that were added, each of them once. *)
Theorem Hashes_are_the_added_hashes (adds : list (Hash * commitgraph.Node))
  (mi : commitgraph.MemoryIndex) :
  commitgraph.AddAll commitgraph.NewMemoryIndex adds = Ok mi ->
  NoDup (commitgraph.Hashes mi) /\
  forall h, h ∈ commitgraph.Hashes mi <-> h ∈ adds.*1.
Proof.
  intros Hbuilt. unfold commitgraph.Hashes. split; [apply NoDup_fst_map_to_list |].
  intros h.
  assert (Hdom : h ∈ (map_to_list (commitgraph.indexMap mi)).*1
                 <-> h ∈ dom (commitgraph.indexMap mi)).
  { rewrite elem_of_dom, list_elem_of_fmap. split.
    - intros ([k v] & -> & Hin). apply elem_of_map_to_list in Hin. eauto.
    - intros [v Hv]. exists (h, v). split; [reflexivity | by apply elem_of_map_to_list]. }
  rewrite Hdom, (dom_AddAll _ _ _ Hbuilt). simpl.
  rewrite dom_empty_L, (right_id_L ∅ (∪)). apply elem_of_list_to_set.
Qed.

Lemma Hashes_are_the_added_hashes_witness :
  let leaf := commitgraph.mkNode 100%N [] [] 10 in
  exists mi, commitgraph.AddAll commitgraph.NewMemoryIndex
               [(1%N, leaf); (2%N, leaf); (1%N, leaf)] = Ok mi /\
             NoDup (commitgraph.Hashes mi) /\
             (2%N ∈ commitgraph.Hashes mi).
Proof.
  intros leaf. eexists. split; [reflexivity |].
  destruct (Hashes_are_the_added_hashes [(1%N, leaf); (2%N, leaf); (1%N, leaf)] _ eq_refl)
    as [Hnd Hin].
  split; [exact Hnd |]. apply Hin. simpl. right. left.
Defined.

(** X5.  In an index built from the empty one by successful [Add] calls with
    pairwise distinct hashes, every stored node's parent positions are the
    positions the finished index gives for its parent hashes, slot by slot. *)
Theorem built_index_mirrors_parents (adds : list (Hash * commitgraph.Node))
  (mi : commitgraph.MemoryIndex) :
  commitgraph.AddAll commitgraph.NewMemoryIndex adds = Ok mi ->
  NoDup adds.*1 ->
  memindex.mirrored mi.
Proof.
  intros Hbuilt Hnd. eapply mirrored_AddAll; [| exact Hnd | | exact Hbuilt].
  - intros k n i h. simpl. rewrite lookup_nil. discriminate.
  - intros h _. simpl. rewrite dom_empty_L. apply not_elem_of_empty.
Qed.

Lemma built_index_mirrors_parents_witness :
  let leaf := commitgraph.mkNode 100%N [] [] 10 in
  let child := commitgraph.mkNode 101%N [1%N] [] 20 in
  exists mi, commitgraph.AddAll commitgraph.NewMemoryIndex
               [(1%N, leaf); (2%N, child)] = Ok mi /\
             memindex.mirrored mi.
Proof.
  intros leaf child. eexists. split; [reflexivity |].
  apply (built_index_mirrors_parents [(1%N, leaf); (2%N, child)]); [reflexivity |].
  simpl. apply NoDup_cons. split; [| apply NoDup_singleton].
  intros Hin. apply list_elem_of_singleton in Hin. discriminate.
Defined.

(** ** The graph-backed walker *)

(** X6.  [ParentNode] and [NumParents] of the graph-backed walker agree on
    the range of positions: at or beyond [NumParents] the answer is "parent
    not found", and a parent is only ever returned for a position from zero
    up to [NumParents]. *)
Theorem ParentNode_within_NumParents (gci : object.graphCommitNodeIndex)
  (node : object.CommitNode) (i : Z) :
  (object.graph_NumParents gci node <= i ->
   object.graph_ParentNode gci node i = Err ErrParentNotFound) /\
  (forall p, object.graph_ParentNode gci node i = Ok p ->
             0 <= i < object.graph_NumParents gci node).
Proof.
  destruct node as [cgn | co]; simpl.
  - split.
    + intros Hi. destruct (Z.geb_spec i (len (commitgraph.ParentIndexes (object.node cgn))));
        [by rewrite orb_true_r | lia].
    + intros p.
      destruct (Z.geb_spec i (len (commitgraph.ParentIndexes (object.node cgn))));
        [by rewrite orb_true_r |].
      destruct (len (commitgraph.ParentIndexes (object.node cgn)) =? 0); [discriminate |].
      simpl.
      destruct (index_slice (commitgraph.ParentIndexes (object.node cgn)) i)
        as [pi | |] eqn:Es; [| discriminate | discriminate].
      apply index_slice_Ok in Es as [Hi _]. intros _. lia.
  - split.
    + intros Hi. destruct (Z.geb_spec i (len (object.commit_ParentHashes co)));
        [by rewrite orb_true_r | lia].
    + intros p.
      destruct (Z.geb_spec i (len (object.commit_ParentHashes co)));
        [by rewrite orb_true_r |].
      destruct (len (object.commit_ParentHashes co) =? 0); [discriminate |].
      simpl.
      destruct (index_slice (object.commit_ParentHashes co) i)
        as [h | |] eqn:Es; [| discriminate | discriminate].
      apply index_slice_Ok in Es as [Hi _]. intros _. lia.
Qed.



(** X8.  Whatever backing a parent comes from, turning it into a full commit
    gives what the object store holds under the parent hash: when
    [ParentNode] returns a parent for position [i], [Commit] of that parent is
    [GetCommit] of the [i]-th hash of [ParentHashes]. *)
Theorem Commit_of_parent_is_stored_commit (gci : object.graphCommitNodeIndex)
  (node p : object.CommitNode) (i : Z) :
  object.graph_ParentNode gci node i = Ok p ->
  exists h,
    object.graph_ParentHashes gci node !! Z.to_nat i = Some h /\
    object.graph_Commit gci p = object.GetCommit (object.s gci) h.
Proof.
  destruct node as [cgn | co]; simpl.
  - destruct ((len (commitgraph.ParentIndexes (object.node cgn)) =? 0)
              || (i >=? len (commitgraph.ParentIndexes (object.node cgn))));
      [discriminate |].
    destruct (index_slice (commitgraph.ParentIndexes (object.node cgn)) i)
      as [pi | |]; [| discriminate | discriminate]. simpl.
    destruct (commitgraph.GetNodeByIndex (object.commitGraph gci) pi)
      as [pn | |]; [| discriminate | discriminate]. simpl.
    destruct (index_slice (commitgraph.ParentHashes (object.node cgn)) i)
      as [ph | |] eqn:Es; [| discriminate | discriminate]. simpl.
    intros [= <-]. apply index_slice_Ok in Es as [_ Es]. exists ph. auto.
  - destruct ((len (object.commit_ParentHashes co) =? 0)
              || (i >=? len (object.commit_ParentHashes co))); [discriminate |].
    destruct (index_slice (object.commit_ParentHashes co) i)
      as [ph | |] eqn:Es; [| discriminate | discriminate]. simpl.
    apply index_slice_Ok in Es as [_ Es].
    destruct (commitgraph.GetIndexByHash (object.commitGraph gci) ph) as [pi | e |];
      [| | discriminate].
    + destruct (commitgraph.GetNodeByIndex (object.commitGraph gci) pi)
        as [pn | |]; [| discriminate | discriminate]. simpl.
      intros [= <-]. exists ph. auto.
    + destruct (object.GetCommit (object.s gci) ph) as [co' | |] eqn:Eg;
        [| discriminate | discriminate]. simpl.
      intros [= <-]. exists ph. auto.
Qed.

Lemma Commit_of_parent_is_stored_commit_witness :
  object.graph_Commit examples.partial_gci
    (object.GraphNode
       (object.mkGraphCommitNode 1%N 0 (commitgraph.mkNode 101%N [] [] 10)))
  = Ok examples.C1.
Proof.
  destruct (Commit_of_parent_is_stored_commit examples.partial_gci
              (object.FullCommit examples.Mixed)
              (object.GraphNode
                 (object.mkGraphCommitNode 1%N 0 (commitgraph.mkNode 101%N [] [] 10)))
              0 ltac:(vm_compute; reflexivity))
    as (h & Hh & Hc).
  simpl in Hh. injection Hh as <-. rewrite Hc. vm_compute. reflexivity.
Defined.

(** ** The iterator over parents *)

Section ParentIterator.
Import object parentiter.
Context {S : Type}.
Variable cb : S -> CommitNode -> S * option iterError.
Variable index : CommitNodeIndex.
Variable nd : CommitNode.

Lemma ForEach_feed (objs : list CommitNode) (k : Z) (st : S) (fuel : nat) :
  (forall j obj, objs !! j = Some obj ->
     ParentNode index nd (k + Z.of_nat j) = Ok obj) ->
  (forall obj, ParentNode index nd (k + len objs) <> Ok obj) ->
  (length objs < fuel)%nat ->
  ForEach fuel cb st (mkParentCommitNodeIter index nd k) =
    let '(st', n, e) := feed cb st objs in
    Some (st', mkParentCommitNodeIter index nd (k + Z.of_nat n),
          match e with
          | Some e => Returned (afterCallback e)
          | None => atEnd (ParentNode index nd (k + len objs))
          end).
Proof.
  revert k st fuel. induction objs as [| obj objs IH]; intros k st fuel Hobjs Hend Hfuel.
  - destruct fuel as [| fuel]; [simpl in Hfuel; lia |].
    cbn [ForEach feed]. unfold Next, len in *. cbn [gci node i length] in *.
    rewrite Z.add_0_r in *.
    destruct (ParentNode index nd k) as [obj | e |] eqn:E.
    + exfalso. by eapply Hend.
    + destruct e; reflexivity.
    + reflexivity.
  - destruct fuel as [| fuel]; [simpl in Hfuel; lia |].
    cbn [ForEach feed]. unfold Next. cbn [gci node i].
    pose proof (Hobjs 0%nat obj eq_refl) as H0. rewrite Z.add_0_r in H0. rewrite H0.
    destruct (cb st obj) as [st' [e |]] eqn:Ecb.
    + replace (k + Z.of_nat 1) with (k + 1) by lia. destruct e; reflexivity.
    + rewrite (IH (k + 1) st' fuel).
      * destruct (feed cb st' objs) as [[st'' n] e].
        replace (k + 1 + Z.of_nat n) with (k + Z.of_nat (Datatypes.S n)) by lia.
        replace (k + 1 + len objs) with (k + len (obj :: objs))
          by (unfold len; simpl length; lia).
        reflexivity.
      * intros j o Hj. replace (k + 1 + Z.of_nat j) with (k + Z.of_nat (Datatypes.S j)) by lia.
        by apply Hobjs.
      * intros o. replace (k + 1 + len objs) with (k + len (obj :: objs))
          by (unfold len; simpl length; lia). apply Hend.
      * simpl in Hfuel. lia.
Qed.

End ParentIterator.

(** X9.  [ForEach] gives the callback the parents in declared order, starting
    at the first one, until the callback returns an error or the walker has
    no further parent.  It then returns nil if the callback asked to stop or
    the parents ran out, the callback's error otherwise, and the walker's
    error if the walker failed; the callback has seen the parents up to that
    point and no others, and the iterator has advanced by as many. *)
Theorem ForEach_visits_parents_in_order {S : Type}
  (cb : S -> object.CommitNode -> S * option parentiter.iterError)
  (index : object.CommitNodeIndex) (nd : object.CommitNode)
  (objs : list object.CommitNode) (st : S) (fuel : nat) :
  (forall j obj, objs !! j = Some obj ->
     object.ParentNode index nd (Z.of_nat j) = Ok obj) ->
  (forall obj, object.ParentNode index nd (len objs) <> Ok obj) ->
  (length objs < fuel)%nat ->
  parentiter.ForEach fuel cb st (parentiter.newParentgraphCommitNodeIter index nd) =
    let '(st', n, e) := parentiter.feed cb st objs in
    Some (st', parentiter.mkParentCommitNodeIter index nd (Z.of_nat n),
          match e with
          | Some e => parentiter.Returned (parentiter.afterCallback e)
          | None => parentiter.atEnd (object.ParentNode index nd (len objs))
          end).
Proof.
  intros Hobjs Hend Hfuel. unfold parentiter.newParentgraphCommitNodeIter.
  rewrite (ForEach_feed cb index nd objs 0 st fuel);
    [reflexivity | exact Hobjs | exact Hend | exact Hfuel].
Qed.

(** The spec's early stop, on the merge [Mixed]: the callback logs the node
    and asks to stop; [ForEach] returns nil with one node logged. *)
Lemma ForEach_visits_parents_in_order_witness :
  let idx := object.NewGraphCommitNodeIndex examples.partial_graph
               examples.linear_store (fun _ => None) in
  let stop := fun (log : list Hash) (obj : object.CommitNode) =>
                (log ++ [object.ID obj], Some parentiter.ErrStop) in
  let all := fun (log : list Hash) (obj : object.CommitNode) =>
               (log ++ [object.ID obj], @None parentiter.iterError) in
  parentiter.ForEach 3 stop []
    (parentiter.newParentgraphCommitNodeIter idx (object.FullCommit examples.Mixed))
  = Some ([1%N], parentiter.mkParentCommitNodeIter idx (object.FullCommit examples.Mixed) 1,
          parentiter.Returned None) /\
  parentiter.ForEach 3 all []
    (parentiter.newParentgraphCommitNodeIter idx (object.FullCommit examples.Mixed))
  = Some ([1%N; 3%N],
          parentiter.mkParentCommitNodeIter idx (object.FullCommit examples.Mixed) 2,
          parentiter.Returned None).
Proof.
  intros idx stop all.
  pose (objs := [object.GraphNode
                   (object.mkGraphCommitNode 1%N 0 (commitgraph.mkNode 101%N [] [] 10));
                 object.FullCommit examples.C3]).
  assert (Hobjs : forall j obj, objs !! j = Some obj ->
            object.ParentNode idx (object.FullCommit examples.Mixed) (Z.of_nat j) = Ok obj).
  { intros [| [| j]] obj Hj; simpl in Hj; try discriminate;
      injection Hj as <-; vm_compute; reflexivity. }
  assert (Hend : forall obj,
            object.ParentNode idx (object.FullCommit examples.Mixed) (len objs) <> Ok obj).
  { intros obj. vm_compute. discriminate. }
  split.
  - rewrite (ForEach_visits_parents_in_order stop idx _ objs [] 3 Hobjs Hend);
      [reflexivity | simpl; lia].
  - rewrite (ForEach_visits_parents_in_order all idx _ objs [] 3 Hobjs Hend);
      [reflexivity | simpl; lia].
Defined.

(** ** The history query: what it visits and what it answers *)

Section SearchInvariants.
Import object lastcommit.

Lemma processEntry_origin_path (index : CommitNodeIndex) (s : EncodedObjectStorer)
  (treePath : string) (seen : gset Hash) (r : gmap string CommitNode)
  (err : option error) (current : commitAndPaths)
  (r' : gmap string CommitNode) (pushes : list commitAndPaths)
  (err' : option error) (path : string) (c : CommitNode) :
  processEntry index s treePath seen r err current = Emitted r' pushes err' ->
  r' !! path = Some c ->
  r !! path = Some c \/
  (r !! path = None /\ c = commit current /\ path ∈ paths current).
Proof.
  intros Hp Hr.
  apply processEntry_Emitted in Hp as (parents & _ & [(_ & _ & parent & _ & -> & _) | [_ Hg]]);
    [by left |].
  apply generalCase_Emitted in Hg as (sc & _ & _ & -> & _).
  apply recordAll_origin in Hr as [Hr | (Hr & -> & Hin)]; [by left |].
  right. repeat split; [exact Hr |].
  by apply elem_of_slots_filter in Hin as [Hin _].
Qed.

Lemma processEntry_pushes_paths (index : CommitNodeIndex) (s : EncodedObjectStorer)
  (treePath : string) (seen : gset Hash) (r : gmap string CommitNode)
  (err : option error) (current : commitAndPaths)
  (r' : gmap string CommitNode) (pushes : list commitAndPaths)
  (err' : option error) (e : commitAndPaths) (path : string) :
  processEntry index s treePath seen r err current = Emitted r' pushes err' ->
  e ∈ pushes -> path ∈ paths e -> path ∈ paths current.
Proof.
  intros Hp Hin Hpath.
  apply processEntry_Emitted in Hp
    as (parents & Hl & [(_ & _ & parent & Hpar & _ & _ & ->) | [_ Hg]]).
  - apply list_elem_of_singleton in Hin as ->. exact Hpath.
  - apply generalCase_Emitted in Hg as (sc & _ & _ & _ & -> & _).
    destruct (len _ >? 0); [| inversion Hin].
    apply entriesForParents_elem in Hin as (j & ph & _ & _ & _ & Hpaths & _).
    rewrite Hpaths in Hpath. apply elem_of_filter_present in Hpath as [Hpath _].
    by apply elem_of_slots_filter in Hpath as [Hpath _].
Qed.

Lemma processEntry_pushes_length (index : CommitNodeIndex) (s : EncodedObjectStorer)
  (treePath : string) (seen : gset Hash) (r : gmap string CommitNode)
  (err : option error) (current : commitAndPaths)
  (r' : gmap string CommitNode) (pushes : list commitAndPaths)
  (err' : option error) :
  processEntry index s treePath seen r err current = Emitted r' pushes err' ->
  (length pushes <= Nat.max 1 (Z.to_nat (NumParents index (commit current))))%nat.
Proof.
  intros Hp.
  apply processEntry_Emitted in Hp
    as (parents & Hl & [(_ & _ & parent & Hpar & _ & _ & ->) | [_ Hg]]).
  - simpl. lia.
  - apply loadParents_length in Hl.
    apply generalCase_Emitted in Hg as (sc & _ & Hlen & _ & -> & _).
    destruct (len _ >? 0); [| simpl; lia].
    assert (Hle : forall rem (ps : list CommitNode) phs,
              (length (entriesForParents seen rem ps phs) <= length ps)%nat).
    { intros rem ps. induction ps as [| q ps IH]; intros [| ph phs];
        try (unfold entriesForParents; simpl; lia).
      change (entriesForParents seen rem (q :: ps) (ph :: phs))
        with (entryForParent seen rem (q, ph) ++ entriesForParents seen rem ps phs).
      rewrite length_app. specialize (IH phs). unfold entryForParent.
      destruct (decide (ID q ∈ seen)); simpl; lia. }
    specialize (Hle (List.filter deferred
                       (slotsOf (parentHashes sc) (hashes current) (paths current))).*1
                  parents (parentHashes sc)).
    lia.
Qed.

Context {H : HeapOps commitAndPaths} {HL : HeapLaws byCommitTime H}.
Variable index : CommitNodeIndex.
Variable s : EncodedObjectStorer.
Variable treePath : string.
Variable c0 : CommitNode.
Variable paths0 : list string.

#[local] Abbreviation well_scoped := (searchinv.well_scoped index c0 paths0).

Lemma step_cases (st st' : State) (ev : Event) :
  step index s treePath st = Next ev st' ->
  exists x h',
    Pop (heap st) = Some (x, h') /\
    ((ev = AlreadySeen (commit x) /\ ID (commit x) ∈ seen st /\
      st' = {| seen := seen st; heap := h';
               resultNodes := resultNodes st; err := err st |}) \/
     (ev = Visited (commit x) /\ (ID (commit x) ∉ seen st) /\
      exists r' pushes err',
        processEntry index s treePath ({[ID (commit x)]} ∪ seen st)
          (resultNodes st) (err st) x = Emitted r' pushes err' /\
        st' = {| seen := {[ID (commit x)]} ∪ seen st; heap := pushAll h' pushes;
                 resultNodes := r'; err := err' |})).
Proof.
  unfold step. destruct (Pop (heap st)) as [[x h'] |]; [| discriminate].
  intros Hs. exists x, h'. split; [reflexivity |].
  destruct (decide (ID (commit x) ∈ seen st)) as [Hin | Hout].
  - left. injection Hs as <- <-. auto.
  - right. destruct (processEntry _ _ _ _ _ _ x) as [| r' pushes err'] eqn:Ep;
      [discriminate |].
    injection Hs as <- <-. eauto 10.
Qed.

Lemma well_scoped_step (st st' : State) (ev : Event) :
  well_scoped st -> step index s treePath st = Next ev st' -> well_scoped st'.
Proof.
  intros [Hheap Hres] Hstep.
  apply step_cases in Hstep as (x & h' & HP & Hcase).
  destruct (Pop_first _ _ _ HP) as [Hperm _]. rewrite Hperm in Hheap.
  apply Forall_cons in Hheap as [[Hanc Hpaths] Hrest].
  destruct Hcase as [(_ & _ & ->) | (_ & _ & r' & pushes & err' & Ep & ->)].
  - split; [exact Hrest | exact Hres].
  - split; cbn [heap resultNodes].
    + rewrite Values_pushAll. apply Forall_app. split; [exact Hrest |].
      apply Forall_forall. intros e He. split.
      * destruct (processEntry_pushes_parents _ _ _ _ _ _ _ _ _ _ _ Ep He) as [j Hj].
        eapply ancestor_parent; eauto.
      * intros path Hpath. apply Hpaths.
        eapply processEntry_pushes_paths; eauto.
    + intros path c Hc.
      destruct (processEntry_origin_path _ _ _ _ _ _ _ _ _ _ _ _ Ep Hc)
        as [Hold | (_ & -> & Hin)]; [by apply Hres | auto].
Qed.

Lemma well_scoped_reaches (st st' : State) :
  well_scoped st -> reaches index s treePath st st' -> well_scoped st'.
Proof.
  intros Hws Hreach. induction Hreach as [st | st st1 st2 ev Hstep _ IH]; [exact Hws |].
  apply IH. eapply well_scoped_step; eauto.
Qed.

Lemma well_scoped_initial (h0 : gmap string Hash) :
  well_scoped (initialState c0 paths0 h0).
Proof.
  split; cbn [heap resultNodes initialState].
  - rewrite Values_Push, Values_NewWith. constructor; [| constructor].
    simpl. split; [constructor | auto].
  - intros path c. rewrite lookup_empty. discriminate.
Qed.

(** The visited commits carry pairwise distinct hashes, none of them seen
    before. *)
Lemma run_visits_distinct (fuel : nat) (st : State) :
  NoDup (ID <$> visited (run index s treePath fuel st).1) /\
  forall c, c ∈ visited (run index s treePath fuel st).1 -> ID c ∉ seen st.
Proof.
  revert st. induction fuel as [| fuel IH]; intros st.
  { simpl. split; [constructor | intros c Hc; inversion Hc]. }
  cbn [run]. destruct (step index s treePath st) as [| | ev st'] eqn:Hstep;
    try solve [simpl; split; [constructor | intros c Hc; inversion Hc]].
  specialize (IH st'). destruct (run index s treePath fuel st') as [evs fin].
  cbn [fst] in *. destruct IH as [Hnd Hnot].
  apply step_cases in Hstep as (x & h' & _ & [(-> & _ & ->) | (-> & Hout & r' & pushes & err' & _ & ->)]).
  - rewrite visited_cons_AlreadySeen. auto.
  - rewrite visited_cons_Visited, fmap_cons. cbn [seen] in Hnot. split.
    + apply NoDup_cons. split; [| exact Hnd].
      intros Hin. apply list_elem_of_fmap in Hin as (c & Hc & Hin).
      apply (Hnot c Hin). rewrite <- Hc. apply elem_of_union. left.
      by apply elem_of_singleton.
    + intros c Hc. apply elem_of_cons in Hc as [-> | Hc]; [exact Hout |].
      intros Hin. apply (Hnot c Hc). apply elem_of_union. by right.
Qed.

Lemma run_visits_ancestors (fuel : nat) (st : State) :
  well_scoped st ->
  forall c, c ∈ visited (run index s treePath fuel st).1 -> ancestor index c0 c.
Proof.
  revert st. induction fuel as [| fuel IH]; intros st Hws c.
  { simpl. intros Hc. inversion Hc. }
  cbn [run]. destruct (step index s treePath st) as [| | ev st'] eqn:Hstep;
    try solve [simpl; intros Hc; inversion Hc].
  specialize (IH st' (well_scoped_step _ _ _ Hws Hstep) c).
  destruct (run index s treePath fuel st') as [evs fin]. cbn [fst] in *.
  apply step_cases in Hstep as (x & h' & HP & Hcase).
  destruct Hws as [Hheap _]. destruct (Pop_first _ _ _ HP) as [Hperm _].
  rewrite Hperm in Hheap. apply Forall_cons in Hheap as [[Hanc _] _].
  destruct Hcase as [(-> & _) | (-> & _)].
  - rewrite visited_cons_AlreadySeen. exact IH.
  - rewrite visited_cons_Visited. intros Hc.
    apply elem_of_cons in Hc as [-> | Hc]; [exact Hanc | by apply IH].
Qed.

End SearchInvariants.

Section Materialize.
Import object lastcommit.
Context {H : HeapOps commitAndPaths}.
Variable index : CommitNodeIndex.

Lemma materialize_origin (l : list (string * CommitNode))
  (acc m : gmap string Commit) (path : string) (co : Commit) :
  materialize index l acc = Ok m -> m !! path = Some co ->
  acc !! path = Some co \/
  exists a, (path, a) ∈ l /\ Commit_of index a = Ok co.
Proof.
  revert acc. induction l as [| [p a] l IH]; intros acc; simpl.
  - intros [= <-]. auto.
  - destruct (Commit_of index a) as [c | |] eqn:Ec; simpl; [| discriminate | discriminate].
    intros Hm Hco. destruct (IH _ Hm Hco) as [Hacc | (a' & Hin & Ha')].
    + destruct (decide (p = path)) as [-> | Hne].
      * rewrite lookup_insert_eq in Hacc. injection Hacc as ->.
        right. exists a. split; [left | exact Ec].
      * rewrite lookup_insert_ne in Hacc by exact Hne. by left.
    + right. exists a'. split; [by right | exact Ha'].
Qed.

Lemma materialize_constant (l : list (string * CommitNode))
  (acc : gmap string Commit) (co : Commit) :
  (forall p a, (p, a) ∈ l -> Commit_of index a = Ok co) ->
  exists m, materialize index l acc = Ok m /\
    forall path, m !! path = if decide (path ∈ l.*1) then Some co else acc !! path.
Proof.
  revert acc. induction l as [| [p a] l IH]; intros acc Hall; simpl.
  - exists acc. split; [reflexivity |]. intros path.
    destruct (decide (path ∈ [])) as [Hin | _]; [inversion Hin | reflexivity].
  - rewrite (Hall p a) by left. simpl.
    destruct (IH (<[p := co]> acc)) as (m & Hm & Hlook).
    { intros q b Hin. apply (Hall q b). by right. }
    exists m. split; [exact Hm |]. intros path. rewrite Hlook.
    destruct (decide (path ∈ l.*1)) as [Hin | Hnin].
    + destruct (decide (path ∈ _ :: _)) as [_ | Hn]; [reflexivity |].
      exfalso. apply Hn. by right.
    + destruct (decide (path = p)) as [-> | Hne].
      * rewrite lookup_insert_eq.
        destruct (decide (p ∈ _ :: _)) as [_ | Hn]; [reflexivity |].
        exfalso. apply Hn. left.
      * rewrite lookup_insert_ne by (intros Heq; apply Hne; by symmetry).
        destruct (decide (path ∈ _ :: _)) as [Hin | _]; [| reflexivity].
        apply elem_of_cons in Hin as [-> | Hin]; contradiction.
Qed.

Lemma recordAll_lookup (c : CommitNode) (ps : list string)
  (r : gmap string CommitNode) (p : string) :
  foldl (fun r p => recordResult r p c) r ps !! p =
    match r !! p with
    | Some x => Some x
    | None => if decide (p ∈ ps) then Some c else None
    end.
Proof.
  revert r. induction ps as [| q ps IH]; intros r; simpl.
  - destruct (r !! p); [reflexivity |].
    destruct (decide (p ∈ [])) as [Hin | _]; [inversion Hin | reflexivity].
  - rewrite IH, recordResult_lookup. destruct (r !! p); [reflexivity |].
    destruct (decide (p = q)) as [-> | Hne].
    + destruct (decide (q ∈ q :: ps)) as [_ | Hn]; [reflexivity |].
      exfalso. apply Hn. left.
    + destruct (decide (p ∈ ps)) as [Hin | Hnin].
      * destruct (decide (p ∈ q :: ps)) as [_ | Hn]; [reflexivity |].
        exfalso. apply Hn. by right.
      * destruct (decide (p ∈ q :: ps)) as [Hin | _]; [| reflexivity].
        apply elem_of_cons in Hin as [-> | Hin]; contradiction.
Qed.

Lemma run_Broke (s : EncodedObjectStorer) (treePath : string) (fuel : nat)
  (st st' : State) :
  (run index s treePath fuel st).2 = Broke st' -> reaches index s treePath st st'.
Proof.
  destruct (run index s treePath fuel st) as [evs fin] eqn:Er. simpl.
  intros ->. eapply run_reaches, Er.
Qed.

End Materialize.

(** X10.  The mapping [getLastCommitForPaths] returns has answers for
    requested paths only, and every answer is the full commit of a commit
    that the walker reaches from the starting commit. *)
Theorem answers_are_scoped {H : HeapOps lastcommit.commitAndPaths}
  (HL : HeapLaws lastcommit.byCommitTime H)
  (index : object.CommitNodeIndex) (s : object.EncodedObjectStorer)
  (treePath : string) (c : object.CommitNode) (paths : list string)
  (fuel : nat) (m : gmap string object.Commit) (path : string) (co : object.Commit) :
  lastcommit.getLastCommitForPaths index s treePath c paths fuel = Some (Ok m) ->
  m !! path = Some co ->
  path ∈ paths /\
  exists a, lastcommit.ancestor index c a /\ object.Commit_of index a = Ok co.
Proof.
  unfold lastcommit.getLastCommitForPaths.
  destruct (lastcommit.getFileHashes s c treePath paths) as [h0 | |];
    [| discriminate | discriminate].
  destruct (lastcommit.run index s treePath fuel _).2 as [| | st] eqn:Er;
    [discriminate | discriminate |].
  intros [= Hm] Hco. apply run_Broke in Er.
  pose proof (well_scoped_reaches index s treePath c paths _ _
                (well_scoped_initial index c paths h0) Er) as [_ Hres].
  destruct (materialize_origin index _ _ _ _ _ Hm Hco) as [Hacc | (a & Hin & Ha)].
  - rewrite lookup_empty in Hacc. discriminate.
  - apply elem_of_map_to_list in Hin. destruct (Hres _ _ Hin) as [Hp Hanc]. eauto.
Qed.

Lemma answers_are_scoped_witness :
  "f" ∈ ["f"; "g"] /\
  exists a, lastcommit.ancestor examples.merge_index (object.FullCommit examples.M) a /\
            object.Commit_of examples.merge_index a = Ok examples.P2.
Proof.
  apply (answers_are_scoped frontier_laws examples.merge_index examples.merge_store ""
           (object.FullCommit examples.M) ["f"; "g"] 6
           {[ "f" := examples.P2; "g" := examples.M ]} "f" examples.P2).
  - vm_compute. reflexivity.
  - reflexivity.
Defined.

(** X11.  Within one run of the loop no commit hash is processed twice, and
    every processed commit is one the walker reaches from the starting
    commit. *)
Theorem visits_are_distinct_ancestors {H : HeapOps lastcommit.commitAndPaths}
  (HL : HeapLaws lastcommit.byCommitTime H)
  (index : object.CommitNodeIndex) (s : object.EncodedObjectStorer)
  (treePath : string) (c : object.CommitNode) (paths : list string)
  (initialHashes : gmap string Hash) (fuel : nat) :
  NoDup (object.ID <$>
           lastcommit.visited
             (lastcommit.run index s treePath fuel
                (lastcommit.initialState c paths initialHashes)).1) /\
  forall a, a ∈ lastcommit.visited
                  (lastcommit.run index s treePath fuel
                     (lastcommit.initialState c paths initialHashes)).1 ->
            lastcommit.ancestor index c a.
Proof.
  split.
  - apply run_visits_distinct.
  - apply (run_visits_ancestors index s treePath c paths).
    apply well_scoped_initial.
Qed.

Lemma visits_are_distinct_ancestors_witness :
  NoDup (object.ID <$>
           lastcommit.visited
             (@lastcommit.run examples.frontier examples.merge_index
                examples.merge_store "" 6
                (@lastcommit.initialState examples.frontier
                   (object.FullCommit examples.M) ["f"] {[ "f" := 23%N ]})).1).
Proof.
  apply (visits_are_distinct_ancestors frontier_laws examples.merge_index
           examples.merge_store "" (object.FullCommit examples.M) ["f"]
           {[ "f" := 23%N ]} 6).
Defined.

(** ** The history query: when it ends *)

Section Termination.
Import object lastcommit.
Context {H : HeapOps commitAndPaths} {HL : HeapLaws byCommitTime H}.
Variable index : CommitNodeIndex.
Variable s : EncodedObjectStorer.
Variable treePath : string.
Variable c0 : CommitNode.
Variable paths0 : list string.
Variable universe : gset Hash.
Variable width : nat.
Hypothesis ancestors_known : forall a, ancestor index c0 a -> ID a ∈ universe.
Hypothesis ancestors_narrow : forall a, ancestor index c0 a ->
  NumParents index a <= Z.of_nat width.
Hypothesis width_positive : (1 <= width)%nat.

Lemma unseen_shrinks (x : Hash) (seen : gset Hash) :
  x ∈ universe -> x ∉ seen ->
  size (universe ∖ seen) = Datatypes.S (size (universe ∖ ({[x]} ∪ seen))).
Proof.
  intros Hx Hnot.
  replace (universe ∖ seen) with ({[x]} ∪ universe ∖ ({[x]} ∪ seen)).
  - rewrite size_union, size_singleton; [reflexivity |].
    apply disjoint_singleton_l. intros Hin. apply elem_of_difference in Hin as [_ Hin].
    apply Hin, elem_of_union. left. by apply elem_of_singleton.
  - apply set_eq. intros y.
    rewrite elem_of_union, !elem_of_difference, elem_of_union, !elem_of_singleton.
    split.
    + intros [-> | [Hy Hn]]; [auto |]. split; [exact Hy |]. intros Hs. apply Hn. by right.
    + intros [Hy Hn]. destruct (decide (y = x)) as [-> | Hne]; [by left |].
      right. split; [exact Hy |]. intros [Heq | Hs]; contradiction.
Qed.

(** The loop ends before the fuel runs out when the fuel exceeds the number
    of frontier entries plus [width + 1] for each commit hash not yet seen. *)
Lemma run_ends (fuel : nat) (st : State) :
  searchinv.well_scoped index c0 paths0 st ->
  (length (Values (heap st)) + (width + 1) * size (universe ∖ seen st) < fuel)%nat ->
  (run index s treePath fuel st).2 <> OutOfFuel.
Proof.
  revert st. induction fuel as [| fuel IH]; intros st Hws Hfuel; [lia |].
  cbn [run]. destruct (step index s treePath st) as [| | ev st'] eqn:Hstep;
    [discriminate | discriminate |].
  pose proof (well_scoped_step index s treePath c0 paths0 _ _ _ Hws Hstep) as Hws'.
  specialize (IH st' Hws').
  destruct (run index s treePath fuel st') as [evs fin]. cbn [snd] in *.
  apply IH. clear IH.
  apply step_cases in Hstep as (x & h' & HP & Hcase).
  destruct Hws as [Hheap _]. destruct (Pop_first _ _ _ HP) as [Hperm _].
  rewrite Hperm in Hheap. apply Forall_cons in Hheap as [[Hanc _] _].
  apply Permutation_length in Hperm. simpl in Hperm.
  destruct Hcase as [(_ & _ & ->) | (_ & Hout & r' & pushes & err' & Ep & ->)];
    cbn [heap seen].
  - lia.
  - rewrite (unseen_shrinks (ID (commit x)) (seen st)) in Hfuel
      by (auto using ancestors_known).
    rewrite Nat.mul_succ_r in Hfuel.
    assert (Hpush : (length (Values (pushAll h' pushes))
                     = length (Values h') + length pushes)%nat).
    { rewrite (Permutation_length (Values_pushAll h' pushes)). apply length_app. }
    pose proof (processEntry_pushes_length _ _ _ _ _ _ _ _ _ _ Ep) as Hlen.
    pose proof (ancestors_narrow _ Hanc) as Hnp.
    rewrite Hpush. lia.
Qed.

End Termination.

(** X12.  On a finite history the loop ends: when the hashes of all commits
    reachable from the starting commit lie in a finite set [universe] and
    none of those commits has more than [width] parents ([width] at least
    one), the query returns (a mapping, an error or a panic) within
    [2 + (width + 1) * size universe] iterations. *)
Theorem search_ends_on_finite_history {H : HeapOps lastcommit.commitAndPaths}
  (HL : HeapLaws lastcommit.byCommitTime H)
  (index : object.CommitNodeIndex) (s : object.EncodedObjectStorer)
  (treePath : string) (c : object.CommitNode) (paths : list string)
  (universe : gset Hash) (width fuel : nat) :
  (forall a, lastcommit.ancestor index c a -> object.ID a ∈ universe) ->
  (forall a, lastcommit.ancestor index c a ->
             object.NumParents index a <= Z.of_nat width) ->
  (1 <= width)%nat ->
  (2 + (width + 1) * size universe <= fuel)%nat ->
  is_Some (lastcommit.getLastCommitForPaths index s treePath c paths fuel).
Proof.
  intros Hknown Hnarrow Hwidth Hfuel. unfold lastcommit.getLastCommitForPaths.
  destruct (lastcommit.getFileHashes s c treePath paths) as [h0 | |]; [| eauto | eauto].
  pose proof (run_ends index s treePath c paths universe width Hknown Hnarrow
                Hwidth fuel (lastcommit.initialState c paths h0)
                (well_scoped_initial index c paths h0)) as Hends.
  destruct (lastcommit.run index s treePath fuel _).2; [| eauto | eauto].
  exfalso. apply Hends; [| reflexivity].
  unfold lastcommit.initialState. cbn [lastcommit.heap lastcommit.seen].
  rewrite (Permutation_length (Values_Push _ _)), Values_NewWith.
  rewrite difference_empty_L. simpl. lia.
Qed.

Lemma search_ends_on_finite_history_witness :
  is_Some (@lastcommit.getLastCommitForPaths examples.frontier examples.linear_index
             examples.linear_store "" (object.FullCommit examples.C3) ["a.txt"] 8).
Proof.
  apply (search_ends_on_finite_history frontier_laws examples.linear_index
           examples.linear_store "" (object.FullCommit examples.C3) ["a.txt"]
           {[ 1%N; 2%N; 3%N ]} 1 8).
  - intros a Hanc. apply linear_ancestors in Hanc; [| left].
    repeat (apply elem_of_cons in Hanc as [-> | Hanc]); [| | | inversion Hanc];
      vm_compute; reflexivity.
  - intros a Hanc. apply linear_ancestors in Hanc; [| left].
    repeat (apply elem_of_cons in Hanc as [-> | Hanc]); [| | | inversion Hanc];
      vm_compute; discriminate.
  - lia.
  - vm_compute. lia.
Defined.

(** ** The history query: a starting commit without parents *)

(** X13.  When the starting commit has no parents, the query answers every
    requested path with the starting commit itself, also the paths that do
    not exist in it, and needs two iterations of the loop for that. *)
Theorem parentless_start_answers_all {H : HeapOps lastcommit.commitAndPaths}
  (HL : HeapLaws lastcommit.byCommitTime H)
  (index : object.CommitNodeIndex) (s : object.EncodedObjectStorer)
  (treePath : string) (c : object.CommitNode) (paths : list string)
  (h0 : gmap string Hash) (co : object.Commit) (fuel : nat) :
  object.NumParents index c <= 0 ->
  lastcommit.getFileHashes s c treePath paths = Ok h0 ->
  object.Commit_of index c = Ok co ->
  exists m,
    lastcommit.getLastCommitForPaths index s treePath c paths (S (S fuel))
      = Some (Ok m) /\
    forall path, m !! path = if decide (path ∈ paths) then Some co else None.
Proof.
  intros Hnp Hfh Hco. unfold lastcommit.getLastCommitForPaths. rewrite Hfh.
  set (e0 := {| lastcommit.commit := c; lastcommit.paths := paths;
                lastcommit.hashes := h0 |}).
  set (st0 := lastcommit.initialState c paths h0).
  assert (Hv0 : Values (lastcommit.heap st0) = [e0]).
  { apply Values_singleton_perm. unfold st0, lastcommit.initialState.
    cbn [lastcommit.heap]. rewrite Values_Push, Values_NewWith. reflexivity. }
  destruct (step_singleton s treePath index st0 e0 Hv0) as (h' & Hv' & Hstep).
  destruct (decide (object.ID (lastcommit.commit e0) ∈ lastcommit.seen st0))
    as [Hin | _]; [apply not_elem_of_empty in Hin; contradiction |].
  unfold lastcommit.processEntry in Hstep. cbn [lastcommit.commit e0] in Hstep.
  replace (Z.to_nat (object.NumParents index c)) with 0%nat in Hstep by lia.
  cbn [lastcommit.loadParents] in Hstep.
  replace (object.NumParents index c =? 1) with false in Hstep
    by (symmetry; apply Z.eqb_neq; lia).
  cbn [andb] in Hstep. rewrite generalCase_no_parents in Hstep.
  cbn [lastcommit.pushAll foldl lastcommit.paths lastcommit.commit
       lastcommit.resultNodes lastcommit.err st0 lastcommit.initialState] in Hstep.
  cbn [lastcommit.run]. rewrite Hstep.
  match type of Hstep with _ = lastcommit.Next _ ?st => set (st1 := st) in * end.
  rewrite (step_empty s treePath index st1) by exact Hv'.
  cbn [snd lastcommit.resultNodes st1].
  set (r := foldl (fun r p => lastcommit.recordResult r p c) ∅ paths).
  assert (Hr : forall p, r !! p = if decide (p ∈ paths) then Some c else None).
  { intros p. unfold r. rewrite recordAll_lookup, lookup_empty. reflexivity. }
  destruct (materialize_constant index (map_to_list r) ∅ co) as (m & Hm & Hlook).
  { intros p a Hin. apply elem_of_map_to_list in Hin. rewrite Hr in Hin.
    destruct (decide (p ∈ paths)); [| discriminate]. by injection Hin as <-. }
  exists m. split; [exact (f_equal Some Hm) |]. intros path. rewrite Hlook, lookup_empty.
  destruct (decide (path ∈ paths)) as [Hin | Hnin].
  - destruct (decide (path ∈ (map_to_list r).*1)) as [_ | Hn]; [reflexivity |].
    exfalso. apply Hn. apply list_elem_of_fmap. exists (path, c).
    split; [reflexivity |]. apply elem_of_map_to_list. rewrite Hr.
    destruct (decide (path ∈ paths)); [reflexivity | contradiction].
  - destruct (decide (path ∈ (map_to_list r).*1)) as [Hin | _]; [| reflexivity].
    apply list_elem_of_fmap in Hin as ([q a] & -> & Hin).
    apply elem_of_map_to_list in Hin. rewrite Hr in Hin. cbn [fst] in *.
    destruct (decide (q ∈ paths)); [contradiction | discriminate].
Qed.

Lemma parentless_start_answers_all_witness :
  exists m,
    @lastcommit.getLastCommitForPaths examples.frontier examples.linear_index
      examples.linear_store "" (object.FullCommit examples.C1)
      ["a.txt"; "nowhere"] 2 = Some (Ok m) /\
    m !! "nowhere" = Some examples.C1.
Proof.
  destruct (parentless_start_answers_all frontier_laws examples.linear_index
              examples.linear_store "" (object.FullCommit examples.C1)
              ["a.txt"; "nowhere"] {[ "a.txt" := 11%N ]} examples.C1 0)
    as (m & Hm & Hlook).
  - vm_compute. discriminate.
  - vm_compute. reflexivity.
  - reflexivity.
  - exists m. split; [exact Hm |]. rewrite Hlook. reflexivity.
Defined.

(** ** The history query: where it can panic *)

Section Panics.
Import object lastcommit.

Lemma getCommitTree_not_Panic (s : EncodedObjectStorer) (c : CommitNode)
  (treePath : string) :
  getCommitTree s c treePath <> Panic.
Proof.
  assert (Hget : forall h, GetTree s h <> Panic).
  { intros h. unfold GetTree. destruct (s !! h) as [[| |] |]; discriminate. }
  unfold getCommitTree.
  assert (Htree : CommitNode_Tree s c <> Panic) by (destruct c; apply Hget).
  destruct (CommitNode_Tree s c) as [tree | e |]; [| discriminate | contradiction].
  cbn [bind]. destruct (decide (treePath ≠ "")); [| discriminate].
  unfold SubTree, FindEntry. destruct (tree_Entries tree !! treePath) as [e |];
    [| discriminate].
  specialize (Hget (entry_Hash e)).
  destruct (GetTree s (entry_Hash e)) as [t | [] |]; try discriminate. contradiction.
Qed.

Lemma getFileHashes_not_Panic (s : EncodedObjectStorer) (c : CommitNode)
  (treePath : string) (ps : list string) :
  getFileHashes s c treePath ps <> Panic.
Proof.
  unfold getFileHashes. pose proof (getCommitTree_not_Panic s c treePath) as Hno.
  destruct (getCommitTree s c treePath) as [tree | [] |]; try discriminate.
  contradiction.
Qed.

Lemma scanParents_returns (s : EncodedObjectStorer) (treePath : string)
  (current : commitAndPaths) (parents : list CommitNode) (nums : list Z)
  (changed : list bool) (err : option error) :
  exists sc, scanParents s treePath current parents nums changed err = Ok sc.
Proof.
  revert nums changed err. induction parents as [| parent rest IH];
    intros nums changed err; cbn [scanParents]; [eauto |].
  pose proof (getFileHashes_not_Panic s parent treePath (paths current)) as Hno.
  destruct (getFileHashes s parent treePath (paths current)) as [ph | e |];
    [| eauto | contradiction].
  destruct (tallyParent ph (hashes current) (paths current) nums changed)
    as [nums' changed'].
  destruct (IH nums' changed' None) as [sc ->]. cbn [bind]. eauto.
Qed.

Lemma generalCase_not_Crashed (s : EncodedObjectStorer) (treePath : string)
  (seen : gset Hash) (r : gmap string CommitNode) (err : option error)
  (current : commitAndPaths) (parents : list CommitNode) :
  generalCase s treePath seen r err current parents <> Crashed.
Proof.
  unfold generalCase.
  destruct (scanParents_returns s treePath current parents
              (replicate (length (paths current)) 0)
              (replicate (length (paths current)) false) err) as [sc ->].
  destruct (classify _ _ _ _ _). discriminate.
Qed.

Lemma loadParents_Panic (index : CommitNodeIndex) (c : CommitNode) (i : Z)
  (todo : nat) :
  loadParents index c i todo = Panic -> 0 <= i ->
  exists j, 0 <= j /\ ParentNode index c j = Panic.
Proof.
  revert i. induction todo as [| todo IH]; intros i; [discriminate |].
  cbn [loadParents]. destruct (ParentNode index c i) as [p | e |] eqn:Ep.
  - destruct (loadParents index c (i + 1) todo) eqn:El; try discriminate.
    intros _ Hi. apply (IH (i + 1)); [exact El | lia].
  - discriminate.
  - intros _ Hi. eauto.
Qed.

(** The two ways an iteration panics. *)
Lemma processEntry_Crashed (index : CommitNodeIndex) (s : EncodedObjectStorer)
  (treePath : string) (seen : gset Hash) (r : gmap string CommitNode)
  (err : option error) (current : commitAndPaths) :
  processEntry index s treePath seen r err current = Crashed ->
  (exists j, 0 <= j /\ ParentNode index (commit current) j = Panic) \/
  (NumParents index (commit current) = 1 /\
   canSkipCommit index (commit current) treePath (paths current) = true /\
   exists e, ParentNode index (commit current) 0 = Err e).
Proof.
  unfold processEntry.
  destruct (loadParents index (commit current) 0
              (Z.to_nat (NumParents index (commit current)))) as [parents | e |] eqn:El.
  - destruct (Z.eqb_spec (NumParents index (commit current)) 1) as [Hone | _];
      cbn [andb].
    + destruct (canSkipCommit index (commit current) treePath (paths current));
        [| intros Hg; by apply generalCase_not_Crashed in Hg].
      rewrite Hone in El. change (Z.to_nat 1) with 1%nat in El.
      cbn [loadParents] in El.
      destruct (ParentNode index (commit current) 0) as [p | e |];
        [| | discriminate].
      * cbn [bind] in El. injection El as <-. cbn. discriminate.
      * intros _. right. eauto.
    + intros Hg. by apply generalCase_not_Crashed in Hg.
  - by apply loadParents_not_Err in El.
  - intros _. left. apply (loadParents_Panic _ _ _ _ El). lia.
Qed.

End Panics.

Section BackedWalker.
Import commitgraph object lastcommit answers.

(** Over a commit graph built by [Add], the walker never panics on a node it
    handed out itself, and hands out such nodes only. *)
Lemma graph_ParentNode_backed (adds : list (Hash * Node)) (mi : MemoryIndex)
  (s : EncodedObjectStorer) (c : CommitNode) (i : Z) :
  AddAll NewMemoryIndex adds = Ok mi -> backed mi c -> 0 <= i ->
  graph_ParentNode (mkGraphCommitNodeIndex mi s) c i <> Panic /\
  forall p, graph_ParentNode (mkGraphCommitNodeIndex mi s) c i = Ok p -> backed mi p.
Proof.
  intros Hbuilt Hc Hi. destruct c as [cgn | co]; cbn [graph_ParentNode commitGraph object.s].
  - destruct Hc as [Hidx Hn].
    destruct (built_index_is_topological_aux adds mi Hbuilt _ _ Hn) as [Hlen Hbefore].
    destruct (Z.eqb_spec (len (ParentIndexes (node cgn))) 0);
      [split; [discriminate | intros p; discriminate] |].
    destruct (Z.geb_spec i (len (ParentIndexes (node cgn))));
      [split; [discriminate | intros p; discriminate] |].
    cbn [orb].
    destruct (index_slice_in_range (ParentIndexes (node cgn)) i)
      as (parentIndex & -> & Hpi); [lia |].
    destruct (index_slice_in_range (commitgraph.ParentHashes (node cgn)) i)
      as (parentHash & Hslice & _); [unfold len in *; lia |].
    assert (Hrange : 0 <= parentIndex < len (commitData mi)).
    { rewrite Forall_forall in Hbefore.
      specialize (Hbefore parentIndex (list_elem_of_lookup_2 _ _ _ Hpi)).
      apply lookup_lt_Some in Hn. unfold len. lia. }
    destruct (proj1 (GetNodeByIndex_cases mi parentIndex) Hrange)
      as (parent & Hparent & Hget).
    cbn [bind]. rewrite Hget. cbn [bind]. rewrite Hslice. cbn [bind].
    split; [discriminate |]. intros p [= <-]. cbn [backed index node].
    split; [lia | exact Hparent].
  - destruct (Z.eqb_spec (len (commit_ParentHashes co)) 0);
      [split; [discriminate | intros p; discriminate] |].
    destruct (Z.geb_spec i (len (commit_ParentHashes co)));
      [split; [discriminate | intros p; discriminate] |].
    cbn [orb].
    destruct (index_slice_in_range (commit_ParentHashes co) i)
      as (parentHash & -> & _); [lia |].
    cbn [bind]. unfold GetIndexByHash.
    destruct (indexMap mi !! parentHash) as [parentIndex |] eqn:Em.
    + pose proof (resolves_AddAll _ _ [] adds resolves_New Hbuilt) as Hres.
      destruct (Hres _ _ Em) as (Hp0 & n0 & ps & _ & Hn).
      assert (Hrange : 0 <= parentIndex < len (commitData mi)).
      { apply lookup_lt_Some in Hn. unfold len. lia. }
      destruct (proj1 (GetNodeByIndex_cases mi parentIndex) Hrange)
        as (parent & Hparent & ->).
      cbn [bind]. split; [discriminate |]. intros p [= <-].
      cbn [backed index node]. split; [lia | exact Hparent].
    + unfold GetCommit. destruct (s !! parentHash) as [[co' | t |] |]; cbn [bind];
        (split; [discriminate | intros p; try discriminate]).
      intros [= <-]. exact I.
Qed.

Lemma backed_ancestor (adds : list (Hash * Node)) (mi : MemoryIndex)
  (s : EncodedObjectStorer) (bloom : CommitNode -> option BloomPathFilter)
  (c0 c : CommitNode) :
  AddAll NewMemoryIndex adds = Ok mi -> backed mi c0 ->
  (forall a j p, ParentNode (NewGraphCommitNodeIndex mi s bloom) a j = Ok p -> 0 <= j) ->
  ancestor (NewGraphCommitNodeIndex mi s bloom) c0 c -> backed mi c.
Proof.
  intros Hbuilt Hc0 Hpos Hanc. induction Hanc as [| c p i _ IH Hp]; [exact Hc0 |].
  eapply (graph_ParentNode_backed adds mi s c i Hbuilt IH); [| exact Hp].
  eapply Hpos, Hp.
Qed.

Lemma graph_ParentNode_position (gci : graphCommitNodeIndex) (c p : CommitNode)
  (i : Z) :
  graph_ParentNode gci c i = Ok p -> 0 <= i.
Proof.
  destruct c as [cgn | co]; cbn [graph_ParentNode].
  - destruct ((len (ParentIndexes (node cgn)) =? 0)
              || (i >=? len (ParentIndexes (node cgn)))); [discriminate |].
    destruct (index_slice (ParentIndexes (node cgn)) i) as [pi | |] eqn:Es;
      [| discriminate | discriminate].
    intros _. by apply index_slice_Ok in Es as [Hi _].
  - destruct ((len (commit_ParentHashes co) =? 0)
              || (i >=? len (commit_ParentHashes co))); [discriminate |].
    destruct (index_slice (commit_ParentHashes co) i) as [h | |] eqn:Es;
      [| discriminate | discriminate].
    intros _. by apply index_slice_Ok in Es as [Hi _].
Qed.

End BackedWalker.

Section PanicFree.
Import object lastcommit.
Context {H : HeapOps commitAndPaths} {HL : HeapLaws byCommitTime H}.
Variable index : CommitNodeIndex.
Variable s : EncodedObjectStorer.
Variable treePath : string.
Variable c0 : CommitNode.
Variable paths0 : list string.
Hypothesis parents_load : forall a j, ancestor index c0 a -> 0 <= j ->
  ParentNode index a j <> Panic.
Hypothesis skipped_have_parent : forall a, ancestor index c0 a ->
  NumParents index a = 1 -> BloomFilter index a <> None ->
  exists p, ParentNode index a 0 = Ok p.

Lemma step_not_Crash (st : State) :
  searchinv.well_scoped index c0 paths0 st -> step index s treePath st <> Crash.
Proof.
  intros [Hheap _]. unfold step.
  destruct (Pop (heap st)) as [[current h] |] eqn:HP; [| discriminate].
  destruct (decide (ID (commit current) ∈ seen st)); [discriminate |].
  destruct (processEntry index s treePath _ (resultNodes st) (err st) current)
    eqn:Ep; [| discriminate].
  intros _. destruct (Pop_first _ _ _ HP) as [Hperm _].
  rewrite Hperm in Hheap. apply Forall_cons in Hheap as [[Hanc _] _].
  apply processEntry_Crashed in Ep as [(j & Hj & Hpanic) | (Hone & Hskip & e & He)].
  - exact (parents_load _ _ Hanc Hj Hpanic).
  - apply canSkipCommit_true in Hskip as (bloom & Hbloom & _).
    destruct (skipped_have_parent _ Hanc Hone) as [p Hp]; [congruence |].
    congruence.
Qed.

Lemma run_not_Panicked (fuel : nat) (st : State) :
  searchinv.well_scoped index c0 paths0 st ->
  (run index s treePath fuel st).2 <> Panicked.
Proof.
  revert st. induction fuel as [| fuel IH]; intros st Hws; [discriminate |].
  cbn [run]. pose proof (step_not_Crash st Hws) as Hno.
  destruct (step index s treePath st) as [| | ev st'] eqn:Hstep;
    [discriminate | contradiction |].
  pose proof (well_scoped_step index s treePath c0 paths0 _ _ _ Hws Hstep) as Hws'.
  specialize (IH st' Hws').
  destruct (run index s treePath fuel st') as [evs fin]. exact IH.
Qed.

Lemma materialize_not_Panic (l : list (string * CommitNode))
  (acc : gmap string Commit) :
  (forall p a, (p, a) ∈ l -> Commit_of index a <> Panic) ->
  materialize index l acc <> Panic.
Proof.
  revert acc. induction l as [| [p a] l IH]; intros acc Hall; [discriminate |].
  cbn [materialize]. pose proof (Hall p a ltac:(left)) as Hno.
  destruct (Commit_of index a) as [c | e |]; [| discriminate | contradiction].
  cbn [bind]. apply IH. intros q b Hin. apply (Hall q b). by right.
Qed.

Lemma search_not_Panic (c : CommitNode) (paths : list string) (fuel : nat) :
  c = c0 -> paths = paths0 ->
  (forall a, ancestor index c0 a -> Commit_of index a <> Panic) ->
  getLastCommitForPaths index s treePath c paths fuel <> Some Panic.
Proof.
  intros -> -> Hcommit. unfold getLastCommitForPaths.
  pose proof (getFileHashes_not_Panic s c0 treePath paths0) as Hfh.
  destruct (getFileHashes s c0 treePath paths0) as [h0 | e |];
    [| discriminate | contradiction].
  pose proof (run_not_Panicked fuel _ (well_scoped_initial index c0 paths0 h0)) as Hrun.
  destruct (run index s treePath fuel _).2 as [| | st] eqn:Er;
    [discriminate | contradiction |].
  apply run_Broke in Er.
  pose proof (well_scoped_reaches index s treePath c0 paths0 _ _
                (well_scoped_initial index c0 paths0 h0) Er) as [_ Hres].
  intros [= Hm]. revert Hm. apply materialize_not_Panic.
  intros p a Hin. apply elem_of_map_to_list in Hin.
  apply Hcommit. by destruct (Hres _ _ Hin).
Qed.

End PanicFree.

(** X14.  The query panics only through the walker or through the fast
    path: when, on the commits reachable from the start, [ParentNode] does
    not panic at positions from zero on, [Commit] does not panic, and
    every commit with exactly one parent and a path filter has that parent
    loadable, then [getLastCommitForPaths] does not panic. *)
Theorem search_does_not_panic {H : HeapOps lastcommit.commitAndPaths}
  (HL : HeapLaws lastcommit.byCommitTime H)
  (index : object.CommitNodeIndex) (s : object.EncodedObjectStorer)
  (treePath : string) (c : object.CommitNode) (paths : list string) (fuel : nat) :
  (forall a j, lastcommit.ancestor index c a -> 0 <= j ->
               object.ParentNode index a j <> Panic) ->
  (forall a, lastcommit.ancestor index c a -> object.Commit_of index a <> Panic) ->
  (forall a, lastcommit.ancestor index c a -> object.NumParents index a = 1 ->
             object.BloomFilter index a <> None ->
             exists p, object.ParentNode index a 0 = Ok p) ->
  lastcommit.getLastCommitForPaths index s treePath c paths fuel <> Some Panic.
Proof.
  intros Hparents Hcommit Hskip.
  by apply (search_not_Panic index s treePath c paths Hparents Hskip c paths fuel).
Qed.

Lemma search_does_not_panic_witness :
  @lastcommit.getLastCommitForPaths examples.frontier examples.linear_index_bloom
    examples.linear_store "" (object.FullCommit examples.C3) ["a.txt"] 8
  <> Some Panic.
Proof.
  apply (search_does_not_panic frontier_laws).
  - intros a j Hanc Hj.
    apply (graph_ParentNode_backed [] commitgraph.NewMemoryIndex
             examples.linear_store a j eq_refl); [| exact Hj].
    apply linear_ancestors in Hanc; [| left].
    repeat (apply elem_of_cons in Hanc as [-> | Hanc]); [| | | inversion Hanc];
      exact I.
  - intros a _. destruct a; simpl; [| discriminate].
    unfold object.GetCommit. destruct (_ !! _) as [[| |] |]; discriminate.
  - intros a Hanc Hone _. apply linear_ancestors in Hanc; [| left].
    repeat (apply elem_of_cons in Hanc as [-> | Hanc]); [| | | inversion Hanc].
    + eexists. vm_compute. reflexivity.
    + eexists. vm_compute. reflexivity.
    + vm_compute in Hone. discriminate.
Defined.

(** X15.  The fast path indexes the loaded parents without looking at how
    many there are: when the starting commit reports one parent, that
    parent fails to load, and the commit's filter rules out every requested
    path, the first iteration panics. *)
Theorem fast_path_panics_on_missing_parent {H : HeapOps lastcommit.commitAndPaths}
  (HL : HeapLaws lastcommit.byCommitTime H)
  (index : object.CommitNodeIndex) (s : object.EncodedObjectStorer)
  (treePath : string) (c : object.CommitNode) (paths : list string)
  (h0 : gmap string Hash) (e : error) (fuel : nat) :
  lastcommit.getFileHashes s c treePath paths = Ok h0 ->
  object.NumParents index c = 1 ->
  object.ParentNode index c 0 = Err e ->
  lastcommit.canSkipCommit index c treePath paths = true ->
  lastcommit.getLastCommitForPaths index s treePath c paths (S fuel) = Some Panic.
Proof.
  intros Hfh Hone Hparent Hskip. unfold lastcommit.getLastCommitForPaths. rewrite Hfh.
  set (e0 := {| lastcommit.commit := c; lastcommit.paths := paths;
                lastcommit.hashes := h0 |}).
  set (st0 := lastcommit.initialState c paths h0).
  assert (Hv0 : Values (lastcommit.heap st0) = [e0]).
  { apply Values_singleton_perm. unfold st0, lastcommit.initialState.
    cbn [lastcommit.heap]. rewrite Values_Push, Values_NewWith. reflexivity. }
  destruct (step_singleton s treePath index st0 e0 Hv0) as (h' & Hv' & Hstep).
  destruct (decide (object.ID (lastcommit.commit e0) ∈ lastcommit.seen st0))
    as [Hin | _]; [apply not_elem_of_empty in Hin; contradiction |].
  unfold lastcommit.processEntry in Hstep.
  cbn [lastcommit.commit lastcommit.paths e0] in Hstep.
  rewrite Hone, Hskip in Hstep. change (Z.to_nat 1) with 1%nat in Hstep.
  cbn [lastcommit.loadParents] in Hstep. rewrite Hparent in Hstep.
  cbn in Hstep. cbn [lastcommit.run]. rewrite Hstep. reflexivity.
Qed.

Lemma fast_path_panics_on_missing_parent_witness :
  @lastcommit.getLastCommitForPaths examples.frontier shallow.index shallow.store
    "" (object.FullCommit shallow.Tip) ["a.txt"] 1 = Some Panic.
Proof.
  apply (fast_path_panics_on_missing_parent frontier_laws shallow.index shallow.store
           "" (object.FullCommit shallow.Tip) ["a.txt"] {[ "a.txt" := 11%N ]}
           ErrObjectNotFound 0); vm_compute; reflexivity.
Defined.

(** X16.  Walker and index fit together: over a commit graph built from the
    empty index by successful [Add] calls and with no path filters, the
    query started at a decoded commit, or at an index-backed node stored at
    its position, never panics, whatever the object store holds. *)
Theorem search_over_built_graph_does_not_panic
  {H : HeapOps lastcommit.commitAndPaths}
  (HL : HeapLaws lastcommit.byCommitTime H)
  (adds : list (Hash * commitgraph.Node)) (mi : commitgraph.MemoryIndex)
  (s : object.EncodedObjectStorer) (treePath : string) (c : object.CommitNode)
  (paths : list string) (fuel : nat) :
  commitgraph.AddAll commitgraph.NewMemoryIndex adds = Ok mi ->
  answers.backed mi c ->
  lastcommit.getLastCommitForPaths
    (object.NewGraphCommitNodeIndex mi s (fun _ => None)) s treePath c paths fuel
  <> Some Panic.
Proof.
  intros Hbuilt Hc.
  assert (Hpos : forall a j p,
             object.ParentNode (object.NewGraphCommitNodeIndex mi s (fun _ => None)) a j
             = Ok p -> 0 <= j).
  { intros a j p. apply graph_ParentNode_position. }
  apply (search_not_Panic _ s treePath c paths); [| | reflexivity | reflexivity |].
  - intros a j Hanc Hj.
    apply (graph_ParentNode_backed adds mi s a j Hbuilt); [| exact Hj].
    eapply backed_ancestor; eauto.
  - intros a _ _ Hbloom. by contradiction Hbloom.
  - intros a _. destruct a; simpl; [| discriminate].
    unfold object.GetCommit. destruct (_ !! _) as [[| |] |]; discriminate.
Qed.

Lemma search_over_built_graph_does_not_panic_witness :
  let root := commitgraph.mkNode 101%N [] [] 10 in
  let child := commitgraph.mkNode 101%N [1%N] [] 20 in
  exists mi,
    commitgraph.AddAll commitgraph.NewMemoryIndex [(1%N, root); (2%N, child)] = Ok mi /\
    (@lastcommit.getLastCommitForPaths examples.frontier
       (object.NewGraphCommitNodeIndex mi examples.linear_store (fun _ => None))
       examples.linear_store "" (object.FullCommit examples.C3) ["a.txt"] 8
     <> Some Panic).
Proof.
  intros root child. eexists. split; [reflexivity |].
  apply (search_over_built_graph_does_not_panic frontier_laws
           [(1%N, root); (2%N, child)]); [reflexivity | exact I].
Defined.

(** ** The history query: what an answer means *)

Section Justified.
Import object lastcommit answers.
Context {H : HeapOps commitAndPaths} {HL : HeapLaws byCommitTime H}.
Variable index : CommitNodeIndex.
Variable s : EncodedObjectStorer.
Variable treePath : string.
Variable c0 : CommitNode.
Hypothesis no_filters : forall a, ancestor index c0 a -> BloomFilter index a = None.
Hypothesis trees_readable : forall a ps, ancestor index c0 a ->
  exists m, getFileHashes s a treePath ps = Ok m.

Lemma scanParents_readable (current : commitAndPaths) (parents : list CommitNode)
  (nums : list Z) (changed : list bool) (err : option error) (sc : Scan) :
  (forall p, p ∈ parents ->
     exists m, getFileHashes s p treePath (paths current) = Ok m) ->
  scanParents s treePath current parents nums changed err = Ok sc ->
  Forall2 (fun p m => getFileHashes s p treePath (paths current) = Ok m)
    parents (parentHashes sc).
Proof.
  revert nums changed err sc.
  induction parents as [| parent rest IH]; intros nums changed err sc Hread;
    cbn [scanParents].
  - intros [= <-]. constructor.
  - destruct (Hread parent) as [m Hm]; [left |]. rewrite Hm.
    destruct (tallyParent m (hashes current) (paths current) nums changed)
      as [nums' changed'].
    destruct (scanParents s treePath current rest nums' changed' None)
      as [sc' | |] eqn:E; [| discriminate | discriminate].
    cbn [bind]. intros [= <-]. cbn [parentHashes]. constructor; [exact Hm |].
    eapply IH; [| exact E]. intros p Hp. apply Hread. by right.
Qed.

Lemma tally_having (ps : list string) (parents : list CommitNode)
  (phs : list (gmap string Hash)) (cur : gmap string Hash) (path : string) :
  Forall2 (fun p m => getFileHashes s p treePath ps = Ok m) parents phs ->
  path ∈ ps ->
  countPresent phs path = len (having s treePath path parents) /\
  changedIn phs cur path =
    existsb (fun p => negb (contentAt s treePath p path =? lookup0 cur path)%N)
      (having s treePath path parents).
Proof.
  intros Hall Hin. induction Hall as [| p m parents phs Hm _ [IHc IHh]].
  - split; reflexivity.
  - pose proof (getFileHashes_contentAt _ _ _ _ _ _ Hm Hin) as Hcontent.
    assert (Hpres : present m path = negb (contentAt s treePath p path =? ZeroHash)%N)
      by (unfold present; by rewrite Hcontent).
    rewrite countPresent_cons. unfold changedIn, having in *.
    cbn [existsb List.filter]. rewrite Hpres, Hcontent.
    destruct (contentAt s treePath p path =? ZeroHash)%N; cbn [negb andb orb existsb].
    + split; [exact IHc | exact IHh].
    + rewrite IHc, IHh. split; [unfold len; cbn [length]; lia | reflexivity].
Qed.

Lemma resolved_slot (n : Z) (ch : bool) (path : string) :
  0 <= n -> negb (deferred (path, (n, ch))) = true ->
  n = 0 \/ (n = 1 /\ ch = true).
Proof.
  unfold deferred. intros Hn.
  destruct (Z.eqb_spec n 0); [auto |]. destruct (Z.eqb_spec n 1); [| discriminate].
  destruct ch; [auto | discriminate].
Qed.

Lemma justified_step (st st' : State) (ev : Event) :
  justified index s treePath c0 st -> step index s treePath st = Next ev st' ->
  justified index s treePath c0 st'.
Proof.
  intros [Hheap Hres] Hstep.
  apply step_cases in Hstep as (x & h' & HP & Hcase).
  destruct (Pop_first _ _ _ HP) as [Hperm _]. rewrite Hperm in Hheap.
  apply Forall_cons in Hheap as [[Hanc Htracked] Hrest].
  destruct Hcase as [(_ & _ & ->) | (_ & _ & r' & pushes & err' & Ep & ->)];
    [split; [exact Hrest | exact Hres] |].
  apply processEntry_Emitted in Ep
    as (parents & Hl & [(_ & Hskip & _) | [_ Hg]]).
  { apply canSkipCommit_true in Hskip as (bloom & Hbloom & _).
    rewrite (no_filters _ Hanc) in Hbloom. discriminate. }
  assert (Hparents : forall p, p ∈ parents -> ancestor index c0 p).
  { intros p Hp. destruct (loadParents_parent _ _ _ _ _ _ Hl Hp) as [j Hj].
    eapply ancestor_parent; eauto. }
  apply generalCase_Emitted in Hg as (sc & Hsc & _ & -> & -> & _).
  apply scanParents_readable in Hsc; [| intros p Hp; apply trees_readable; auto].
  split; cbn [heap resultNodes].
  - rewrite Values_pushAll. apply Forall_app. split; [exact Hrest |].
    apply Forall_forall. intros e He.
    destruct (len _ >? 0); [| inversion He].
    apply entriesForParents_elem in He as (j & ph & Hj & Hph & _ & Hpaths & Hh).
    split; [apply Hparents; eapply list_elem_of_lookup_2, Hj |].
    intros path Hpath. rewrite Hpaths in Hpath.
    apply elem_of_filter_present in Hpath as [Hpath _].
    apply elem_of_slots_filter in Hpath as [Hpath _].
    rewrite Hh. eapply getFileHashes_contentAt; [| exact Hpath].
    eapply (Forall2_lookup_lr _ _ _ _ _ _ Hsc Hj Hph).
  - intros path c Hc. apply recordAll_origin in Hc as [Hold | (_ & -> & Hin)];
      [by apply Hres |].
    split; [exact Hanc |]. exists parents. split; [exact Hl |].
    apply elem_of_slots_filter in Hin as [Hin Hslot].
    destruct (tally_having _ _ _ (hashes x) path Hsc Hin) as [Hcount Hchanged].
    apply resolved_slot in Hslot as [Hzero | [Hone Hch]];
      [| | apply countPresent_bounds].
    + left. rewrite Hcount in Hzero. unfold len in Hzero.
      destruct (having s treePath path parents); [reflexivity | simpl in Hzero; lia].
    + right. rewrite Hcount in Hone. unfold len in Hone. rewrite Hchanged in Hch.
      destruct (having s treePath path parents) as [| p [| q l]];
        [simpl in Hone; lia | | simpl in Hone; lia].
      exists p. split; [reflexivity |]. cbn [existsb] in Hch.
      rewrite orb_false_r in Hch. apply negb_true_iff, N.eqb_neq in Hch.
      by rewrite <- (Htracked path Hin).
Qed.

Lemma justified_reaches (st st' : State) :
  justified index s treePath c0 st -> reaches index s treePath st st' ->
  justified index s treePath c0 st'.
Proof.
  intros Hj Hreach. induction Hreach as [st | st st1 st2 ev Hstep _ IH]; [exact Hj |].
  apply IH. eapply justified_step; eauto.
Qed.

Lemma justified_initial (paths0 : list string) (h0 : gmap string Hash) :
  getFileHashes s c0 treePath paths0 = Ok h0 ->
  justified index s treePath c0 (initialState c0 paths0 h0).
Proof.
  intros Hfh. split; cbn [heap resultNodes initialState].
  - rewrite Values_Push, Values_NewWith. constructor; [| constructor].
    split; [constructor |]. intros path Hpath. cbn [hashes commit paths] in *.
    eapply getFileHashes_contentAt; eauto.
  - intros path c. rewrite lookup_empty. discriminate.
Qed.

Lemma answers_touch (paths0 : list string) (fuel : nat)
  (m : gmap string Commit) (path : string) (co : Commit) :
  getLastCommitForPaths index s treePath c0 paths0 fuel = Some (Ok m) ->
  m !! path = Some co ->
  exists a, ancestor index c0 a /\ Commit_of index a = Ok co /\
            touches index s treePath a path.
Proof.
  unfold getLastCommitForPaths.
  destruct (getFileHashes s c0 treePath paths0) as [h0 | |] eqn:Hfh;
    [| discriminate | discriminate].
  destruct (run index s treePath fuel _).2 as [| | st] eqn:Er;
    [discriminate | discriminate |].
  intros [= Hm] Hco. apply run_Broke in Er.
  pose proof (justified_reaches _ _ (justified_initial paths0 h0 Hfh) Er) as [_ Hres].
  destruct (materialize_origin index _ _ _ _ _ Hm Hco) as [Hacc | (a & Hin & Ha)].
  - rewrite lookup_empty in Hacc. discriminate.
  - apply elem_of_map_to_list in Hin. destruct (Hres _ _ Hin) as [Hanc Htouch]. eauto.
Qed.

End Justified.

(** X17.  Without path filters and with every tree of the history readable,
    each answer is a commit that introduced or changed the path: the answer
    is the full commit of a commit [a] reachable from the start such that,
    among the parents loaded for [a], either none has the path, or exactly
    one has it and with content other than the content in [a]. *)
Theorem answer_touches_its_path {H : HeapOps lastcommit.commitAndPaths}
  (HL : HeapLaws lastcommit.byCommitTime H)
  (index : object.CommitNodeIndex) (s : object.EncodedObjectStorer)
  (treePath : string) (c : object.CommitNode) (paths : list string)
  (fuel : nat) (m : gmap string object.Commit) (path : string) (co : object.Commit) :
  (forall a, lastcommit.ancestor index c a -> object.BloomFilter index a = None) ->
  (forall a ps, lastcommit.ancestor index c a ->
                exists h, lastcommit.getFileHashes s a treePath ps = Ok h) ->
  lastcommit.getLastCommitForPaths index s treePath c paths fuel = Some (Ok m) ->
  m !! path = Some co ->
  exists a, lastcommit.ancestor index c a /\ object.Commit_of index a = Ok co /\
            answers.touches index s treePath a path.
Proof.
  intros Hnone Hread. by apply (answers_touch index s treePath c Hnone Hread).
Qed.

Lemma answer_touches_its_path_witness :
  exists a, lastcommit.ancestor examples.linear_index (object.FullCommit examples.C3) a /\
            object.Commit_of examples.linear_index a = Ok examples.C3 /\
            answers.touches examples.linear_index examples.linear_store "" a "a.txt".
Proof.
  apply (answer_touches_its_path frontier_laws examples.linear_index
           examples.linear_store "" (object.FullCommit examples.C3) ["a.txt"] 8
           {[ "a.txt" := examples.C3 ]} "a.txt" examples.C3).
  - intros a _. reflexivity.
  - intros a ps Hanc. apply linear_ancestors in Hanc; [| left].
    repeat (apply elem_of_cons in Hanc as [-> | Hanc]); [| | | inversion Hanc];
      eexists; apply getFileHashes_tree; vm_compute; reflexivity.
  - vm_compute. reflexivity.
  - reflexivity.
Defined.

(** ** The hashes of the requested paths *)

(** X18.  [getFileHashes] depends on which paths are requested, not on their
    order or on repetitions: two path lists with the same elements give the
    same map, or the same error. *)
Theorem getFileHashes_depends_on_path_set (s : object.EncodedObjectStorer)
  (c : object.CommitNode) (treePath : string) (ps ps' : list string) :
  (forall path, path ∈ ps <-> path ∈ ps') ->
  lastcommit.getFileHashes s c treePath ps = lastcommit.getFileHashes s c treePath ps'.
Proof.
  intros Hsame. unfold lastcommit.getFileHashes.
  destruct (lastcommit.getCommitTree s c treePath) as [tree | e |];
    [| reflexivity | reflexivity].
  f_equal. apply map_eq. intros path. rewrite !fileHashes_fold_lookup.
  destruct (decide (path ∈ ps)) as [Hin | Hnin];
    destruct (decide (path ∈ ps')) as [Hin' | Hnin']; try reflexivity.
  - exfalso. apply Hnin', Hsame, Hin.
  - exfalso. apply Hnin, Hsame, Hin'.
Qed.

Lemma getFileHashes_depends_on_path_set_witness :
  lastcommit.getFileHashes examples.linear_store (object.FullCommit examples.C3) ""
    ["a.txt"; ""; "a.txt"]
  = lastcommit.getFileHashes examples.linear_store (object.FullCommit examples.C3) ""
      [""; "a.txt"].
Proof.
  apply (getFileHashes_depends_on_path_set examples.linear_store
           (object.FullCommit examples.C3) "" ["a.txt"; ""; "a.txt"] [""; "a.txt"]).
  intros path. rewrite !elem_of_cons, !elem_of_nil. tauto.
Defined.

(** ** The history query: which paths get an answer *)

Section Coverage.
Import object lastcommit coverage.
Context {H : HeapOps commitAndPaths} {HL : HeapLaws byCommitTime H}.
Variable index : CommitNodeIndex.
Variable s : EncodedObjectStorer.
Variable treePath : string.
Variable c0 : CommitNode.
Variable gen : Hash -> nat.
Variable paths0 : list string.
Hypothesis merge_free : forall a, ancestor index c0 a -> NumParents index a <= 1.
Hypothesis generations : forall a i p, ancestor index c0 a ->
  ParentNode index a i = Ok p -> (gen (ID p) < gen (ID a))%nat.

Lemma countPresent_positive (phs : list (gmap string Hash)) (path : string) :
  countPresent phs path <> 0 ->
  exists j ph, phs !! j = Some ph /\ present ph path = true.
Proof.
  induction phs as [| m phs IH]; [intros Hn; by contradiction Hn |].
  rewrite countPresent_cons. destruct (present m path) eqn:Em.
  - intros _. exists 0%nat, m. auto.
  - intros Hn. destruct (IH Hn) as (j & ph & Hj & Hp). exists (Datatypes.S j), ph. auto.
Qed.

(** An iteration loses no path when none of the loaded parents was seen:
    each path of the entry is answered or handed to a parent. *)
Lemma processEntry_covers (seen : gset Hash) (r : gmap string CommitNode)
  (err : option error) (current : commitAndPaths)
  (r' : gmap string CommitNode) (pushes : list commitAndPaths)
  (err' : option error) (path : string) :
  processEntry index s treePath seen r err current = Emitted r' pushes err' ->
  (forall i p, ParentNode index (commit current) i = Ok p -> ID p ∉ seen) ->
  path ∈ paths current ->
  is_Some (r' !! path) \/ exists e, e ∈ pushes /\ path ∈ paths e.
Proof.
  intros Ep Hfresh Hpath.
  apply processEntry_Emitted in Ep
    as (parents & Hl & [(_ & _ & parent & _ & _ & _ & ->) | [_ Hg]]).
  { right. eexists. split; [left | exact Hpath]. }
  apply generalCase_Emitted in Hg as (sc & _ & Hlen & -> & -> & _).
  set (slots := slotsOf (parentHashes sc) (hashes current) (paths current)) in *.
  destruct (deferred (path, (countPresent (parentHashes sc) path,
                             changedIn (parentHashes sc) (hashes current) path)))
    eqn:Ed.
  - right.
    assert (Hrem : path ∈ (List.filter deferred slots).*1)
      by (apply elem_of_slots_filter; auto).
    rewrite len_nonempty by (intros Hnil; rewrite Hnil in Hrem; inversion Hrem).
    assert (Hcount : countPresent (parentHashes sc) path <> 0).
    { intros Hz. rewrite Hz in Ed. discriminate. }
    apply countPresent_positive in Hcount as (j & ph & Hj & Hp).
    destruct (lookup_lt_is_Some_2 parents j) as [p Hparent];
      [rewrite <- Hlen; eapply lookup_lt_Some, Hj |].
    exists {| commit := p; paths := List.filter (present ph) (List.filter deferred slots).*1;
              hashes := ph |}.
    split.
    + apply entriesForParents_elem. exists j, ph. cbn [commit paths hashes].
      repeat split; try assumption.
      destruct (loadParents_parent _ _ _ _ _ _ Hl (list_elem_of_lookup_2 _ _ _ Hparent))
        as [i Hi].
      eapply Hfresh, Hi.
    + cbn [paths]. apply elem_of_filter_present. auto.
  - left. rewrite recordAll_lookup. destruct (r !! path); [eauto |].
    destruct (decide (path ∈ _)) as [_ | Hn]; [eauto |].
    exfalso. apply Hn. apply elem_of_slots_filter. split; [exact Hpath |].
    by rewrite Ed.
Qed.

Lemma covered_step (st st' : State) (ev : Event) :
  covered index c0 gen paths0 st -> step index s treePath st = Next ev st' ->
  covered index c0 gen paths0 st'.
Proof.
  intros (Hone & Hheap & Hcover) Hstep.
  apply step_cases in Hstep as (x & h' & HP & Hcase).
  destruct (Pop_first _ _ _ HP) as [Hperm _].
  assert (Hv' : Values h' = []).
  { apply Permutation_length in Hperm. simpl in Hperm.
    destruct (Values h'); [reflexivity | simpl in Hperm; lia]. }
  rewrite Hv' in Hperm.
  assert (Hx : forall e, e ∈ Values (heap st) -> e = x).
  { intros e He. rewrite Hperm in He. by apply list_elem_of_singleton in He. }
  destruct (Hheap x) as [Hanc Hgen]; [rewrite Hperm; left |].
  destruct Hcase as [(_ & Hseen & ->) | (_ & _ & r' & pushes & err' & Ep & ->)].
  { specialize (Hgen _ Hseen). lia. }
  assert (Hvals : Values (pushAll h' pushes) ≡ₚ pushes)
    by (by rewrite Values_pushAll, Hv').
  split; [| split]; cbn [heap seen resultNodes].
  - rewrite (Permutation_length Hvals).
    pose proof (processEntry_pushes_length _ _ _ _ _ _ _ _ _ _ Ep) as Hlen.
    pose proof (merge_free _ Hanc) as Hfew. lia.
  - intros e He. rewrite Hvals in He.
    destruct (processEntry_pushes_parents _ _ _ _ _ _ _ _ _ _ _ Ep He) as [j Hj].
    split; [eapply ancestor_parent; eauto |].
    intros h Hh. pose proof (generations _ _ _ Hanc Hj) as Hlt.
    apply elem_of_union in Hh as [Hh | Hh].
    + apply elem_of_singleton in Hh as ->. exact Hlt.
    + specialize (Hgen _ Hh). lia.
  - intros path Hpath. destruct (Hcover path Hpath) as [[a Ha] | (e & He & Hin)].
    + left. exists a. eapply processEntry_keeps; eauto.
    + apply Hx in He as ->.
      destruct (processEntry_covers _ _ _ _ _ _ _ path Ep) as [Hans | (e & He & Hp)];
        [| exact Hin | by left |].
      * intros i p Hp Hseen. pose proof (generations _ _ _ Hanc Hp) as Hlt.
        apply elem_of_union in Hseen as [Hs | Hs].
        -- apply elem_of_singleton in Hs. rewrite Hs in Hlt. lia.
        -- specialize (Hgen _ Hs). lia.
      * right. exists e. split; [by rewrite Hvals | exact Hp].
Qed.

Lemma covered_initial (h0 : gmap string Hash) :
  covered index c0 gen paths0 (initialState c0 paths0 h0).
Proof.
  assert (Hv : Values (heap (initialState c0 paths0 h0))
               = [ {| commit := c0; paths := paths0; hashes := h0 |} ]).
  { apply Values_singleton_perm. cbn [heap initialState].
    by rewrite Values_Push, Values_NewWith. }
  split; [| split]; rewrite ?Hv; cbn [seen resultNodes initialState].
  - simpl. lia.
  - intros e He. apply list_elem_of_singleton in He as ->.
    split; [constructor |]. intros h Hh. by apply not_elem_of_empty in Hh.
  - intros path Hpath. right. eexists. split; [left | exact Hpath].
Qed.

Lemma covered_run (fuel : nat) (st st' : State) :
  covered index c0 gen paths0 st ->
  (run index s treePath fuel st).2 = Broke st' ->
  forall path, path ∈ paths0 -> is_Some (resultNodes st' !! path).
Proof.
  revert st. induction fuel as [| fuel IH]; intros st Hc; [discriminate |].
  cbn [run]. destruct (step index s treePath st) as [| | ev st1] eqn:Hstep;
    [| discriminate |].
  - intros [= <-] path Hpath. destruct Hc as (_ & _ & Hcover).
    destruct (Hcover path Hpath) as [Hans | (e & He & _)]; [exact Hans |].
    unfold step in Hstep. destruct (Pop (heap st)) as [[cur h] |] eqn:HP.
    + destruct (decide (ID (commit cur) ∈ seen st)); [discriminate |].
      destruct (processEntry _ _ _ _ _ _ _); discriminate.
    + apply Pop_empty in HP. rewrite HP in He. inversion He.
  - pose proof (covered_step _ _ _ Hc Hstep) as Hc1. specialize (IH st1 Hc1).
    destruct (run index s treePath fuel st1) as [evs fin]. exact IH.
Qed.

Lemma materialize_keys (l : list (string * CommitNode))
  (acc m : gmap string Commit) (path : string) :
  materialize index l acc = Ok m ->
  is_Some (acc !! path) \/ path ∈ l.*1 -> is_Some (m !! path).
Proof.
  revert acc. induction l as [| [p a] l IH]; intros acc; cbn [materialize].
  - intros [= <-] [Hacc | Hin]; [exact Hacc | inversion Hin].
  - destruct (Commit_of index a) as [c | |]; [| discriminate | discriminate].
    cbn [bind]. intros Hm Hcase. apply (IH _ Hm).
    destruct (decide (path = p)) as [-> | Hne].
    + left. rewrite lookup_insert_eq. eauto.
    + destruct Hcase as [Hacc | Hin].
      * left. by rewrite lookup_insert_ne by (intros Heq; apply Hne; by symmetry).
      * right. cbn in Hin. apply elem_of_cons in Hin as [-> | Hin]; [contradiction | exact Hin].
Qed.

Lemma search_covers (fuel : nat) (m : gmap string Commit) (path : string) :
  getLastCommitForPaths index s treePath c0 paths0 fuel = Some (Ok m) ->
  path ∈ paths0 -> is_Some (m !! path).
Proof.
  unfold getLastCommitForPaths.
  destruct (getFileHashes s c0 treePath paths0) as [h0 | |];
    [| discriminate | discriminate].
  destruct (run index s treePath fuel _).2 as [| | st] eqn:Er;
    [discriminate | discriminate |].
  intros [= Hm] Hpath.
  destruct (covered_run _ _ _ (covered_initial h0) Er path Hpath) as [a Ha].
  apply (materialize_keys _ _ _ _ Hm). right.
  apply list_elem_of_fmap. exists (path, a). split; [reflexivity |].
  by apply elem_of_map_to_list.
Qed.

End Coverage.

(** X19.  On a history without merges every requested path gets an answer:
    when no commit reachable from the start has more than one parent and
    the commit hashes can be numbered so that each loaded parent comes
    before its child, the mapping [getLastCommitForPaths] returns has an
    entry for each requested path, with or without path filters. *)
Theorem every_path_answered_without_merges {H : HeapOps lastcommit.commitAndPaths}
  (HL : HeapLaws lastcommit.byCommitTime H)
  (index : object.CommitNodeIndex) (s : object.EncodedObjectStorer)
  (treePath : string) (c : object.CommitNode) (gen : Hash -> nat)
  (paths : list string) (fuel : nat) (m : gmap string object.Commit)
  (path : string) :
  (forall a, lastcommit.ancestor index c a -> object.NumParents index a <= 1) ->
  (forall a i p, lastcommit.ancestor index c a ->
                 object.ParentNode index a i = Ok p ->
                 (gen (object.ID p) < gen (object.ID a))%nat) ->
  lastcommit.getLastCommitForPaths index s treePath c paths fuel = Some (Ok m) ->
  path ∈ paths -> is_Some (m !! path).
Proof.
  intros Hmerge Hgen. by apply (search_covers index s treePath c gen paths Hmerge Hgen).
Qed.

Lemma every_path_answered_without_merges_witness :
  is_Some (({[ "a.txt" := examples.C3; "b.txt" := examples.C3 ]}
            : gmap string object.Commit) !! "b.txt").
Proof.
  apply (every_path_answered_without_merges frontier_laws examples.linear_index_bloom
           examples.linear_store "" (object.FullCommit examples.C3) N.to_nat
           ["a.txt"; "b.txt"] 8).
  - intros a Hanc. apply linear_ancestors in Hanc; [| left].
    repeat (apply elem_of_cons in Hanc as [-> | Hanc]); [| | | inversion Hanc];
      vm_compute; discriminate.
  - intros a i p Hanc Hp. apply linear_ancestors in Hanc; [| left].
    repeat (apply elem_of_cons in Hanc as [-> | Hanc]); [| | | inversion Hanc];
      apply ParentNode_without_graph in Hp as (h & co' & _ & Hh & Hg & ->);
      simpl in Hh.
    + apply lookup_singleton_list in Hh as ->. vm_compute in Hg.
      injection Hg as <-. simpl. lia.
    + apply lookup_singleton_list in Hh as ->. vm_compute in Hg.
      injection Hg as <-. simpl. lia.
    + rewrite lookup_nil in Hh. discriminate.
  - vm_compute. reflexivity.
  - right. left.
Defined.

(** ** The names a path filter is built from *)

Section FilterNames.
Import object graphwriter.

Lemma compareEntries_fold (bWalk : list (string * TreeEntry))
  (aHashes : gmap string Hash) (added : list string) :
  NoDup bWalk.*1 ->
  forall name,
    ((foldl compareEntry (aHashes, added) bWalk).1 !! name =
       if decide (name ∈ bWalk.*1) then None else aHashes !! name) /\
    (name ∈ (foldl compareEntry (aHashes, added) bWalk).2 <->
     name ∈ added \/
     exists entry, (name, entry) ∈ bWalk /\ lookup0 aHashes name <> entry_Hash entry).
Proof.
  revert aHashes added. induction bWalk as [| [n e] rest IH];
    intros aHashes added Hnd name.
  - cbn [foldl fst snd]. split.
    + destruct (decide (name ∈ [].*1)) as [Hin | _]; [inversion Hin | reflexivity].
    + split; [auto |]. intros [Hin | (entry & Hin & _)]; [exact Hin | inversion Hin].
  - cbn [fmap list_fmap fst] in Hnd. apply NoDup_cons in Hnd as [Hfresh Hnd].
    cbn [foldl compareEntry fst snd].
    destruct (IH (delete n aHashes)
                (if (lookup0 aHashes n =? entry_Hash e)%N then added else added ++ [n])
                Hnd name) as [IHm IHa].
    split.
    + rewrite IHm. destruct (decide (name = n)) as [-> | Hne].
      * destruct (decide (n ∈ rest.*1)); [contradiction |].
        rewrite lookup_delete_eq.
        destruct (decide (n ∈ ((n, e) :: rest).*1)) as [_ | Hn]; [reflexivity |].
        exfalso. apply Hn. left.
      * rewrite lookup_delete_ne by (intros Heq; apply Hne; by symmetry).
        destruct (decide (name ∈ rest.*1)) as [Hin | Hnin].
        -- destruct (decide (name ∈ ((n, e) :: rest).*1)) as [_ | Hn]; [reflexivity |].
           exfalso. apply Hn. by right.
        -- destruct (decide (name ∈ ((n, e) :: rest).*1)) as [Hin | _]; [| reflexivity].
           cbn in Hin. apply elem_of_cons in Hin as [-> | Hin]; contradiction.
    + rewrite IHa. clear IHm IHa.
      assert (Hrest : forall entry, (name, entry) ∈ rest ->
                lookup0 (delete n aHashes) name = lookup0 aHashes name).
      { intros entry Hin. unfold lookup0. rewrite lookup_delete_ne; [reflexivity |].
        intros ->. apply Hfresh. apply list_elem_of_fmap. by exists (name, entry). }
      split.
      * intros [Hin | (entry & Hin & Hdiff)].
        -- destruct (N.eqb_spec (lookup0 aHashes n) (entry_Hash e)) as [_ | Hdiff];
             [by left |].
           apply elem_of_app in Hin as [Hin | Hin]; [by left |].
           apply list_elem_of_singleton in Hin as ->.
           right. exists e. split; [left | exact Hdiff].
        -- right. exists entry. split; [by right |]. by rewrite <- (Hrest entry Hin).
      * intros [Hin | (entry & Hin & Hdiff)].
        -- left. destruct (lookup0 aHashes n =? entry_Hash e)%N; [exact Hin |].
           apply elem_of_app. by left.
        -- apply elem_of_cons in Hin as [[= -> ->] | Hin].
           ++ left. destruct (N.eqb_spec (lookup0 aHashes n) (entry_Hash e));
                [contradiction |].
              apply elem_of_app. right. left.
           ++ right. exists entry. split; [exact Hin |]. by rewrite (Hrest entry Hin).
Qed.

End FilterNames.

(** X20.  The names [createBloomFilter] passes to the filter are the paths
    on which the two trees differ: when the walker over tree [b] yields no
    name twice, a name is added exactly when [b] has it with a hash other
    than the one recorded for [a] (the zero hash when [a] lacks it), or
    when [a] has it and [b] does not. *)
Theorem createBloomFilter_adds_changed_names
  (aWalk bWalk : list (string * object.TreeEntry)) (name : string) :
  NoDup bWalk.*1 ->
  name ∈ graphwriter.createBloomFilter aWalk bWalk <->
  (exists entry, (name, entry) ∈ bWalk /\
     lookup0 (graphwriter.collectHashes aWalk) name <> object.entry_Hash entry) \/
  ((name ∉ bWalk.*1) /\ is_Some (graphwriter.collectHashes aWalk !! name)).
Proof.
  intros Hnd. unfold graphwriter.createBloomFilter.
  destruct (compareEntries_fold bWalk (graphwriter.collectHashes aWalk) [] Hnd name)
    as [Hmap Hadded].
  destruct (foldl graphwriter.compareEntry (graphwriter.collectHashes aWalk, []) bWalk)
    as [aHashes added]. cbn [fst snd] in *.
  rewrite elem_of_app, Hadded. clear Hadded.
  assert (Hleft : name ∈ (map_to_list aHashes).*1 <->
                  (name ∉ bWalk.*1) /\ is_Some (graphwriter.collectHashes aWalk !! name)).
  { rewrite list_elem_of_fmap. split.
    - intros ([q h] & -> & Hin). apply elem_of_map_to_list in Hin. cbn [fst] in *.
      rewrite Hmap in Hin. destruct (decide (q ∈ bWalk.*1)); [discriminate | eauto].
    - intros [Hnot [h Hh]]. exists (name, h). split; [reflexivity |].
      apply elem_of_map_to_list. rewrite Hmap.
      destruct (decide (name ∈ bWalk.*1)); [contradiction | exact Hh]. }
  rewrite Hleft. split.
  - intros [[Hin | Hex] | Hrem]; [inversion Hin | by left | by right].
  - intros [Hex | Hrem]; [left; by right | by right].
Qed.

Lemma createBloomFilter_adds_changed_names_witness :
  "new.txt" ∈ graphwriter.createBloomFilter
                [examples.file "kept.txt" 1%N; examples.file "gone.txt" 2%N]
                [examples.file "kept.txt" 1%N; examples.file "new.txt" 3%N] /\
  "gone.txt" ∈ graphwriter.createBloomFilter
                 [examples.file "kept.txt" 1%N; examples.file "gone.txt" 2%N]
                 [examples.file "kept.txt" 1%N; examples.file "new.txt" 3%N].
Proof.
  assert (Hnd : NoDup ["kept.txt"; "new.txt"]).
  { apply NoDup_cons. split; [| apply NoDup_singleton].
    intros Hin. apply list_elem_of_singleton in Hin. discriminate. }
  split.
  - apply createBloomFilter_adds_changed_names; [exact Hnd |].
    left. eexists. split; [right; left |]. vm_compute. discriminate.
  - apply createBloomFilter_adds_changed_names; [exact Hnd |].
    right. split; [| vm_compute; eauto].
    intros Hin. cbn in Hin. rewrite !elem_of_cons, elem_of_nil in Hin.
    destruct Hin as [Hin | [Hin | []]]; discriminate.
Defined.
